(** * dice-roller: the notation parser and the roll resolver

    A shallow embedding of [src/app/api/mcp/route.ts]: [parseNotation],
    [rollOnce], [rollTerm], [applyAdvantage] and the body of the
    [roll_dice] tool handler, followed by the properties of the
    specification that were checked against them.

    Conventions of the embedding.
    - A JavaScript string is a list of code units; only the code units
      U+0000..U+00FF are represented (one [ascii] each, read as Latin-1).
    - A JavaScript number that holds an integer is a [Z].  The resolver
      is given twice: first with exact integer sums and lists of any
      length, which carries the facts about which dice are drawn and
      chosen; then, in [Machine], with the sums rounded as double
      addition rounds them and with the [RangeError] of [Array.from]
      on a length above 2^32 - 1.  The two agree while every count is
      within the array limit and every sum within 2^53; statements
      about totals, subtotals and errors are made on [Machine].
      [parseInt] and the product of [rollOnce] are exact: they are the
      program's on numbers up to 2^53, and the statements that depend
      on a value they return keep to that range.
    - [Math.random()] is an explicit sequence [random : nat -> Q]; the
      state threaded through the resolver is the number of values already
      consumed.
    - A thrown exception is the left injection of a sum. *)

From Stdlib Require Import Ascii String.
From Stdlib Require Import List ZArith Lia Bool.
From Stdlib Require Import QArith Qround.
From Stdlib Require Import Sorting.Sorted Sorting.Permutation.
Import ListNotations.

Local Open Scope Z_scope.

(** ** Strings *)

Module JsString.

Definition t := list ascii.

Definition str (s : string) : t := list_ascii_of_string s.

Fixpoint eqb (a b : t) : bool :=
  match a, b with
  | [], [] => true
  | x :: a', y :: b' => Ascii.eqb x y && eqb a' b'
  | _, _ => false
  end.

Definition isEmpty (s : t) : bool :=
  match s with [] => true | _ :: _ => false end.

(** WhiteSpace and LineTerminator code units below U+0100: TAB, LF, VT,
    FF, CR, SP and NBSP.  This is the class of [\s] and of [trim]. *)
Definition isSpace (c : ascii) : bool :=
  let n := N_of_ascii c in
  (((9 <=? n) && (n <=? 13)) || (n =? 32) || (n =? 160))%N.

Definition isDigit (c : ascii) : bool :=
  let n := N_of_ascii c in ((48 <=? n) && (n <=? 57))%N.

Definition isSign (c : ascii) : bool :=
  Ascii.eqb c "+" || Ascii.eqb c "-".

(** [String.prototype.toLowerCase] on one code unit: A-Z, and the
    Latin-1 capitals U+00C0..U+00DE except the multiplication sign. *)
Definition lowerChar (c : ascii) : ascii :=
  let n := N_of_ascii c in
  if (((65 <=? n) && (n <=? 90))
      || ((192 <=? n) && (n <=? 222) && negb (n =? 215)))%N
  then ascii_of_N (n + 32) else c.

Definition toLowerCase (s : t) : t := map lowerChar s.

Fixpoint trimStart (s : t) : t :=
  match s with
  | c :: r => if isSpace c then trimStart r else s
  | [] => []
  end.

Definition trimEnd (s : t) : t := rev (trimStart (rev s)).

Definition trim (s : t) : t := trimEnd (trimStart s).

Definition startsWith (p : ascii -> bool) (s : t) : bool :=
  match s with c :: _ => p c | [] => false end.

(** [s.split(/\s+/)]: the pieces between maximal runs of white space;
    a run at either end leaves an empty piece there, and the empty
    string gives one empty piece. *)
Fixpoint splitSpaces (s : t) : list t :=
  match s with
  | [] => [[]]
  | c :: r =>
      let toks := splitSpaces r in
      if isSpace c then
        if startsWith isSpace r then toks else [] :: toks
      else
        match toks with
        | cur :: rest => (c :: cur) :: rest
        | [] => [[c]]
        end
  end.

(** [tokens.join('')] *)
Definition join (tokens : list t) : t := concat tokens.

(** [s.replace(/^\+?/, '+')]: a leading plus is replaced by itself,
    otherwise a plus is put in front. *)
Definition ensurePlus (s : t) : t :=
  match s with
  | c :: r => if Ascii.eqb c "+" then s else "+"%char :: s
  | [] => ["+"%char]
  end.

(** [s.split(/(?=[+-])/g)]: cut in front of every sign that is not the
    first code unit. *)
Fixpoint splitSigns (s : t) : list t :=
  match s with
  | [] => [[]]
  | c :: r =>
      let toks := splitSigns r in
      if startsWith isSign r then [c] :: toks
      else
        match toks with
        | cur :: rest => (c :: cur) :: rest
        | [] => [[c]]
        end
  end.

(** The longest prefix of digits, and what follows it. *)
Fixpoint spanDigits (s : t) : t * t :=
  match s with
  | c :: r =>
      if isDigit c then let (d, rest) := spanDigits r in (c :: d, rest)
      else ([], s)
  | [] => ([], [])
  end.

Definition digitVal (c : ascii) : Z := Z.of_N (N_of_ascii c) - 48.

(** [parseInt(s, 10)] on a string that starts with a digit: the value
    of its leading digits.  The parser calls it on digit strings only. *)
Definition parseInt (s : t) : Z :=
  fold_left (fun acc c => 10 * acc + digitVal c) (fst (spanDigits s)) 0.

End JsString.

Import JsString.

(** ** Data model *)

Inductive KeepKind := kh | kl.
Inductive DropKind := dh | dl.

Record DieRoll := { value : Z }.

Record DiceTerm := {
  count : Z;
  sides : Z;
  keep : option (KeepKind * Z);
  drop : option (DropKind * Z)
}.

Inductive Term :=
| Dice (d : DiceTerm)
| Modifier (modifier : Z).

Record ParsedExpression := {
  terms : list Term;
  advantage : bool;
  disadvantage : bool
}.

(** The exceptions of the program.  The first three are the [Error]s
    thrown by [parseNotation], each with the text it interpolates;
    [UndefinedValue] stands for the [TypeError] of reading [.value] off
    [undefined], and [InvalidArrayLength] for the [RangeError] of
    building an array of 2^32 slots or more. *)
Inductive Exn :=
| InvalidDicePart (part : JsString.t)
| NegativeDicePools (part : JsString.t)
| BothAdvantageAndDisadvantage
| UndefinedValue (index : nat)
| InvalidArrayLength.

(** ** The expression parser *)

(** The named groups of a match of [termRe]; [None] is [undefined]. *)
Record Groups := {
  g_sign : JsString.t;
  g_count : option JsString.t;
  g_sides : option JsString.t;
  g_kd : option JsString.t;
  g_n : option JsString.t;
  g_mod : option JsString.t
}.

Definition isSelector (s : JsString.t) : bool :=
  JsString.eqb s (str "kh") || JsString.eqb s (str "kl")
  || JsString.eqb s (str "dh") || JsString.eqb s (str "dl").

(** [part.match(termRe)].  The pattern [termRe] reads: start of input, a
    sign [+] or [-] (group sign), then either
    - zero or more digits (group count), the letter d, one or more digits
      (group sides) and optionally one of kh, kl, dh, dl (group kd)
      followed by one or more digits (group n); or
    - one or more digits (group mod);
    then end of input.
    The pattern is anchored at both ends and each of its digit groups is
    followed by a non-digit or by the end, so a match is unique and the
    groups are the maximal digit runs.  The [i] flag is not modelled: the
    parts are cut from a lower-cased string. *)
Definition matchTermRe (part : JsString.t) : option Groups :=
  match part with
  | [] => None
  | s :: rest =>
      if isSign s then
        let (ds, r1) := spanDigits rest in
        match r1 with
        | [] =>
            if isEmpty ds then None
            else Some {| g_sign := [s]; g_count := None; g_sides := None;
                         g_kd := None; g_n := None; g_mod := Some ds |}
        | c :: r2 =>
            if Ascii.eqb c "d" then
              let (ss, r3) := spanDigits r2 in
              if isEmpty ss then None
              else
                match r3 with
                | [] =>
                    Some {| g_sign := [s]; g_count := Some ds;
                            g_sides := Some ss; g_kd := None; g_n := None;
                            g_mod := None |}
                | [_] => None
                | k1 :: k2 :: r4 =>
                    let (ns, r5) := spanDigits r4 in
                    if isSelector [k1; k2] && negb (isEmpty ns) && isEmpty r5
                    then Some {| g_sign := [s]; g_count := Some ds;
                                 g_sides := Some ss; g_kd := Some [k1; k2];
                                 g_n := Some ns; g_mod := None |}
                    else None
                end
            else None
        end
      else None
  end.

(** Truthiness of a group: defined and not the empty string. *)
Definition truthy (g : option JsString.t) : bool :=
  match g with Some (_ :: _) => true | _ => false end.

Definition groupText (g : option JsString.t) : JsString.t :=
  match g with Some s => s | None => [] end.

(** Truthiness of [number | undefined]: defined and not zero. *)
Definition truthyNumber (n : option Z) : bool :=
  match n with Some v => negb (v =? 0) | None => false end.

Definition numberOf (n : option Z) : Z :=
  match n with Some v => v | None => 0 end.

(** The selector text as the kind it is cast to.  The pattern admits only
    kh, kl, dh and dl, and the keep branch is taken for the first two. *)
Definition keepKindOf (kd : JsString.t) : KeepKind :=
  if JsString.eqb kd (str "kh") then kh else kl.

Definition dropKindOf (kd : JsString.t) : DropKind :=
  if JsString.eqb kd (str "dh") then dh else dl.

(** The body of the [for (const part of parts)] loop: the term pushed, or
    the exception thrown. *)
Definition parsePart (part : JsString.t) : Exn + Term :=
  match matchTermRe part with
  | None => inl (InvalidDicePart part)
  | Some g =>
      let sign := if JsString.eqb (g_sign g) (str "-") then -1 else 1 in
      if truthy (g_mod g) then
        inr (Modifier (sign * parseInt (groupText (g_mod g))))
      else
        let count0 :=
          if truthy (g_count g) then parseInt (groupText (g_count g)) else 1 in
        let sides0 := parseInt (groupText (g_sides g)) in
        if sign =? -1 then inl (NegativeDicePools part)
        else
          let kd := g_kd g in
          let n := if truthy (g_n g)
                   then Some (parseInt (groupText (g_n g))) else None in
          let term := {| count := if count0 =? 0 then 1 else count0;
                         sides := sides0; keep := None; drop := None |} in
          if truthy kd && truthyNumber n then
            if JsString.eqb (groupText kd) (str "kh")
               || JsString.eqb (groupText kd) (str "kl")
            then
              inr (Dice {| count := count term; sides := sides term;
                           keep := Some (keepKindOf (groupText kd),
                                         numberOf n);
                           drop := drop term |})
            else
              inr (Dice {| count := count term; sides := sides term;
                           keep := keep term;
                           drop := Some (dropKindOf (groupText kd),
                                         numberOf n) |})
          else inr (Dice term)
  end.

Fixpoint parseParts (parts : list JsString.t) (acc : list Term)
  : Exn + list Term :=
  match parts with
  | [] => inr acc
  | part :: more =>
      match parsePart part with
      | inl e => inl e
      | inr t => parseParts more (acc ++ [t])
      end
  end.

Definition isAdv (tok : JsString.t) : bool :=
  JsString.eqb tok (str "adv") || JsString.eqb tok (str "advantage").

Definition isDis (tok : JsString.t) : bool :=
  JsString.eqb tok (str "dis") || JsString.eqb tok (str "disadvantage").

(** The [while (tokens.length)] loop, on the tokens in reverse (the loop
    reads and pops the last one).  Returns the tokens left, in their
    original order, and the two flags. *)
Fixpoint stripFlags (rtokens : list JsString.t) (adv dis : bool)
  : list JsString.t * bool * bool :=
  match rtokens with
  | [] => ([], adv, dis)
  | last :: rest =>
      if isAdv last then stripFlags rest true dis
      else if isDis last then stripFlags rest adv true
      else (rev rtokens, adv, dis)
  end.

Definition tokensOf (notation : JsString.t) : list JsString.t :=
  splitSpaces (toLowerCase (trim notation)).

Definition partsOfTokens (tokens : list JsString.t) : list JsString.t :=
  filter (fun p => negb (isEmpty p)) (splitSigns (ensurePlus (join tokens))).

Definition parseNotation (notation : JsString.t) : Exn + ParsedExpression :=
  let '(tokens, adv, dis) := stripFlags (rev (tokensOf notation)) false false in
  match parseParts (partsOfTokens tokens) [] with
  | inl e => inl e
  | inr ts =>
      if adv && dis then inl BothAdvantageAndDisadvantage
      else inr {| terms := ts; advantage := adv; disadvantage := dis |}
  end.

(** ** Effects: the random source and exceptions

    A computation reads the number of random values consumed so far and
    either throws or returns a result with the new number. *)

Module Eff.

Definition M (A : Type) : Type := nat -> Exn + (A * nat).

Definition ret {A} (a : A) : M A := fun k => inr (a, k).

Definition bind {A B} (m : M A) (f : A -> M B) : M B :=
  fun k => match m k with
           | inl e => inl e
           | inr (a, k') => f a k'
           end.

Definition throw {A} (e : Exn) : M A := fun _ => inl e.

End Eff.

Import Eff.

Declare Scope eff_scope.
Delimit Scope eff_scope with eff.
Notation "x <- m ;; f" := (bind m (fun x => f))
  (at level 61, m at next level, right associativity) : eff_scope.
Local Open Scope eff_scope.

(** ** Arrays *)

(** [arr.slice(start, end)] for integer arguments; [None] is an omitted
    [end].  A negative argument counts from the end, and both are clamped
    to the array. *)
Definition relativeIndex (len : nat) (i : Z) : nat :=
  if i <? 0 then Z.to_nat (Z.max (Z.of_nat len + i) 0)
  else Z.to_nat (Z.min i (Z.of_nat len)).

Definition slice {A} (arr : list A) (start : Z) (end_ : option Z) : list A :=
  let len := length arr in
  let k := relativeIndex len start in
  let final := match end_ with
               | Some e => relativeIndex len e
               | None => len
               end in
  firstn (final - k) (skipn k arr).

(** [Array.from({ length }, f)]: [f] is called once per slot, in order;
    a negative length is no slot. *)
Fixpoint replicateM {A} (n : nat) (f : M A) : M (list A) :=
  match n with
  | O => ret []
  | S n' => x <- f ;; xs <- replicateM n' f ;; ret (x :: xs)
  end.

Definition arrayFrom {A} (length : Z) (f : M A) : M (list A) :=
  replicateM (Z.to_nat length) f.

(** [arr.sort(cmp)].  The language fixes the result for a consistent
    comparator: the stable ordering in which [a] precedes [b] when
    [cmp(a, b) < 0] and equal elements keep their order.  It is computed
    here by insertion from the right, an element going in front of the
    first one it does not exceed.  The comparator may throw. *)
Fixpoint insertBy {A} (cmp : A -> A -> M Z) (x : A) (sorted : list A)
  : M (list A) :=
  match sorted with
  | [] => ret [x]
  | y :: rest =>
      c <- cmp x y ;;
      if c <=? 0 then ret (x :: y :: rest)
      else (r <- insertBy cmp x rest ;; ret (y :: r))
  end.

Fixpoint sortBy {A} (cmp : A -> A -> M Z) (arr : list A) : M (list A) :=
  match arr with
  | [] => ret []
  | x :: rest => s <- sortBy cmp rest ;; insertBy cmp x s
  end.

(** [arr.reduce(f, init)] *)
Fixpoint reduce {A B} (f : B -> A -> M B) (arr : list A) (acc : B) : M B :=
  match arr with
  | [] => ret acc
  | x :: rest => acc' <- f acc x ;; reduce f rest acc'
  end.

(** [new Set(xs).has(i)] *)
Definition setHas (xs : list nat) (i : nat) : bool :=
  existsb (Nat.eqb i) xs.

(** [rolls[i].value]: reading [.value] off a missing element throws. *)
Definition valueAt (rolls : list DieRoll) (i : nat) : M Z :=
  match nth_error rolls i with
  | Some r => ret (value r)
  | None => throw (UndefinedValue i)
  end.

(** The ranking of [rollTerm]:
    [[...indices].sort((a, b) => rolls[b].value - rolls[a].value)]. *)
Definition sortedIdx (rolls : list DieRoll) (indices : list nat)
  : M (list nat) :=
  sortBy (fun a b => vb <- valueAt rolls b ;;
                     va <- valueAt rolls a ;;
                     ret (vb - va)) indices.

(** ** The roll resolver *)

Record TermResult := {
  rolls : list DieRoll;
  used : list nat;
  subtotal : Z
}.

(** The detail string of [applyAdvantage], kept as the template and the
    two numbers it interpolates. *)
Inductive AdvText :=
| adv_text (a b : Z)
| dis_text (a b : Z).

Record AdvResult := {
  adv_value : Z;
  adv_detail : option AdvText
}.

(** The objects pushed on [details]. *)
Inductive Detail :=
| ModifierDetail (v : Z)
| D20Detail (base : Z) (advOrDis : option AdvText) (final : Z)
| DiceDetail (d_sides d_count : Z)
    (d_keep : option (KeepKind * Z)) (d_drop : option (DropKind * Z))
    (d_rolls : list Z) (usedIndices : list nat) (d_subtotal : Z).

Definition isNone {A} (o : option A) : bool :=
  match o with None => true | Some _ => false end.

Section Resolver.

(** [random k] is the value of the [k]-th call of [Math.random()]. *)
Variable random : nat -> Q.

Definition mathRandom : M Q := fun k => inr (random k, S k).

Definition rollOnce (sides : Z) : M Z :=
  r <- mathRandom ;; ret (1 + Qfloor (r * inject_Z sides)).

Definition rollTerm (term : DiceTerm) : M TermResult :=
  rolls <- arrayFrom (count term)
             (v <- rollOnce (sides term) ;; ret {| value := v |}) ;;
  let indices := seq 0 (length rolls) in
  sortedIdx <- sortedIdx rolls indices ;;
  indices <- match keep term with
             | Some (kh, n) => ret (slice sortedIdx 0 (Some n))
             | Some (kl, n) =>
                 sortBy (fun a b => ret (Z.of_nat a - Z.of_nat b))
                        (slice sortedIdx (- n) None)
             | None => ret indices
             end ;;
  let indices :=
    match drop term with
    | Some (kind, n) =>
        let toDrop := match kind with
                      | dh => slice sortedIdx 0 (Some n)
                      | dl => slice sortedIdx (- n) None
                      end in
        filter (fun i => negb (setHas toDrop i)) indices
    | None => indices
    end in
  let used := indices in
  subtotal <- reduce (fun acc i => v <- valueAt rolls i ;; ret (acc + v))
                     used 0 ;;
  ret {| rolls := rolls; used := used; subtotal := subtotal |}.

Definition applyAdvantage (base sides : Z) (adv dis : bool) : M AdvResult :=
  if negb (sides =? 20) || (negb adv && negb dis)
  then ret {| adv_value := base; adv_detail := None |}
  else
    a <- rollOnce 20 ;;
    b <- rollOnce 20 ;;
    if adv
    then ret {| adv_value := Z.max a b; adv_detail := Some (adv_text a b) |}
    else ret {| adv_value := Z.min a b; adv_detail := Some (dis_text a b) |}.

(** The condition of the single-d20 branch of the handler. *)
Definition takesAdvantagePath (parsed : ParsedExpression) (t : DiceTerm)
  : bool :=
  (count t =? 1) && (sides t =? 20)
  && (advantage parsed || disadvantage parsed)
  && isNone (keep t) && isNone (drop t).

(** One iteration of [for (const t of parsed.terms)]: the amount added
    to [total] and the object pushed on [details]. *)
Definition resolveTerm (parsed : ParsedExpression) (t : Term)
  : M (Z * Detail) :=
  match t with
  | Modifier m => ret (m, ModifierDetail m)
  | Dice d =>
      if takesAdvantagePath parsed d then
        base <- rollOnce 20 ;;
        advd <- applyAdvantage base 20 (advantage parsed)
                  (disadvantage parsed) ;;
        ret (adv_value advd,
             D20Detail base (adv_detail advd) (adv_value advd))
      else
        r <- rollTerm d ;;
        ret (subtotal r,
             DiceDetail (sides d) (count d) (keep d) (drop d)
               (map value (rolls r)) (used r) (subtotal r))
  end.

Fixpoint resolveTerms (parsed : ParsedExpression) (ts : list Term)
    (total : Z) (details : list Detail) : M (Z * list Detail) :=
  match ts with
  | [] => ret (total, details)
  | t :: rest =>
      r <- resolveTerm parsed t ;;
      resolveTerms parsed rest (total + fst r) (details ++ [snd r])
  end.

(** [resolve]: the handler after parsing. *)
Definition resolve (parsed : ParsedExpression) : M (Z * list Detail) :=
  resolveTerms parsed (terms parsed) 0 [].

(** The tool handler: the [total] and [details] of the structured
    content, or the exception that escapes. *)
Definition roll_dice (notation : JsString.t) : M (Z * list Detail) :=
  match parseNotation notation with
  | inl e => throw e
  | inr parsed => resolve parsed
  end.

End Resolver.

(** ** The resolver on machine numbers

    The definitions above add in exact integers and build arrays of any
    length; they carry the facts about which dice are drawn and chosen.
    The program adds doubles and its arrays have at most 2^32 - 1 slots.
    [Machine] is the resolver with these two limits: the sums of
    [rollTerm] and of the handler round as double addition does, and
    [Array.from] throws on a length it cannot build.  The two resolvers
    agree while every sum stays within 2^53 and every count within the
    array limit. *)

Definition safeInteger : Z := 2 ^ 53.

(** The double nearest to an integer, ties going to the even
    significand: every integer up to 2^53 in magnitude is kept, above
    that only multiples of a power of two are.  Magnitudes of 2^1024 and
    more, which the program holds as Infinity, are not represented. *)
Definition roundDouble (z : Z) : Z :=
  let a := Z.abs z in
  if a <? safeInteger then z
  else
    let q := 2 ^ (Z.log2 a - 52) in
    let m := a / q in
    let r := a mod q in
    let up := (q <? 2 * r) || ((q =? 2 * r) && Z.odd m) in
    Z.sgn z * ((if up then m + 1 else m) * q).

(** [a + b] on two numbers that hold integers. *)
Definition addDouble (a b : Z) : Z := roundDouble (a + b).

(** The sum [reduce] and [total +=] compute: from 0, left to right. *)
Definition sumDouble (l : list Z) : Z := fold_left addDouble l 0.

Definition maxArrayLength : Z := 2 ^ 32 - 1.

Module Machine.

Section Resolver.

Variable random : nat -> Q.

(** [Array.from({ length }, f)]: the array is created before [f] is
    called, and creating it throws when the length exceeds 2^32 - 1. *)
Definition arrayFrom {A} (length : Z) (f : M A) : M (list A) :=
  if maxArrayLength <? length then throw InvalidArrayLength
  else replicateM (Z.to_nat length) f.

Definition rollTerm (term : DiceTerm) : M TermResult :=
  rolls <- arrayFrom (count term)
             (v <- rollOnce random (sides term) ;; ret {| value := v |}) ;;
  let indices := seq 0 (length rolls) in
  sortedIdx <- sortedIdx rolls indices ;;
  indices <- match keep term with
             | Some (kh, n) => ret (slice sortedIdx 0 (Some n))
             | Some (kl, n) =>
                 sortBy (fun a b => ret (Z.of_nat a - Z.of_nat b))
                        (slice sortedIdx (- n) None)
             | None => ret indices
             end ;;
  let indices :=
    match drop term with
    | Some (kind, n) =>
        let toDrop := match kind with
                      | dh => slice sortedIdx 0 (Some n)
                      | dl => slice sortedIdx (- n) None
                      end in
        filter (fun i => negb (setHas toDrop i)) indices
    | None => indices
    end in
  let used := indices in
  subtotal <- reduce (fun acc i => v <- valueAt rolls i ;;
                                   ret (addDouble acc v))
                     used 0 ;;
  ret {| rolls := rolls; used := used; subtotal := subtotal |}.

Definition resolveTerm (parsed : ParsedExpression) (t : Term)
  : M (Z * Detail) :=
  match t with
  | Modifier m => ret (m, ModifierDetail m)
  | Dice d =>
      if takesAdvantagePath parsed d then
        base <- rollOnce random 20 ;;
        advd <- applyAdvantage random base 20 (advantage parsed)
                  (disadvantage parsed) ;;
        ret (adv_value advd,
             D20Detail base (adv_detail advd) (adv_value advd))
      else
        r <- rollTerm d ;;
        ret (subtotal r,
             DiceDetail (sides d) (count d) (keep d) (drop d)
               (map value (rolls r)) (used r) (subtotal r))
  end.

Fixpoint resolveTerms (parsed : ParsedExpression) (ts : list Term)
    (total : Z) (details : list Detail) : M (Z * list Detail) :=
  match ts with
  | [] => ret (total, details)
  | t :: rest =>
      r <- resolveTerm parsed t ;;
      resolveTerms parsed rest (addDouble total (fst r)) (details ++ [snd r])
  end.

Definition resolve (parsed : ParsedExpression) : M (Z * list Detail) :=
  resolveTerms parsed (terms parsed) 0 [].

Definition roll_dice (notation : JsString.t) : M (Z * list Detail) :=
  match parseNotation notation with
  | inl e => throw e
  | inr parsed => resolve parsed
  end.

End Resolver.

End Machine.

(** ** Pure counterparts

    The resolver without its effects, for reasoning: the dice drawn from
    position [k] of the random sequence, the sort with a comparator that
    cannot throw, and the selection of [rollTerm] on given die values. *)

Section Pure.

Context {A : Type}.
Variable c : A -> A -> Z.

Fixpoint insertPure (x : A) (sorted : list A) : list A :=
  match sorted with
  | [] => [x]
  | y :: rest =>
      if c x y <=? 0 then x :: y :: rest else y :: insertPure x rest
  end.

Fixpoint sortPure (arr : list A) : list A :=
  match arr with
  | [] => []
  | x :: rest => insertPure x (sortPure rest)
  end.

End Pure.

Definition valueOf (vals : list Z) (i : nat) : Z := nth i vals 0.

(** The comparator of the ranking, [rolls[b].value - rolls[a].value]. *)
Definition byValueDesc (vals : list Z) (a b : nat) : Z :=
  valueOf vals b - valueOf vals a.

(** The comparator of the second sort, [a - b]. *)
Definition byIndexAsc (a b : nat) : Z := Z.of_nat a - Z.of_nat b.

Definition rankingOf (vals : list Z) : list nat :=
  sortPure (byValueDesc vals) (seq 0 (length vals)).

Definition selectPure (term : DiceTerm) (vals : list Z) : list nat :=
  let sortedIdx := rankingOf vals in
  let indices :=
    match keep term with
    | Some (kh, n) => slice sortedIdx 0 (Some n)
    | Some (kl, n) => sortPure byIndexAsc (slice sortedIdx (- n) None)
    | None => seq 0 (length vals)
    end in
  match drop term with
  | Some (kind, n) =>
      let toDrop := match kind with
                    | dh => slice sortedIdx 0 (Some n)
                    | dl => slice sortedIdx (- n) None
                    end in
      filter (fun i => negb (setHas toDrop i)) indices
  | None => indices
  end.

Definition sumZ (l : list Z) : Z := fold_right Z.add 0 l.

Definition dieValue (random : nat -> Q) (sides : Z) (k : nat) : Z :=
  1 + Qfloor (random k * inject_Z sides).

Definition draws (random : nat -> Q) (sides : Z) (k n : nat) : list DieRoll :=
  map (fun i => {| value := dieValue random sides i |}) (seq k n).

(** ** The selection rules in the words of the specification *)

(** Index [a] ranks before index [b]: it shows a higher value, or the
    same value and was drawn earlier. *)
Definition outranks (vals : list Z) (a b : nat) : Prop :=
  valueOf vals a > valueOf vals b
  \/ (valueOf vals a = valueOf vals b /\ (a < b)%nat).

Definition top (n : Z) (ranking : list nat) : list nat :=
  firstn (Z.to_nat n) ranking.

Definition bottom (n : Z) (ranking : list nat) : list nat :=
  skipn (length ranking - Z.to_nat n) ranking.

Definition member (i : nat) (l : list nat) : bool := existsb (Nat.eqb i) l.

(** The chosen indices, listed in draw order. *)
Definition inDrawOrder (count : nat) (chosen : list nat) : list nat :=
  filter (fun i => member i chosen) (seq 0 count).

(** All indices but the dropped ones, in draw order. *)
Definition allExcept (count : nat) (dropped : list nat) : list nat :=
  filter (fun i => negb (member i dropped)) (seq 0 count).

Definition selectedIndices (term : DiceTerm) (count : nat)
    (ranking : list nat) : list nat :=
  match keep term, drop term with
  | Some (kh, n), _ => top n ranking
  | Some (kl, n), _ => inDrawOrder count (bottom n ranking)
  | None, Some (dh, n) => allExcept count (top n ranking)
  | None, Some (dl, n) => allExcept count (bottom n ranking)
  | None, None => seq 0 count
  end.

(** ** The grammar in the words of the specification *)

Definition allDigits (s : JsString.t) : Prop := forallb isDigit s = true.

(** One or more digits. *)
Definition digits1 (s : JsString.t) : Prop := allDigits s /\ s <> [].

(** A dice term: sign, optional count, the letter d, sides, and
    optionally a selector followed by its number. *)
Definition diceForm (part : JsString.t) : Prop :=
  exists sg cnt sd tl,
    part = sg :: cnt ++ "d"%char :: sd ++ tl
    /\ isSign sg = true /\ allDigits cnt /\ digits1 sd
    /\ (tl = []
        \/ exists sel n, tl = sel ++ n /\ isSelector sel = true /\ digits1 n).

(** The run starts with a minus sign. *)
Definition startsWithMinus (part : JsString.t) : bool :=
  startsWith (Ascii.eqb "-") part.

(** A flat modifier: sign and digits. *)
Definition modForm (part : JsString.t) : Prop :=
  exists sg ds, part = sg :: ds /\ isSign sg = true /\ digits1 ds.

Definition isFlagWord (tok : JsString.t) : bool := isAdv tok || isDis tok.

(** What [parseNotation] has in hand when its loop over the parts
    starts: the signed runs and the two flags. *)
Definition strippedOf (notation : JsString.t) :=
  stripFlags (rev (tokensOf notation)) false false.

Definition partsOf (notation : JsString.t) : list JsString.t :=
  partsOfTokens (fst (fst (strippedOf notation))).

Definition advSeen (notation : JsString.t) : bool :=
  snd (fst (strippedOf notation)).

Definition disSeen (notation : JsString.t) : bool :=
  snd (strippedOf notation).

(** The groups of the three shapes of a match. *)
Definition modGroups (sg : ascii) (ds : JsString.t) : Groups :=
  {| g_sign := [sg]; g_count := None; g_sides := None; g_kd := None;
     g_n := None; g_mod := Some ds |}.

Definition diceGroups (sg : ascii) (cnt sd : JsString.t)
    (sel : option (JsString.t * JsString.t)) : Groups :=
  {| g_sign := [sg]; g_count := Some cnt; g_sides := Some sd;
     g_kd := option_map fst sel; g_n := option_map snd sel;
     g_mod := None |}.

(** The term a dice run stands for, read off its pieces. *)
Definition signOf (sg : ascii) : Z := if Ascii.eqb sg "-" then -1 else 1.

Definition countOf (cnt : JsString.t) : Z :=
  match cnt with
  | [] => 1
  | _ => if parseInt cnt =? 0 then 1 else parseInt cnt
  end.

Definition keepOf (osel : option (JsString.t * JsString.t))
  : option (KeepKind * Z) :=
  match osel with
  | Some (sel, n) =>
      if parseInt n =? 0 then None
      else if JsString.eqb sel (str "kh") then Some (kh, parseInt n)
      else if JsString.eqb sel (str "kl") then Some (kl, parseInt n)
      else None
  | None => None
  end.

Definition dropOf (osel : option (JsString.t * JsString.t))
  : option (DropKind * Z) :=
  match osel with
  | Some (sel, n) =>
      if parseInt n =? 0 then None
      else if JsString.eqb sel (str "dh") then Some (dh, parseInt n)
      else if JsString.eqb sel (str "dl") then Some (dl, parseInt n)
      else None
  | None => None
  end.

Definition termOf (cnt sd : JsString.t)
    (osel : option (JsString.t * JsString.t)) : DiceTerm :=
  {| count := countOf cnt; sides := parseInt sd;
     keep := keepOf osel; drop := dropOf osel |}.

(** The shape of a dice run around an optional selector. *)
Definition diceRun (sg : ascii) (cnt sd : JsString.t)
    (osel : option (JsString.t * JsString.t)) : JsString.t :=
  sg :: cnt ++ "d"%char :: sd
     ++ match osel with Some (sel, n) => sel ++ n | None => [] end.

Definition selectorOk (osel : option (JsString.t * JsString.t)) : Prop :=
  match osel with
  | Some (sel, n) => isSelector sel = true /\ digits1 n
  | None => True
  end.

(** What holds of every dice term the parser builds. *)
Definition parsedTermOk (t : Term) : Prop :=
  match t with
  | Modifier _ => True
  | Dice d =>
      1 <= count d /\ 0 <= sides d
      /\ (keep d = None \/ drop d = None)
      /\ (forall kind n, keep d = Some (kind, n) -> 1 <= n)
      /\ (forall kind n, drop d = Some (kind, n) -> 1 <= n)
  end.

(** ** Reading the detail list *)

(** What a detail record contributes to the total. *)
Definition contribution (detail : Detail) : Z :=
  match detail with
  | ModifierDetail v => v
  | D20Detail _ _ final => final
  | DiceDetail _ _ _ _ _ _ sub => sub
  end.

(** The subtotal of a dice record is the sum of its rolls at the used
    indices, all of which point into the rolls. *)
Definition subtotalIsSumOfUsed (detail : Detail) : Prop :=
  match detail with
  | DiceDetail _ _ _ _ vals usedI sub =>
      Forall (fun i => (i < length vals)%nat) usedI
      /\ sub = sumZ (map (valueOf vals) usedI)
  | _ => True
  end.

(** The record is the one the handler pushes for this term. *)
Definition detailFor (parsed : ParsedExpression) (t : Term)
    (detail : Detail) : Prop :=
  match t, detail with
  | Modifier m, ModifierDetail v => v = m
  | Dice d, D20Detail _ _ _ => takesAdvantagePath parsed d = true
  | Dice d, DiceDetail s c kp dr _ _ _ =>
      takesAdvantagePath parsed d = false
      /\ s = sides d /\ c = count d /\ kp = keep d /\ dr = drop d
  | _, _ => False
  end.

(** The condition of the special case, as the specification words it. *)
Definition qualifies (parsed : ParsedExpression) (d : DiceTerm) : Prop :=
  count d = 1 /\ sides d = 20 /\ keep d = None /\ drop d = None
  /\ (advantage parsed = true \/ disadvantage parsed = true).

(** ** Quantities read off a term and an expression *)

(** Every value of the random source lies in [0, 1), as [Math.random()]
    promises. *)
Definition randomOk (random : nat -> Q) : Prop :=
  forall k, (0 <= random k)%Q /\ (random k < 1)%Q.

(** A plain 1d20 term, the only kind of term the two flags act on. *)
Definition plainD20 (d : DiceTerm) : bool :=
  (count d =? 1) && (sides d =? 20) && isNone (keep d) && isNone (drop d).

(** The number of random values the handler consumes for one term. *)
Definition drawsOf (parsed : ParsedExpression) (t : Term) : nat :=
  match t with
  | Modifier _ => 0%nat
  | Dice d => if takesAdvantagePath parsed d then 3%nat
              else Z.to_nat (count d)
  end.

Definition drawsNeeded (parsed : ParsedExpression) : nat :=
  fold_right Nat.add 0%nat (map (drawsOf parsed) (terms parsed)).

(** The number of dice a term counts toward its subtotal. *)
Definition usedCount (d : DiceTerm) : Z :=
  match keep d, drop d with
  | Some (_, n), _ => Z.min n (count d)
  | None, Some (_, n) => count d - Z.min n (count d)
  | None, None => count d
  end.

(** The least and the greatest amount a term can add to the total. *)
Definition termLow (parsed : ParsedExpression) (t : Term) : Z :=
  match t with
  | Modifier m => m
  | Dice d => if takesAdvantagePath parsed d then 1 else usedCount d
  end.

Definition termHigh (parsed : ParsedExpression) (t : Term) : Z :=
  match t with
  | Modifier m => m
  | Dice d => if takesAdvantagePath parsed d then 20
              else usedCount d * sides d
  end.

Definition hasSides (t : Term) : Prop :=
  match t with
  | Modifier _ => True
  | Dice d => 1 <= sides d
  end.

(** A string of white space only. *)
Definition allSpaces (s : JsString.t) : Prop := forallb isSpace s = true.

Definition notSign (c : ascii) : bool := negb (isSign c).

(** A sign followed by text without signs: the shape of every run the
    parser cuts. *)
Definition signedRun (part : JsString.t) : Prop :=
  match part with
  | c :: r => isSign c = true /\ forallb notSign r = true
  | [] => False
  end.

(** The characters a notation can be made of, white space and the flag
    words aside: signs, digits and the letters d, k, h and l. *)
Definition allowedChar (c : ascii) : bool :=
  isSign c || isDigit c
  || Ascii.eqb c "d" || Ascii.eqb c "k" || Ascii.eqb c "h" || Ascii.eqb c "l".

(** ** The notation in the words of the specification

    The white-space-delimited tokens of a notation, the flag words at
    its end, and the text the others spell, written without the
    program's [trim], [split] and loop. *)

(** The maximal runs of characters that are not white space. *)
Fixpoint words (s : JsString.t) : list JsString.t :=
  match s with
  | [] => []
  | c :: r =>
      if isSpace c then words r
      else if startsWith isSpace r then [c] :: words r
      else match words r with
           | w :: ws => (c :: w) :: ws
           | [] => [[c]]
           end
  end.

Definition isAdvWord (tok : JsString.t) : bool :=
  existsb (JsString.eqb tok) [str "adv"; str "advantage"].

Definition isDisWord (tok : JsString.t) : bool :=
  existsb (JsString.eqb tok) [str "dis"; str "disadvantage"].

Definition isFlagToken (tok : JsString.t) : bool :=
  isAdvWord tok || isDisWord tok.

Fixpoint takeWhile {A} (f : A -> bool) (l : list A) : list A :=
  match l with
  | x :: r => if f x then x :: takeWhile f r else []
  | [] => []
  end.

Fixpoint dropWhile {A} (f : A -> bool) (l : list A) : list A :=
  match l with
  | x :: r => if f x then dropWhile f r else l
  | [] => []
  end.

(** The tokens of the notation, letter case aside. *)
Definition notationTokens (notation : JsString.t) : list JsString.t :=
  words (toLowerCase notation).

(** The flag words that end the notation, last first. *)
Definition trailingFlags (notation : JsString.t) : list JsString.t :=
  takeWhile isFlagToken (rev (notationTokens notation)).

Definition advantageWritten (notation : JsString.t) : bool :=
  existsb isAdvWord (trailingFlags notation).

Definition disadvantageWritten (notation : JsString.t) : bool :=
  existsb isDisWord (trailingFlags notation).

(** The text of the terms: the tokens before the trailing flag words,
    written one after the other. *)
Definition termsText (notation : JsString.t) : JsString.t :=
  concat (rev (dropWhile isFlagToken (rev (notationTokens notation)))).

(** The text with an explicit sign in front: a plus is put there unless
    the text starts with a plus or a minus. *)
Definition withSign (text : JsString.t) : JsString.t :=
  match text with
  | c :: _ => if isSign c then text else "+"%char :: text
  | [] => ["+"%char]
  end.

(** [runs] are the signed runs of the notation: runs that each start
    with a sign and hold no other, and together spell the signed text. *)
Definition signedRunsOf (notation : JsString.t) (runs : list JsString.t)
  : Prop :=
  Forall signedRun runs /\ concat runs = withSign (termsText notation).

(** ** The size of an expression *)

(** The greatest magnitude a term can add to the total: the modifier's
    own, 20 on the advantage path, and count dice of at most sides (a die
    never shows less than 1) otherwise. *)
Definition termMagnitude (parsed : ParsedExpression) (t : Term) : Z :=
  match t with
  | Modifier m => Z.abs m
  | Dice d => if takesAdvantagePath parsed d then 20
              else Z.max 0 (count d) * Z.max 1 (sides d)
  end.

Definition magnitude (parsed : ParsedExpression) : Z :=
  sumZ (map (termMagnitude parsed) (terms parsed)).

(** The count of a dice term fits an array. *)
Definition countFits (t : Term) : Prop :=
  match t with
  | Modifier _ => True
  | Dice d => count d <= maxArrayLength
  end.

(** An expression whose resolution stays within the array limit and the
    safe integers. *)
Definition inSafeRange (parsed : ParsedExpression) : Prop :=
  Forall countFits (terms parsed) /\ magnitude parsed <= safeInteger.

(** A fixed sequence of random values, for the worked examples:
    0.11, 0.48, 0.85, 0.22, 0.59, 0.96, 0.33, 0.70, ... *)
Definition sampleRandom (k : nat) : Q :=
  Qmake (Z.of_nat ((k * 37 + 11) mod 100)) 100.

(** * Properties *)

(** ** The effect layer *)

Lemma bind_inr {A B} (m : M A) (f : A -> M B) k a k' :
  m k = inr (a, k') -> bind m f k = f a k'.
Proof. intros H. unfold bind. now rewrite H. Qed.

Lemma bind_ret {A B} (a : A) (f : A -> M B) k : bind (ret a) f k = f a k.
Proof. reflexivity. Qed.

(** ** Sorting *)

Section SortFacts.

Context {A : Type}.
Variable c : A -> A -> Z.

Lemma insertPure_perm x l : Permutation (insertPure c x l) (x :: l).
Proof.
  induction l as [|y l IH]; simpl; [reflexivity|].
  destruct (c x y <=? 0); [reflexivity|].
  rewrite IH. apply perm_swap.
Qed.

Lemma sortPure_perm l : Permutation (sortPure c l) l.
Proof.
  induction l as [|x l IH]; simpl; [constructor|].
  rewrite insertPure_perm. now constructor.
Qed.

Lemma sortPure_In l x : In x (sortPure c l) <-> In x l.
Proof.
  split; apply Permutation_in; [|symmetry]; apply sortPure_perm.
Qed.

Lemma sortPure_length l : length (sortPure c l) = length l.
Proof. apply Permutation_length, sortPure_perm. Qed.

(** A comparator that returns without throwing or drawing computes the
    pure sort. *)
Lemma insertBy_pure (cmp : A -> A -> M Z) x l k :
  (forall y, In y l -> cmp x y k = inr (c x y, k)) ->
  insertBy cmp x l k = inr (insertPure c x l, k).
Proof.
  induction l as [|y l IH]; intros H; simpl; [reflexivity|].
  rewrite (bind_inr _ _ _ _ _ (H y (or_introl eq_refl))).
  destruct (c x y <=? 0); [reflexivity|].
  rewrite (bind_inr _ _ _ _ _ (IH (fun z Hz => H z (or_intror Hz)))).
  reflexivity.
Qed.

Lemma sortBy_pure (cmp : A -> A -> M Z) l k :
  (forall x y, In x l -> In y l -> cmp x y k = inr (c x y, k)) ->
  sortBy cmp l k = inr (sortPure c l, k).
Proof.
  induction l as [|x l IH]; intros H; simpl; [reflexivity|].
  rewrite (bind_inr _ _ _ _ _
             (IH (fun a b Ha Hb => H a b (or_intror Ha) (or_intror Hb)))).
  apply insertBy_pure. intros y Hy. apply H; [now left|right].
  exact (proj1 (sortPure_In l y) Hy).
Qed.

End SortFacts.

Lemma member_In i l : member i l = true <-> In i l.
Proof.
  unfold member. rewrite existsb_exists. split.
  - intros [x [Hx He]]. apply Nat.eqb_eq in He. now subst.
  - intros H. exists i. split; [exact H | apply Nat.eqb_refl].
Qed.

(** *** The ranking is stable *)

Section Ranking.

Variable vals : list Z.

Lemma outranks_value a b : outranks vals a b -> valueOf vals b <= valueOf vals a.
Proof. unfold outranks. lia. Qed.

Lemma insert_ranked x s :
  StronglySorted (outranks vals) s ->
  Forall (fun z => (x < z)%nat) s ->
  StronglySorted (outranks vals) (insertPure (byValueDesc vals) x s).
Proof.
  induction 1 as [|y s Hs IH Hy]; intros Hx; simpl.
  - repeat constructor.
  - inversion Hx as [|? ? Hxy Hxs]; subst.
    unfold byValueDesc at 1.
    destruct (Z.leb_spec (valueOf vals y - valueOf vals x) 0) as [Hc|Hc].
    + constructor; [now constructor|].
      constructor.
      * unfold outranks. lia.
      * rewrite Forall_forall in *. intros z Hz.
        specialize (Hy z Hz). specialize (Hxs z Hz).
        apply outranks_value in Hy. unfold outranks. lia.
    + constructor; [now apply IH|].
      rewrite Forall_forall in *. intros z Hz.
      apply (Permutation_in _ (insertPure_perm _ x s)) in Hz.
      destruct Hz as [<-|Hz]; [|now apply Hy].
      unfold outranks. lia.
Qed.

Lemma sort_ranked l :
  StronglySorted lt l ->
  StronglySorted (outranks vals) (sortPure (byValueDesc vals) l).
Proof.
  induction 1 as [|x l Hl IH Hx]; simpl; [constructor|].
  apply insert_ranked; [exact IH|].
  rewrite Forall_forall in *. intros z Hz.
  apply Hx. exact (proj1 (sortPure_In _ l z) Hz).
Qed.

End Ranking.

Lemma seq_sorted a n : StronglySorted lt (seq a n).
Proof.
  revert a. induction n as [|n IH]; intros a; simpl; constructor.
  - apply IH.
  - rewrite Forall_forall. intros z Hz. apply in_seq in Hz. lia.
Qed.

Lemma rankingOf_perm vals : Permutation (rankingOf vals) (seq 0 (length vals)).
Proof. apply sortPure_perm. Qed.

Lemma rankingOf_sorted vals : StronglySorted (outranks vals) (rankingOf vals).
Proof. apply sort_ranked, seq_sorted. Qed.

Lemma rankingOf_length vals : length (rankingOf vals) = length vals.
Proof. unfold rankingOf. now rewrite sortPure_length, length_seq. Qed.

Lemma rankingOf_NoDup vals : NoDup (rankingOf vals).
Proof.
  apply (Permutation_NoDup (Permutation_sym (rankingOf_perm vals))), seq_NoDup.
Qed.

Lemma rankingOf_In vals i : In i (rankingOf vals) <-> (i < length vals)%nat.
Proof.
  unfold rankingOf. rewrite sortPure_In, in_seq. lia.
Qed.

(** *** Sorting distinct indices numerically lists them in draw order *)

Lemma insert_ascending x s :
  StronglySorted lt s -> ~ In x s ->
  StronglySorted lt (insertPure byIndexAsc x s).
Proof.
  induction 1 as [|y s Hs IH Hy]; intros Hx; simpl.
  - repeat constructor.
  - unfold byIndexAsc at 1.
    destruct (Z.leb_spec (Z.of_nat x - Z.of_nat y) 0) as [Hc|Hc].
    + assert (x < y)%nat by (assert (x <> y) by (intros ->; apply Hx; now left); lia).
      constructor; [now constructor|].
      constructor; [assumption|].
      rewrite Forall_forall in *. intros z Hz. specialize (Hy z Hz). lia.
    + constructor.
      * apply IH. intros Hin. apply Hx. now right.
      * rewrite Forall_forall in *. intros z Hz.
        apply (Permutation_in _ (insertPure_perm _ x s)) in Hz.
        destruct Hz as [<-|Hz]; [lia | now apply Hy].
Qed.

Lemma sort_ascending l : NoDup l -> StronglySorted lt (sortPure byIndexAsc l).
Proof.
  induction 1 as [|x l Hx Hl IH]; simpl; [constructor|].
  apply insert_ascending; [exact IH|].
  intros Hin. apply Hx. exact (proj1 (sortPure_In _ l x) Hin).
Qed.

(** Two lists sorted by an asymmetric relation that hold the same
    elements are the same list. *)
Lemma sorted_unique {A} (R : A -> A -> Prop) (l1 l2 : list A) :
  (forall x y, R x y -> R y x -> False) ->
  StronglySorted R l1 -> StronglySorted R l2 ->
  (forall x, In x l1 <-> In x l2) -> l1 = l2.
Proof.
  intros Hasym H1. revert l2.
  induction H1 as [|x l1 Hs1 IH Hx]; intros l2 H2 Heq.
  - destruct l2 as [|y l2]; [reflexivity|].
    exfalso. apply (proj2 (Heq y)). now left.
  - destruct H2 as [|y l2 Hs2 Hy].
    + exfalso. apply (proj1 (Heq x)). now left.
    + rewrite Forall_forall in Hx, Hy.
      assert (x = y) as ->.
      { destruct (proj1 (Heq x) (or_introl eq_refl)) as [E|Hin]; [easy|].
        destruct (proj2 (Heq y) (or_introl eq_refl)) as [E|Hin']; [easy|].
        exfalso. exact (Hasym _ _ (Hx _ Hin') (Hy _ Hin)). }
      f_equal. apply IH; [exact Hs2|].
      intros z. split; intros Hz.
      * destruct (proj1 (Heq z) (or_intror Hz)) as [E|Hin]; [|exact Hin].
        subst z. exfalso. exact (Hasym _ _ (Hx _ Hz) (Hx _ Hz)).
      * destruct (proj2 (Heq z) (or_intror Hz)) as [E|Hin]; [|exact Hin].
        subst z. exfalso. exact (Hasym _ _ (Hy _ Hz) (Hy _ Hz)).
Qed.

Lemma sorted_lt_unique (l1 l2 : list nat) :
  StronglySorted lt l1 -> StronglySorted lt l2 ->
  (forall x, In x l1 <-> In x l2) -> l1 = l2.
Proof. apply sorted_unique. intros x y. lia. Qed.

Lemma outranks_asym vals a b : outranks vals a b -> outranks vals b a -> False.
Proof. unfold outranks. lia. Qed.

(** The ranking is fixed by what it is asked to be, whatever the sorting
    method: it is the only arrangement of the draw positions that is
    sorted by value descending with ties in draw order. *)
Lemma rankingOf_unique vals (l : list nat) :
  Permutation l (seq 0 (length vals)) ->
  StronglySorted (outranks vals) l ->
  l = rankingOf vals.
Proof.
  intros Hperm Hsorted.
  apply (sorted_unique (outranks vals)).
  - apply outranks_asym.
  - exact Hsorted.
  - apply rankingOf_sorted.
  - intros x. rewrite rankingOf_In. split.
    + intros Hx. apply (Permutation_in _ Hperm), in_seq in Hx. lia.
    + intros Hx. apply (Permutation_in _ (Permutation_sym Hperm)), in_seq. lia.
Qed.

Lemma filter_sorted (f : nat -> bool) l :
  StronglySorted lt l -> StronglySorted lt (filter f l).
Proof.
  induction 1 as [|x l Hs IH Hx]; simpl; [constructor|].
  destruct (f x); [|exact IH].
  constructor; [exact IH|].
  rewrite Forall_forall in *. intros z Hz.
  apply filter_In in Hz. now apply Hx.
Qed.

Lemma sort_ascending_inDrawOrder count l :
  NoDup l -> (forall i, In i l -> (i < count)%nat) ->
  sortPure byIndexAsc l = inDrawOrder count l.
Proof.
  intros Hnd Hlt. apply sorted_lt_unique.
  - now apply sort_ascending.
  - apply filter_sorted, seq_sorted.
  - intros x. unfold inDrawOrder.
    rewrite sortPure_In, filter_In, in_seq, member_In.
    split; [intros H; split; [specialize (Hlt _ H); lia | exact H] | tauto].
Qed.

(** ** Slices *)

Lemma relativeIndex_nonneg len i :
  0 <= i -> relativeIndex len i = Nat.min (Z.to_nat i) len.
Proof.
  intros Hi. unfold relativeIndex.
  destruct (Z.ltb_spec i 0); lia.
Qed.

Lemma relativeIndex_neg len i :
  i < 0 -> relativeIndex len i = (len - Z.to_nat (- i))%nat.
Proof.
  intros Hi. unfold relativeIndex.
  destruct (Z.ltb_spec i 0); lia.
Qed.

Lemma slice_top {A} (l : list A) n :
  0 <= n -> slice l 0 (Some n) = firstn (Z.to_nat n) l.
Proof.
  intros Hn. unfold slice.
  rewrite !relativeIndex_nonneg by lia.
  change (Z.to_nat 0) with 0%nat. simpl Nat.min.
  rewrite Nat.sub_0_r. simpl skipn.
  destruct (Nat.min_spec (Z.to_nat n) (length l)) as [[Hlt ->]|[Hge ->]];
    [reflexivity|].
  rewrite !firstn_all2; [reflexivity | lia | lia].
Qed.

Lemma slice_bottom {A} (l : list A) n :
  1 <= n -> slice l (- n) None = skipn (length l - Z.to_nat n) l.
Proof.
  intros Hn. unfold slice.
  rewrite relativeIndex_neg by lia. rewrite Z.opp_involutive.
  apply firstn_all2. rewrite length_skipn. lia.
Qed.

Lemma In_firstn {A} n (l : list A) x : In x (firstn n l) -> In x l.
Proof.
  intros H. rewrite <- (firstn_skipn n l). apply in_or_app. now left.
Qed.

Lemma In_skipn {A} n (l : list A) x : In x (skipn n l) -> In x l.
Proof.
  intros H. rewrite <- (firstn_skipn n l). apply in_or_app. now right.
Qed.

Lemma slice_incl {A} (l : list A) a b x : In x (slice l a b) -> In x l.
Proof.
  unfold slice. intros H. apply In_firstn in H.
  rewrite <- (firstn_skipn (relativeIndex (length l) a) l).
  apply in_or_app. now right.
Qed.

Lemma NoDup_skipn {A} n (l : list A) : NoDup l -> NoDup (skipn n l).
Proof.
  intros H. rewrite <- (firstn_skipn n l) in H.
  now apply NoDup_app_remove_l in H.
Qed.

Lemma NoDup_firstn' {A} n (l : list A) : NoDup l -> NoDup (firstn n l).
Proof.
  intros H. rewrite <- (firstn_skipn n l) in H.
  now apply NoDup_app_remove_r in H.
Qed.

Lemma slice_NoDup {A} (l : list A) a b : NoDup l -> NoDup (slice l a b).
Proof. intros H. unfold slice. now apply NoDup_firstn', NoDup_skipn. Qed.

(** ** [rollTerm] computes the pure selection and never throws *)

Section RollTerm.

Variable random : nat -> Q.

Lemma rollOnce_eq s k : rollOnce random s k = inr (dieValue random s k, S k).
Proof. reflexivity. Qed.

Lemma arrayFrom_draws s n k :
  replicateM n (v <- rollOnce random s ;; ret {| value := v |}) k
  = inr (draws random s k n, (k + n)%nat).
Proof.
  revert k. induction n as [|n IH]; intros k; simpl.
  - unfold ret, draws. simpl. now rewrite Nat.add_0_r.
  - unfold bind at 1. simpl. unfold bind at 1. rewrite IH. simpl.
    unfold ret, draws. simpl. do 2 f_equal. lia.
Qed.

Lemma draws_length s k n : length (draws random s k n) = n.
Proof. unfold draws. now rewrite length_map, length_seq. Qed.

Lemma valueAt_eq rolls i k :
  (i < length rolls)%nat ->
  valueAt rolls i k = inr (valueOf (map value rolls) i, k).
Proof.
  intros Hi. unfold valueAt, valueOf.
  destruct (nth_error rolls i) as [r|] eqn:E.
  - unfold ret. do 2 f_equal.
    rewrite (nth_indep _ 0 (value r)) by (now rewrite length_map).
    rewrite map_nth. f_equal. symmetry. now apply nth_error_nth.
  - apply nth_error_None in E. lia.
Qed.

Lemma sortedIdx_eq rolls k :
  sortedIdx rolls (seq 0 (length rolls)) k
  = inr (rankingOf (map value rolls), k).
Proof.
  unfold sortedIdx, rankingOf. rewrite length_map.
  apply sortBy_pure. intros a b Ha Hb.
  apply in_seq in Ha. apply in_seq in Hb.
  rewrite (bind_inr _ _ _ _ _ (valueAt_eq rolls b k ltac:(lia))).
  rewrite (bind_inr _ _ _ _ _ (valueAt_eq rolls a k ltac:(lia))).
  reflexivity.
Qed.

Lemma selectPure_bound term vals i :
  In i (selectPure term vals) -> (i < length vals)%nat.
Proof.
  unfold selectPure. intros H.
  assert (Hkeep : In i match keep term with
                       | Some (kh, n) => slice (rankingOf vals) 0 (Some n)
                       | Some (kl, n) =>
                           sortPure byIndexAsc
                             (slice (rankingOf vals) (- n) None)
                       | None => seq 0 (length vals)
                       end).
  { destruct (drop term) as [[kind n]|]; [|exact H].
    now apply filter_In in H. }
  clear H. destruct (keep term) as [[[|] n]|].
  - apply slice_incl in Hkeep. now apply rankingOf_In.
  - apply sortPure_In, slice_incl in Hkeep. now apply rankingOf_In.
  - apply in_seq in Hkeep. lia.
Qed.

Lemma reduce_sum rolls l acc k :
  (forall i, In i l -> (i < length rolls)%nat) ->
  reduce (fun acc i => v <- valueAt rolls i ;; ret (acc + v)) l acc k
  = inr (acc + sumZ (map (valueOf (map value rolls)) l), k).
Proof.
  revert acc. induction l as [|i l IH]; intros acc H; simpl.
  - unfold ret. do 2 f_equal. lia.
  - unfold bind at 1.
    rewrite (bind_inr _ _ _ _ _ (valueAt_eq rolls i k (H i (or_introl eq_refl)))).
    unfold ret at 1. rewrite IH by (intros j Hj; apply H; now right).
    do 2 f_equal. lia.
Qed.

Lemma rollTerm_eq term k :
  let rs := draws random (sides term) k (Z.to_nat (count term)) in
  let us := selectPure term (map value rs) in
  rollTerm random term k
  = inr ({| rolls := rs; used := us;
            subtotal := sumZ (map (valueOf (map value rs)) us) |},
         (k + Z.to_nat (count term))%nat).
Proof.
  intros rs us. unfold rollTerm, arrayFrom.
  rewrite (bind_inr _ _ _ _ _ (arrayFrom_draws _ _ _)). fold rs.
  rewrite (bind_inr _ _ _ _ _ (sortedIdx_eq _ _)).
  set (k' := (k + Z.to_nat (count term))%nat).
  assert (Hsel : forall i, In i us -> (i < length rs)%nat).
  { intros i Hi. apply selectPure_bound in Hi. now rewrite length_map in Hi. }
  unfold us, selectPure in *. rewrite length_map in *.
  destruct (keep term) as [[[|] n]|].
  - rewrite bind_ret, (bind_inr _ _ _ _ _ (reduce_sum _ _ _ _ Hsel)).
    reflexivity.
  - rewrite (bind_inr _ _ _ _ _
               (sortBy_pure byIndexAsc _ _ k' (fun _ _ _ _ => eq_refl))).
    rewrite (bind_inr _ _ _ _ _ (reduce_sum _ _ _ _ Hsel)).
    reflexivity.
  - rewrite bind_ret, (bind_inr _ _ _ _ _ (reduce_sum _ _ _ _ Hsel)).
    reflexivity.
Qed.

End RollTerm.

(** ** Strings and digits *)

Lemma jsstring_eqb_eq (a b : JsString.t) : JsString.eqb a b = true <-> a = b.
Proof.
  revert b. induction a as [|x a IH]; intros [|y b]; simpl;
    try (split; [discriminate | congruence]); [tauto|].
  rewrite andb_true_iff, Ascii.eqb_eq, IH. split.
  - now intros [-> ->].
  - intros E. now inversion E.
Qed.

Lemma jsstring_eqb_refl (a : JsString.t) : JsString.eqb a a = true.
Proof. now apply jsstring_eqb_eq. Qed.

Lemma spanDigits_spec s d r :
  spanDigits s = (d, r) ->
  s = d ++ r /\ allDigits d /\ startsWith isDigit r = false.
Proof.
  revert d r. induction s as [|c s IH]; intros d r; simpl.
  - intros E. inversion E. now repeat split.
  - destruct (isDigit c) eqn:Hc.
    + destruct (spanDigits s) as [d' r'] eqn:E'. intros E. inversion E; subst.
      destruct (IH _ _ eq_refl) as (-> & Hd & Hr).
      repeat split; [|exact Hr]. unfold allDigits. simpl.
      now rewrite Hc.
    + intros E. inversion E; subst. repeat split. simpl. exact Hc.
Qed.

Lemma spanDigits_app d r :
  allDigits d -> startsWith isDigit r = false -> spanDigits (d ++ r) = (d, r).
Proof.
  unfold allDigits. induction d as [|c d IH]; simpl; intros Hd Hr.
  - destruct r as [|c r]; [reflexivity|]. simpl in *. now rewrite Hr.
  - apply andb_true_iff in Hd as [Hc Hd]. now rewrite Hc, IH.
Qed.

Lemma spanDigits_all d : allDigits d -> spanDigits d = (d, []).
Proof.
  intros Hd. rewrite <- (app_nil_r d) at 1. now apply spanDigits_app.
Qed.

Lemma digitVal_nonneg c : isDigit c = true -> 0 <= digitVal c.
Proof.
  unfold isDigit, digitVal. intros H.
  apply andb_true_iff in H as [H _]. apply N.leb_le in H. lia.
Qed.

Lemma parseInt_nonneg s : 0 <= parseInt s.
Proof.
  unfold parseInt. destruct (spanDigits s) as [d r] eqn:E.
  apply spanDigits_spec in E as (_ & Hd & _). cbn [fst].
  assert (G : forall acc, 0 <= acc ->
            0 <= fold_left (fun acc c => 10 * acc + digitVal c) d acc).
  { unfold allDigits in Hd.
    induction d as [|c d IH]; cbn [fold_left forallb] in *; intros acc Ha.
    - exact Ha.
    - apply andb_true_iff in Hd as [Hc Hd]. apply IH; [exact Hd|].
      apply digitVal_nonneg in Hc. lia. }
  apply G. lia.
Qed.

Lemma isSign_cases sg : isSign sg = true -> sg = "+"%char \/ sg = "-"%char.
Proof.
  unfold isSign. rewrite orb_true_iff, !Ascii.eqb_eq. tauto.
Qed.

Lemma isSelector_cases sel :
  isSelector sel = true ->
  sel = str "kh" \/ sel = str "kl" \/ sel = str "dh" \/ sel = str "dl".
Proof.
  unfold isSelector. rewrite !orb_true_iff, !jsstring_eqb_eq. tauto.
Qed.

(** ** The pattern [termRe] *)

Lemma matchTermRe_mod sg ds :
  isSign sg = true -> digits1 ds ->
  matchTermRe (sg :: ds) = Some (modGroups sg ds).
Proof.
  intros Hs [Hd Hne]. unfold matchTermRe. rewrite Hs.
  rewrite (spanDigits_all ds Hd).
  destruct ds; [congruence | reflexivity].
Qed.

Lemma matchTermRe_dice sg cnt sd :
  isSign sg = true -> allDigits cnt -> digits1 sd ->
  matchTermRe (sg :: cnt ++ "d"%char :: sd)
  = Some (diceGroups sg cnt sd None).
Proof.
  intros Hs Hc [Hd Hne]. unfold matchTermRe. rewrite Hs.
  rewrite (spanDigits_app cnt ("d"%char :: sd) Hc eq_refl).
  simpl Ascii.eqb. cbv iota.
  rewrite (spanDigits_all sd Hd).
  destruct sd; [congruence | reflexivity].
Qed.

Lemma matchTermRe_dice_sel sg cnt sd sel n :
  isSign sg = true -> allDigits cnt -> digits1 sd ->
  isSelector sel = true -> digits1 n ->
  matchTermRe (sg :: cnt ++ "d"%char :: sd ++ sel ++ n)
  = Some (diceGroups sg cnt sd (Some (sel, n))).
Proof.
  intros Hs Hc [Hd Hne] Hsel [Hn Hnn]. unfold matchTermRe. rewrite Hs.
  rewrite (spanDigits_app cnt ("d"%char :: sd ++ sel ++ n) Hc eq_refl).
  simpl Ascii.eqb. cbv iota.
  assert (Hk : exists k1 k2, sel = [k1; k2] /\ isDigit k1 = false).
  { destruct (isSelector_cases _ Hsel) as [-> | [-> | [-> | ->]]];
      eexists; eexists; split; reflexivity. }
  destruct Hk as (k1 & k2 & -> & Hk1).
  change (sd ++ [k1; k2] ++ n) with (sd ++ k1 :: k2 :: n).
  rewrite (spanDigits_app sd (k1 :: k2 :: n) Hd Hk1).
  destruct sd as [|s0 sd]; [congruence|]. cbv beta iota. simpl isEmpty at 1.
  cbv iota. rewrite (spanDigits_all n Hn). rewrite Hsel.
  destruct n; [congruence | reflexivity].
Qed.

Lemma matchTermRe_sound part g :
  matchTermRe part = Some g ->
  (exists sg ds, part = sg :: ds /\ isSign sg = true /\ digits1 ds
                 /\ g = modGroups sg ds)
  \/ (exists sg cnt sd osel,
        isSign sg = true /\ allDigits cnt /\ digits1 sd
        /\ g = diceGroups sg cnt sd osel
        /\ match osel with
           | None => part = sg :: cnt ++ "d"%char :: sd
           | Some (sel, n) =>
               part = sg :: cnt ++ "d"%char :: sd ++ sel ++ n
               /\ isSelector sel = true /\ digits1 n
           end).
Proof.
  unfold matchTermRe. destruct part as [|sg rest]; [discriminate|].
  destruct (isSign sg) eqn:Hs; [|discriminate].
  destruct (spanDigits rest) as [ds r1] eqn:E1.
  apply spanDigits_spec in E1 as (-> & Hds & _).
  destruct r1 as [|c r2].
  - destruct ds as [|d0 ds']; simpl; [discriminate|].
    intros E. inversion E; subst. left.
    exists sg, (d0 :: ds'). rewrite app_nil_r.
    repeat split; try reflexivity; try assumption; discriminate.
  - destruct (Ascii.eqb_spec c "d"%char) as [->|_]; [|discriminate].
    destruct (spanDigits r2) as [ss r3] eqn:E2.
    apply spanDigits_spec in E2 as (-> & Hss & _).
    destruct ss as [|s0 ss']; simpl isEmpty; cbv iota; [discriminate|].
    destruct r3 as [|k1 [|k2 r4]]; [| discriminate |].
    + intros E. inversion E; subst. right.
      exists sg, ds, (s0 :: ss'), None. rewrite app_nil_r.
      repeat split; try reflexivity; try assumption; discriminate.
    + destruct (spanDigits r4) as [ns r5] eqn:E3.
      apply spanDigits_spec in E3 as (-> & Hns & _).
      destruct (isSelector [k1; k2]) eqn:Hsel; [|discriminate].
      destruct ns as [|n0 ns']; [discriminate|].
      destruct r5; [|discriminate]. simpl.
      intros E. inversion E; subst. right.
      exists sg, ds, (s0 :: ss'), (Some ([k1; k2], n0 :: ns')).
      rewrite app_nil_r.
      repeat split; try reflexivity; try assumption; discriminate.
Qed.

Lemma matchTermRe_modForm part : modForm part -> matchTermRe part <> None.
Proof.
  intros (sg & ds & -> & Hs & Hd). now rewrite matchTermRe_mod.
Qed.

Lemma matchTermRe_diceForm part : diceForm part -> matchTermRe part <> None.
Proof.
  intros (sg & cnt & sd & tl & -> & Hs & Hc & Hd & [-> | (sel & n & -> & Hsel & Hn)]).
  - rewrite app_nil_r. now rewrite matchTermRe_dice.
  - now rewrite matchTermRe_dice_sel.
Qed.

(** ** One signed run *)

Arguments parseInt : simpl never.

Lemma matchTermRe_diceRun sg cnt sd osel :
  isSign sg = true -> allDigits cnt -> digits1 sd -> selectorOk osel ->
  matchTermRe (diceRun sg cnt sd osel) = Some (diceGroups sg cnt sd osel).
Proof.
  intros Hs Hc Hd Ho. destruct osel as [[sel n]|]; unfold diceRun.
  - destruct Ho as [Hsel Hn]. now apply matchTermRe_dice_sel.
  - rewrite app_nil_r. now apply matchTermRe_dice.
Qed.

Lemma diceForm_diceRun part :
  diceForm part <->
  exists sg cnt sd osel,
    part = diceRun sg cnt sd osel /\ isSign sg = true /\ allDigits cnt
    /\ digits1 sd /\ selectorOk osel.
Proof.
  split.
  - intros (sg & cnt & sd & tl & -> & Hs & Hc & Hd & [-> | (sel & n & -> & Ho)]).
    + exists sg, cnt, sd, None. unfold diceRun.
      split; [reflexivity|]. unfold selectorOk, digits1 in *. tauto.
    + exists sg, cnt, sd, (Some (sel, n)). unfold diceRun.
      split; [reflexivity|]. unfold selectorOk, digits1 in *. tauto.
  - intros (sg & cnt & sd & osel & -> & Hs & Hc & Hd & Ho).
    exists sg, cnt, sd. destruct osel as [[sel n]|]; eexists;
      (split; [reflexivity|]); (split; [exact Hs|]); (split; [exact Hc|]);
      (split; [exact Hd|]).
    + right. exists sel, n. now split.
    + now left.
Qed.

Lemma parsePart_mod sg ds :
  isSign sg = true -> digits1 ds ->
  parsePart (sg :: ds) = inr (Modifier (signOf sg * parseInt ds)).
Proof.
  intros Hs Hd. unfold parsePart. rewrite (matchTermRe_mod _ _ Hs Hd).
  destruct Hd as [_ Hne]. destruct ds as [|d0 ds]; [congruence|].
  simpl. unfold signOf. now rewrite andb_true_r.
Qed.

Lemma parsePart_dice_minus cnt sd osel :
  allDigits cnt -> digits1 sd -> selectorOk osel ->
  parsePart (diceRun "-" cnt sd osel)
  = inl (NegativeDicePools (diceRun "-" cnt sd osel)).
Proof.
  intros Hc Hd Ho. unfold parsePart.
  rewrite (matchTermRe_diceRun "-" _ _ _ eq_refl Hc Hd Ho). reflexivity.
Qed.

Lemma parsePart_dice_plus cnt sd osel :
  allDigits cnt -> digits1 sd -> selectorOk osel ->
  parsePart (diceRun "+" cnt sd osel) = inr (Dice (termOf cnt sd osel)).
Proof.
  intros Hc Hd Ho. unfold parsePart.
  rewrite (matchTermRe_diceRun "+" _ _ _ eq_refl Hc Hd Ho).
  unfold termOf, keepOf, dropOf, countOf, diceGroups.
  remember (parseInt sd) as ps eqn:Eps.
  remember (parseInt cnt) as pc eqn:Epc.
  destruct osel as [[sel n]|].
  - destruct Ho as [Hsel [_ Hn]].
    remember (parseInt n) as pn eqn:Epn.
    destruct n as [|n0 n']; [congruence|].
    destruct (isSelector_cases _ Hsel) as [-> | [-> | [-> | ->]]];
      destruct cnt as [|c0 cnt']; simpl; rewrite <- ?Epn, <- ?Epc, <- ?Eps;
      destruct (pn =? 0); simpl; try reflexivity;
      destruct (pc =? 0); reflexivity.
  - destruct cnt as [|c0 cnt']; simpl; rewrite <- ?Epc, <- ?Eps;
      try reflexivity; destruct (pc =? 0); reflexivity.
Qed.

Lemma parsePart_unmatched part :
  matchTermRe part = None -> parsePart part = inl (InvalidDicePart part).
Proof. intros H. unfold parsePart. now rewrite H. Qed.

(** The three outcomes of a run, by its form. *)
Lemma parsePart_cases part :
  (~ diceForm part /\ ~ modForm part
   /\ parsePart part = inl (InvalidDicePart part))
  \/ (exists sg ds, part = sg :: ds /\ isSign sg = true /\ digits1 ds
       /\ parsePart part = inr (Modifier (signOf sg * parseInt ds)))
  \/ (exists cnt sd osel, part = diceRun "-" cnt sd osel
       /\ allDigits cnt /\ digits1 sd /\ selectorOk osel
       /\ parsePart part = inl (NegativeDicePools part))
  \/ (exists cnt sd osel, part = diceRun "+" cnt sd osel
       /\ allDigits cnt /\ digits1 sd /\ selectorOk osel
       /\ parsePart part = inr (Dice (termOf cnt sd osel))).
Proof.
  destruct (matchTermRe part) as [g|] eqn:E.
  - apply matchTermRe_sound in E
      as [(sg & ds & -> & Hs & Hd & _)
         | (sg & cnt & sd & osel & Hs & Hc & Hd & _ & Hp)].
    + right; left. exists sg, ds.
      split; [reflexivity|]. split; [exact Hs|]. split; [exact Hd|].
      now apply parsePart_mod.
    + assert (Hrun : part = diceRun sg cnt sd osel /\ selectorOk osel).
      { destruct osel as [[sel n]|]; unfold diceRun.
        - destruct Hp as (-> & Ho). now split.
        - rewrite app_nil_r. now split. }
      destruct Hrun as [-> Ho].
      destruct (isSign_cases _ Hs) as [-> | ->].
      * right; right; right. exists cnt, sd, osel.
        split; [reflexivity|]. split; [exact Hc|]. split; [exact Hd|].
        split; [exact Ho|]. now apply parsePart_dice_plus.
      * right; right; left. exists cnt, sd, osel.
        split; [reflexivity|]. split; [exact Hc|]. split; [exact Hd|].
        split; [exact Ho|]. now apply parsePart_dice_minus.
  - left. repeat split.
    + intros H. now apply matchTermRe_diceForm in H.
    + intros H. now apply matchTermRe_modForm in H.
    + now apply parsePart_unmatched.
Qed.

Lemma modForm_not_diceForm part : modForm part -> ~ diceForm part.
Proof.
  intros (sg & ds & -> & Hs & Hd) Hdice.
  apply diceForm_diceRun in Hdice
    as (sg' & cnt & sd & osel & E & Hs' & Hc & Hd' & Ho).
  pose proof (matchTermRe_mod _ _ Hs Hd) as E1.
  rewrite E, (matchTermRe_diceRun _ _ _ _ Hs' Hc Hd' Ho) in E1.
  discriminate.
Qed.

(** ** The loop over the parts and the whole parser *)

Lemma parseParts_ok parts acc ts :
  parseParts parts acc = inr ts ->
  exists ts', ts = acc ++ ts'
              /\ Forall2 (fun p t => parsePart p = inr t) parts ts'.
Proof.
  revert acc. induction parts as [|p parts IH]; intros acc; simpl.
  - intros E. inversion E. exists []. now rewrite app_nil_r.
  - destruct (parsePart p) as [e|t] eqn:Ep; [discriminate|].
    intros E. destruct (IH _ E) as (ts' & -> & HF).
    exists (t :: ts'). rewrite <- app_assoc. split; [reflexivity|].
    now constructor.
Qed.

Lemma parseParts_err parts acc e :
  parseParts parts acc = inl e ->
  exists p, In p parts /\ parsePart p = inl e.
Proof.
  revert acc. induction parts as [|p parts IH]; intros acc; simpl;
    [discriminate|].
  destruct (parsePart p) as [e'|t] eqn:Ep.
  - intros E. inversion E; subst. exists p. split; [now left | exact Ep].
  - intros E. destruct (IH _ E) as (q & Hq & Eq).
    exists q. split; [now right | exact Eq].
Qed.

Lemma parseParts_fails parts acc p e :
  In p parts -> parsePart p = inl e ->
  exists e', parseParts parts acc = inl e'.
Proof.
  revert acc. induction parts as [|q parts IH]; intros acc Hin Ep;
    [destruct Hin|]. simpl.
  destruct (parsePart q) as [e'|t] eqn:Eq; [now exists e'|].
  destruct Hin as [->|Hin]; [congruence|]. now apply IH.
Qed.

Lemma parseNotation_eq notation :
  parseNotation notation
  = match parseParts (partsOf notation) [] with
    | inl e => inl e
    | inr ts =>
        if advSeen notation && disSeen notation
        then inl BothAdvantageAndDisadvantage
        else inr {| terms := ts; advantage := advSeen notation;
                    disadvantage := disSeen notation |}
    end.
Proof.
  unfold parseNotation, partsOf, advSeen, disSeen, strippedOf.
  now destruct (stripFlags (rev (tokensOf notation)) false false)
    as [[tokens adv] dis].
Qed.

Lemma parseNotation_terms notation parsed :
  parseNotation notation = inr parsed ->
  Forall2 (fun p t => parsePart p = inr t) (partsOf notation) (terms parsed)
  /\ advantage parsed = advSeen notation
  /\ disadvantage parsed = disSeen notation
  /\ advantage parsed && disadvantage parsed = false.
Proof.
  rewrite parseNotation_eq.
  destruct (parseParts (partsOf notation) []) as [e|ts] eqn:E; [discriminate|].
  destruct (advSeen notation && disSeen notation) eqn:Hf; [discriminate|].
  intros H. inversion H; subst; simpl.
  apply parseParts_ok in E as (ts' & -> & HF). simpl. tauto.
Qed.

Lemma countOf_pos cnt : 1 <= countOf cnt.
Proof.
  unfold countOf. destruct cnt as [|c cnt]; [lia|].
  pose proof (parseInt_nonneg (c :: cnt)).
  destruct (Z.eqb_spec (parseInt (c :: cnt)) 0); lia.
Qed.

Lemma keepOf_drop_exclusive osel : keepOf osel = None \/ dropOf osel = None.
Proof.
  unfold keepOf, dropOf. destruct osel as [[sel n]|]; [|now left].
  destruct (parseInt n =? 0); [now left|].
  destruct (JsString.eqb sel (str "kh")) eqn:E1.
  { apply jsstring_eqb_eq in E1. subst. now right. }
  destruct (JsString.eqb sel (str "kl")) eqn:E2.
  { apply jsstring_eqb_eq in E2. subst. now right. }
  now left.
Qed.

Lemma keepOf_pos osel kind n : keepOf osel = Some (kind, n) -> 1 <= n.
Proof.
  unfold keepOf. destruct osel as [[sel m]|]; [|discriminate].
  pose proof (parseInt_nonneg m).
  destruct (Z.eqb_spec (parseInt m) 0); [discriminate|].
  destruct (JsString.eqb sel (str "kh")); [intros E; inversion E; lia|].
  destruct (JsString.eqb sel (str "kl")); [intros E; inversion E; lia|].
  discriminate.
Qed.

Lemma dropOf_pos osel kind n : dropOf osel = Some (kind, n) -> 1 <= n.
Proof.
  unfold dropOf. destruct osel as [[sel m]|]; [|discriminate].
  pose proof (parseInt_nonneg m).
  destruct (Z.eqb_spec (parseInt m) 0); [discriminate|].
  destruct (JsString.eqb sel (str "dh")); [intros E; inversion E; lia|].
  destruct (JsString.eqb sel (str "dl")); [intros E; inversion E; lia|].
  discriminate.
Qed.

Lemma termOf_ok cnt sd osel : parsedTermOk (Dice (termOf cnt sd osel)).
Proof.
  simpl. split; [apply countOf_pos|]. split; [apply parseInt_nonneg|].
  split; [apply keepOf_drop_exclusive|].
  split; intros kind n; [apply keepOf_pos | apply dropOf_pos].
Qed.

Lemma parsePart_ok part t : parsePart part = inr t -> parsedTermOk t.
Proof.
  destruct (parsePart_cases part)
    as [(_ & _ & E) | [(sg & ds & _ & _ & _ & E)
       | [(cnt & sd & osel & _ & _ & _ & _ & E)
         | (cnt & sd & osel & _ & _ & _ & _ & E)]]];
    rewrite E; intros H; inversion H; subst.
  - exact I.
  - apply termOf_ok.
Qed.

Lemma parseNotation_ok notation parsed :
  parseNotation notation = inr parsed -> Forall parsedTermOk (terms parsed).
Proof.
  intros H. apply parseNotation_terms in H as [HF _].
  induction HF as [|p t ps ts Hp _ IH]; constructor.
  - now apply parsePart_ok in Hp.
  - exact IH.
Qed.

(** The parts are never an empty list: the run that starts with the
    plus sign put in front is always there. *)
Lemma splitSigns_cons c r : exists p ps, splitSigns (c :: r) = (c :: p) :: ps.
Proof.
  revert c. induction r as [|c' r IH]; intros c.
  - now exists [], [].
  - cbn [splitSigns]. destruct (startsWith isSign (c' :: r)).
    + now exists [], (splitSigns (c' :: r)).
    + destruct (IH c') as (p & ps & E). cbn [splitSigns] in E. rewrite E.
      now exists (c' :: p), ps.
Qed.

Lemma partsOfTokens_cons tokens :
  exists p ps, partsOfTokens tokens = p :: ps.
Proof.
  unfold partsOfTokens.
  assert (Hne : exists c r, ensurePlus (join tokens) = c :: r).
  { unfold ensurePlus. destruct (join tokens) as [|c r]; [now eexists; eexists|].
    destruct (Ascii.eqb c "+"); now eexists; eexists. }
  destruct Hne as (c & r & ->).
  destruct (splitSigns_cons c r) as (p & ps & ->). simpl.
  now eexists; eexists.
Qed.

Lemma parseNotation_terms_nonempty notation parsed :
  parseNotation notation = inr parsed -> terms parsed <> [].
Proof.
  intros H. apply parseNotation_terms in H as [HF _].
  destruct (partsOfTokens_cons (fst (fst (strippedOf notation))))
    as (p & ps & E).
  unfold partsOf in HF. rewrite E in HF. inversion HF. discriminate.
Qed.

Lemma stripFlags_only_flags rtokens adv dis :
  Forall (fun tok => isFlagWord tok = true) rtokens ->
  fst (fst (stripFlags rtokens adv dis)) = [].
Proof.
  intros H. revert adv dis.
  induction H as [|tok rest Htok _ IH]; intros adv dis; simpl; [reflexivity|].
  unfold isFlagWord in Htok.
  destruct (isAdv tok); [apply IH|].
  simpl in Htok. rewrite Htok. apply IH.
Qed.

(** ** The handler *)

Lemma takesAdvantagePath_qualifies parsed d :
  takesAdvantagePath parsed d = true <-> qualifies parsed d.
Proof.
  unfold takesAdvantagePath, qualifies.
  rewrite !andb_true_iff, orb_true_iff, !Z.eqb_eq.
  destruct (keep d), (drop d); simpl; intuition congruence.
Qed.

Section Handler.

Variable random : nat -> Q.

Lemma resolveTerm_modifier parsed m k :
  resolveTerm random parsed (Modifier m) k = inr ((m, ModifierDetail m), k).
Proof. reflexivity. Qed.

Lemma resolveTerm_d20 parsed d k :
  takesAdvantagePath parsed d = true ->
  let base := dieValue random 20 k in
  let a := dieValue random 20 (S k) in
  let b := dieValue random 20 (S (S k)) in
  resolveTerm random parsed (Dice d) k
  = inr (if advantage parsed
         then (Z.max a b, D20Detail base (Some (adv_text a b)) (Z.max a b))
         else (Z.min a b, D20Detail base (Some (dis_text a b)) (Z.min a b)),
         S (S (S k))).
Proof.
  intros H. cbn [resolveTerm]. rewrite H.
  unfold takesAdvantagePath in H. rewrite !andb_true_iff in H.
  destruct H as [[[_ Hflag] _] _].
  unfold applyAdvantage. cbn [Z.eqb negb orb Pos.eqb].
  destruct (advantage parsed), (disadvantage parsed);
    try discriminate; reflexivity.
Qed.

Lemma resolveTerm_general parsed d k :
  takesAdvantagePath parsed d = false ->
  let rs := draws random (sides d) k (Z.to_nat (count d)) in
  let us := selectPure d (map value rs) in
  let sub := sumZ (map (valueOf (map value rs)) us) in
  resolveTerm random parsed (Dice d) k
  = inr ((sub, DiceDetail (sides d) (count d) (keep d) (drop d)
                 (map value rs) us sub),
         (k + Z.to_nat (count d))%nat).
Proof.
  intros H rs us sub. cbn [resolveTerm]. rewrite H.
  rewrite (bind_inr _ _ _ _ _ (rollTerm_eq random d k)). reflexivity.
Qed.

(** Every iteration returns, with a record that fits its term. *)
Lemma resolveTerm_total parsed t k :
  exists c detail k',
    resolveTerm random parsed t k = inr ((c, detail), k')
    /\ c = contribution detail
    /\ subtotalIsSumOfUsed detail
    /\ detailFor parsed t detail.
Proof.
  destruct t as [d|m].
  - destruct (takesAdvantagePath parsed d) eqn:H.
    + rewrite (resolveTerm_d20 _ _ k H).
      destruct (advantage parsed); do 3 eexists;
        (split; [reflexivity|]); simpl; auto.
    + rewrite (resolveTerm_general _ _ k H).
      do 3 eexists. split; [reflexivity|]. simpl.
      split; [reflexivity|]. split; [|auto].
      split; [|reflexivity].
      rewrite Forall_forall. intros i Hi.
      now apply selectPure_bound in Hi.
  - do 3 eexists. split; [reflexivity|]. simpl. auto.
Qed.

Lemma resolveTerms_total parsed ts total details k :
  exists ds k',
    resolveTerms random parsed ts total details k
    = inr ((total + sumZ (map contribution ds), details ++ ds), k')
    /\ Forall subtotalIsSumOfUsed ds
    /\ Forall2 (detailFor parsed) ts ds.
Proof.
  revert total details k.
  induction ts as [|t ts IH]; intros total details k.
  - exists [], k. simpl. unfold ret. rewrite app_nil_r, Z.add_0_r.
    repeat split; constructor.
  - destruct (resolveTerm_total parsed t k)
      as (c & detail & k1 & E & -> & Hsub & Hfor).
    cbn [resolveTerms]. rewrite (bind_inr _ _ _ _ _ E). cbn [fst snd].
    destruct (IH (total + contribution detail) (details ++ [detail]) k1)
      as (ds & k' & E' & Hsubs & Hfors).
    exists (detail :: ds), k'. rewrite E'. simpl.
    rewrite <- app_assoc, Z.add_assoc. simpl.
    repeat split; constructor; assumption.
Qed.

End Handler.

(** ** The range of a die *)

Lemma dieValue_range random sides k :
  (0 <= random k)%Q -> (random k < 1)%Q -> 1 <= sides ->
  1 <= dieValue random sides k <= sides.
Proof.
  intros H0 H1 Hs. unfold dieValue.
  set (x := (random k * inject_Z sides)%Q).
  assert (Hx0 : (0 <= x)%Q).
  { apply Qmult_le_0_compat; [exact H0|].
    change 0%Q with (inject_Z 0). rewrite <- Zle_Qle. lia. }
  assert (Hx1 : (x < inject_Z sides)%Q).
  { unfold x. rewrite <- (Qmult_1_l (inject_Z sides)) at 2.
    apply Qmult_lt_compat_r; [|exact H1].
    change 0%Q with (inject_Z 0). rewrite <- Zlt_Qlt. lia. }
  pose proof (Qfloor_resp_le _ _ Hx0) as Hf0.
  change (Qfloor 0) with 0 in Hf0.
  pose proof (Qfloor_le x) as Hf1.
  assert (Hlt : (inject_Z (Qfloor x) < inject_Z sides)%Q)
    by (eapply Qle_lt_trans; eassumption).
  rewrite <- Zlt_Qlt in Hlt. lia.
Qed.

(** A die without sides always shows 1. *)
Lemma dieValue_no_sides random k : dieValue random 0 k = 1.
Proof.
  unfold dieValue.
  assert (E : (random k * inject_Z 0 == inject_Z 0)%Q) by ring.
  assert (Hle : Qfloor (random k * inject_Z 0) <= Qfloor (inject_Z 0))
    by (apply Qfloor_resp_le; rewrite E; apply Qle_refl).
  assert (Hge : Qfloor (inject_Z 0) <= Qfloor (random k * inject_Z 0))
    by (apply Qfloor_resp_le; rewrite E; apply Qle_refl).
  rewrite Qfloor_Z in Hle, Hge. lia.
Qed.

(** ** Worked examples *)

Example parse_1d20 :
  parseNotation (str "1d20")
  = inr {| terms := [Dice {| count := 1; sides := 20; keep := None;
                             drop := None |}];
           advantage := false; disadvantage := false |}.
Proof. reflexivity. Qed.

Example parse_spaces_and_case :
  parseNotation (str "  1D20 + 5   ADV ")
  = inr {| terms := [Dice {| count := 1; sides := 20; keep := None;
                             drop := None |}; Modifier 5];
           advantage := true; disadvantage := false |}.
Proof. reflexivity. Qed.

Example parse_2d20dl1_minus_2 :
  parseNotation (str "2d20dl1-2 disadvantage")
  = inr {| terms := [Dice {| count := 2; sides := 20; keep := None;
                             drop := Some (dl, 1) |}; Modifier (-2)];
           advantage := false; disadvantage := true |}.
Proof. reflexivity. Qed.

Example parse_1d : parseNotation (str "1d") = inl (InvalidDicePart (str "+1d")).
Proof. reflexivity. Qed.

Example parse_leading_minus :
  parseNotation (str "-1d6") = inl (InvalidDicePart (str "+")).
Proof. reflexivity. Qed.

Example parse_adv_dis :
  parseNotation (str "1d20 adv dis") = inl BothAdvantageAndDisadvantage.
Proof. reflexivity. Qed.

Example roll_plus_3 k :
  roll_dice sampleRandom (str "+3") k = inr ((3, [ModifierDetail 3]), k).
Proof. reflexivity. Qed.

Example roll_4d6kh3 :
  roll_dice sampleRandom (str "4d6kh3") 0%nat
  = inr ((11, [DiceDetail 6 4 (Some (kh, 3)) None [1; 3; 6; 2]
                 [2; 1; 3]%nat 11]), 4%nat).
Proof. reflexivity. Qed.

Example roll_2d20dl1 :
  roll_dice sampleRandom (str "2d20dl1") 0%nat
  = inr ((10, [DiceDetail 20 2 None (Some (dl, 1)) [3; 10] [1%nat] 10]),
         2%nat).
Proof. reflexivity. Qed.

Example roll_1d20_plus_5_adv :
  roll_dice sampleRandom (str "1d20+5 adv") 0%nat
  = inr ((23, [D20Detail 3 (Some (adv_text 10 18)) 18; ModifierDetail 5]),
         3%nat).
Proof. reflexivity. Qed.

(** * The claims of the specification *)

Lemma StronglySorted_app_inv {A} (R : A -> A -> Prop) l1 l2 :
  StronglySorted R (l1 ++ l2) ->
  forall x y, In x l1 -> In y l2 -> R x y.
Proof.
  induction l1 as [|a l1 IH]; intros H x y Hx Hy; [destruct Hx|].
  simpl in H. inversion H as [|? ? Hs Hall]; subst.
  destruct Hx as [<-|Hx].
  - rewrite Forall_forall in Hall. apply Hall, in_or_app. now right.
  - now apply IH.
Qed.

Lemma rollTerm_ranking random d k :
  exists res,
    rollTerm random d k = inr (res, (k + Z.to_nat (count d))%nat)
    /\ rolls res = draws random (sides d) k (Z.to_nat (count d))
    /\ length (rolls res) = Z.to_nat (count d)
    /\ used res = selectPure d (map value (rolls res))
    /\ subtotal res = sumZ (map (valueOf (map value (rolls res))) (used res))
    /\ forall k', sortedIdx (rolls res) (seq 0 (length (rolls res))) k'
                  = inr (rankingOf (map value (rolls res)), k').
Proof.
  eexists. split; [apply rollTerm_eq|]. cbn [rolls used subtotal].
  split; [reflexivity|]. split; [apply draws_length|].
  split; [reflexivity|]. split; [reflexivity|].
  intros k'. apply sortedIdx_eq.
Qed.

(** C2.  The ranking that [rollTerm] builds for keep and drop is a
    rearrangement of the draw positions in which every index comes before
    the indices of lower value and, among equal values, before the ones
    drawn later; it is the only such rearrangement, so the same draws
    always give the same ranking.  For the notation 4d6kh3 four dice are drawn, three
    indices are used, they are the first three of the ranking, and each
    of them ranks before the one left out. *)
Theorem ranking_is_stable_by_value_desc (random : nat -> Q) :
  (forall d k, exists res ranking k',
      rollTerm random d k = inr (res, k')
      /\ sortedIdx (rolls res) (seq 0 (length (rolls res))) k'
         = inr (ranking, k')
      /\ Permutation ranking (seq 0 (length (rolls res)))
      /\ StronglySorted (outranks (map value (rolls res))) ranking
      /\ (forall l, Permutation l (seq 0 (length (rolls res))) ->
                    StronglySorted (outranks (map value (rolls res))) l ->
                    l = ranking))
  /\ (forall k, exists t res ranking k',
        parseNotation (str "4d6kh3")
        = inr {| terms := [Dice t]; advantage := false;
                 disadvantage := false |}
        /\ rollTerm random t k = inr (res, k')
        /\ sortedIdx (rolls res) (seq 0 (length (rolls res))) k'
           = inr (ranking, k')
        /\ length (rolls res) = 4%nat
        /\ used res = firstn 3 ranking
        /\ length (used res) = 3%nat
        /\ forall i j, In i (used res) -> (j < 4)%nat -> ~ In j (used res) ->
                       outranks (map value (rolls res)) i j).
Proof.
  split.
  - intros d k.
    destruct (rollTerm_ranking random d k) as (res & E & _ & _ & _ & _ & Hr).
    exists res, (rankingOf (map value (rolls res))), (k + Z.to_nat (count d))%nat.
    split; [exact E|]. split; [apply Hr|].
    split; [|split].
    + rewrite <- (length_map value (rolls res)). apply rankingOf_perm.
    + apply rankingOf_sorted.
    + intros l Hl. apply rankingOf_unique. now rewrite length_map.
  - intros k.
    set (t := {| count := 4; sides := 6; keep := Some (kh, 3); drop := None |}).
    destruct (rollTerm_ranking random t k)
      as (res & E & _ & Hlen & Hused & _ & Hr).
    exists t, res, (rankingOf (map value (rolls res))), (k + Z.to_nat (count t))%nat.
    split; [reflexivity|]. split; [exact E|]. split; [apply Hr|].
    change (Z.to_nat (count t)) with 4%nat in Hlen.
    split; [exact Hlen|].
    assert (Hu : used res = firstn 3 (rankingOf (map value (rolls res)))).
    { rewrite Hused. unfold selectPure. cbn [keep drop t].
      now rewrite slice_top by lia. }
    assert (Hrl : length (rankingOf (map value (rolls res))) = 4%nat)
      by now rewrite rankingOf_length, length_map.
    split; [exact Hu|].
    split; [rewrite Hu, length_firstn, Hrl; reflexivity|].
    intros i j Hi Hj Hnj. rewrite Hu in Hi, Hnj.
    apply (StronglySorted_app_inv _ (firstn 3 (rankingOf (map value (rolls res))))
             (skipn 3 (rankingOf (map value (rolls res))))).
    + rewrite firstn_skipn. apply rankingOf_sorted.
    + exact Hi.
    + assert (Hin : In j (rankingOf (map value (rolls res))))
        by (apply rankingOf_In; rewrite length_map; lia).
      rewrite <- (firstn_skipn 3 (rankingOf (map value (rolls res)))) in Hin.
      apply in_app_or in Hin as [Hin|Hin]; [contradiction | exact Hin].
Qed.

Lemma ranking_is_stable_by_value_desc_witness :
  In 3%nat [2%nat; 1%nat; 3%nat] /\ (0 < 4)%nat /\ ~ In 0%nat [2%nat; 1%nat; 3%nat]
  /\ outranks [1; 3; 6; 2] 3 0.
Proof.
  assert (Hin : In 3%nat [2%nat; 1%nat; 3%nat]) by (simpl; tauto).
  assert (Hlt : (0 < 4)%nat) by lia.
  assert (Hout : ~ In 0%nat [2%nat; 1%nat; 3%nat])
    by (simpl; intros [H|[H|[H|H]]]; (discriminate || exact H)).
  repeat split; try assumption.
  destruct (proj2 (ranking_is_stable_by_value_desc sampleRandom) 0%nat)
    as (t & res & ranking & k' & Hp & Hr & _ & _ & _ & _ & H).
  vm_compute in Hp. injection Hp as <-.
  vm_compute in Hr. injection Hr as <- <-.
  exact (H 3%nat 0%nat Hin Hlt Hout).
Defined.

(** ** The selection, rule by rule *)

Lemma map_valueOf_seq vals : map (valueOf vals) (seq 0 (length vals)) = vals.
Proof.
  induction vals as [|v vals IH]; [reflexivity|].
  cbn [length seq map]. rewrite <- seq_shift, map_map.
  unfold valueOf at 1. cbn [nth]. f_equal. exact IH.
Qed.

Lemma sumZ_perm l l' : Permutation l l' -> sumZ l = sumZ l'.
Proof.
  induction 1; simpl; lia.
Qed.

Lemma bottom_NoDup vals n : NoDup (bottom n (rankingOf vals)).
Proof. apply NoDup_skipn, rankingOf_NoDup. Qed.

Lemma bottom_bound vals n i :
  In i (bottom n (rankingOf vals)) -> (i < length vals)%nat.
Proof. intros H. apply In_skipn in H. now apply rankingOf_In. Qed.

Lemma selectPure_kh d vals n :
  keep d = Some (kh, n) -> drop d = None -> 0 <= n ->
  selectPure d vals = top n (rankingOf vals).
Proof.
  intros Hk Hd Hn. unfold selectPure. rewrite Hk, Hd.
  now apply slice_top.
Qed.

Lemma selectPure_kl d vals n :
  keep d = Some (kl, n) -> drop d = None -> 1 <= n ->
  selectPure d vals = inDrawOrder (length vals) (bottom n (rankingOf vals)).
Proof.
  intros Hk Hd Hn. unfold selectPure. rewrite Hk, Hd.
  rewrite slice_bottom by exact Hn. fold (bottom n (rankingOf vals)).
  apply sort_ascending_inDrawOrder;
    [apply bottom_NoDup | apply bottom_bound].
Qed.

Lemma selectPure_dh d vals n :
  keep d = None -> drop d = Some (dh, n) -> 0 <= n ->
  selectPure d vals = allExcept (length vals) (top n (rankingOf vals)).
Proof.
  intros Hk Hd Hn. unfold selectPure. rewrite Hk, Hd.
  now rewrite slice_top by exact Hn.
Qed.

Lemma selectPure_dl d vals n :
  keep d = None -> drop d = Some (dl, n) -> 1 <= n ->
  selectPure d vals = allExcept (length vals) (bottom n (rankingOf vals)).
Proof.
  intros Hk Hd Hn. unfold selectPure. rewrite Hk, Hd.
  now rewrite slice_bottom by exact Hn.
Qed.

Lemma selectPure_none d vals :
  keep d = None -> drop d = None -> selectPure d vals = seq 0 (length vals).
Proof. intros Hk Hd. unfold selectPure. now rewrite Hk, Hd. Qed.

Lemma selectPure_selected d vals :
  parsedTermOk (Dice d) ->
  selectPure d vals = selectedIndices d (length vals) (rankingOf vals).
Proof.
  intros (_ & _ & Hex & Hkp & Hdp). unfold selectedIndices.
  destruct (keep d) as [[[|] n]|] eqn:Hk.
  - destruct Hex as [?|Hd]; [discriminate|].
    specialize (Hkp _ _ eq_refl). apply selectPure_kh; [assumption..|lia].
  - destruct Hex as [?|Hd]; [discriminate|].
    specialize (Hkp _ _ eq_refl). now apply selectPure_kl.
  - destruct (drop d) as [[[|] n]|] eqn:Hd.
    + specialize (Hdp _ _ eq_refl). apply selectPure_dh; [assumption..|lia].
    + specialize (Hdp _ _ eq_refl). now apply selectPure_dl.
    + now apply selectPure_none.
Qed.

Lemma parsed_dice_ok notation parsed d :
  parseNotation notation = inr parsed -> In (Dice d) (terms parsed) ->
  parsedTermOk (Dice d).
Proof.
  intros Hp Hin. apply parseNotation_ok in Hp.
  rewrite Forall_forall in Hp. now apply Hp.
Qed.

(** C1.  For a dice term of a parsed notation that is resolved on the
    general path, the used indices recorded in its detail are: with
    kh n the first n indices of the ranking, in ranking order; with kl n
    the last n indices of the ranking, listed in draw order; with dh n
    (dl n) all indices but the first (last) n of the ranking, in draw
    order; without selector all indices in draw order. *)
Theorem used_indices_follow_selector (random : nat -> Q)
    (notation : JsString.t) (parsed : ParsedExpression) (d : DiceTerm)
    (k : nat) :
  parseNotation notation = inr parsed ->
  In (Dice d) (terms parsed) ->
  takesAdvantagePath parsed d = false ->
  exists res ranking k',
    rollTerm random d k = inr (res, k')
    /\ resolveTerm random parsed (Dice d) k
       = inr ((subtotal res,
               DiceDetail (sides d) (count d) (keep d) (drop d)
                 (map value (rolls res)) (used res) (subtotal res)), k')
    /\ sortedIdx (rolls res) (seq 0 (length (rolls res))) k'
       = inr (ranking, k')
    /\ (forall n, keep d = Some (kh, n) -> used res = top n ranking)
    /\ (forall n, keep d = Some (kl, n) ->
          used res = inDrawOrder (length (rolls res)) (bottom n ranking))
    /\ (forall n, drop d = Some (dh, n) ->
          used res = allExcept (length (rolls res)) (top n ranking))
    /\ (forall n, drop d = Some (dl, n) ->
          used res = allExcept (length (rolls res)) (bottom n ranking))
    /\ (keep d = None -> drop d = None ->
          used res = seq 0 (length (rolls res))).
Proof.
  intros Hp Hin Hgen.
  pose proof (parsed_dice_ok _ _ _ Hp Hin) as Hok.
  destruct (rollTerm_ranking random d k) as (res & E & Hrs & _ & Hu & Hs & Hr).
  exists res, (rankingOf (map value (rolls res))), (k + Z.to_nat (count d))%nat.
  split; [exact E|].
  split.
  { rewrite (resolveTerm_general random _ _ k Hgen).
    rewrite Hs, Hu, Hrs. reflexivity. }
  split; [apply Hr|].
  rewrite Hu, (selectPure_selected _ _ Hok), length_map.
  destruct Hok as (_ & _ & Hex & _ & _). unfold selectedIndices.
  repeat split.
  - intros n Hk. now rewrite Hk.
  - intros n Hk. now rewrite Hk.
  - intros n Hd. destruct Hex as [Hk|Hk]; [|congruence].
    now rewrite Hk, Hd.
  - intros n Hd. destruct Hex as [Hk|Hk]; [|congruence].
    now rewrite Hk, Hd.
  - intros Hk Hd. now rewrite Hk, Hd.
Qed.

Lemma used_indices_follow_selector_witness :
  exists res,
    rollTerm sampleRandom
      {| count := 4; sides := 6; keep := Some (kl, 3); drop := None |} 0%nat
    = inr (res, 4%nat)
    /\ map value (rolls res) = [1; 3; 6; 2]
    /\ used res = inDrawOrder 4 (bottom 3 [2; 1; 3; 0]%nat)
    /\ used res = [0; 1; 3]%nat.
Proof.
  set (d := {| count := 4; sides := 6; keep := Some (kl, 3); drop := None |}).
  assert (Hp : parseNotation (str "4d6kl3")
               = inr {| terms := [Dice d]; advantage := false;
                        disadvantage := false |}) by reflexivity.
  assert (Hin : In (Dice d) [Dice d]) by (left; reflexivity).
  destruct (used_indices_follow_selector sampleRandom _ _ d 0%nat Hp Hin
              eq_refl)
    as (res & ranking & k' & Hr & _ & Hs & _ & Hkl & _).
  specialize (Hkl 3 eq_refl).
  exists res.
  vm_compute in Hr. injection Hr as <- <-.
  vm_compute in Hs. injection Hs as <-.
  split; [reflexivity|]. split; [reflexivity|].
  split; [exact Hkl | reflexivity].
Defined.

(** ** Selectors that ask for more dice than were drawn *)

Lemma top_all n (l : list nat) :
  Z.of_nat (length l) <= n -> top n l = l.
Proof. intros H. unfold top. apply firstn_all2. lia. Qed.

Lemma bottom_all n (l : list nat) :
  Z.of_nat (length l) <= n -> bottom n l = l.
Proof.
  intros H. unfold bottom.
  replace (length l - Z.to_nat n)%nat with 0%nat by lia. reflexivity.
Qed.

Lemma slice_nil {A} a b : slice (@nil A) a b = [].
Proof. unfold slice. now rewrite skipn_nil, firstn_nil. Qed.

Lemma selectPure_nil d : selectPure d [] = [].
Proof.
  unfold selectPure. change (rankingOf []) with (@nil nat).
  destruct (keep d) as [[[|] n]|], (drop d) as [[kind m]|];
    rewrite ?slice_nil; reflexivity.
Qed.

Lemma allExcept_all count l :
  (forall i, (i < count)%nat -> In i l) -> allExcept count l = [].
Proof.
  intros H. unfold allExcept.
  assert (G : forall s, (forall i, In i s -> (i < count)%nat) ->
                        filter (fun i => negb (member i l)) s = []).
  { induction s as [|x s IH]; intros Hs; [reflexivity|]. simpl.
    rewrite (proj2 (member_In x l) (H x (Hs x (or_introl eq_refl)))).
    simpl. apply IH. intros i Hi. apply Hs. now right. }
  apply G. intros i Hi. apply in_seq in Hi. lia.
Qed.

Lemma filter_dropped_all (l toDrop : list nat) :
  (forall i, In i l -> In i toDrop) ->
  filter (fun i => negb (setHas toDrop i)) l = [].
Proof.
  induction l as [|x l IH]; intros H; [reflexivity|]. simpl.
  change (setHas toDrop x) with (member x toDrop).
  rewrite (proj2 (member_In x toDrop) (H x (or_introl eq_refl))). simpl.
  apply IH. intros i Hi. apply H. now right.
Qed.

Lemma inDrawOrder_all count l :
  (forall i, (i < count)%nat -> In i l) -> inDrawOrder count l = seq 0 count.
Proof.
  intros H. unfold inDrawOrder.
  assert (G : forall s, (forall i, In i s -> (i < count)%nat) ->
                        filter (fun i => member i l) s = s).
  { induction s as [|x s IH]; intros Hs; [reflexivity|]. simpl.
    rewrite (proj2 (member_In x l) (H x (Hs x (or_introl eq_refl)))).
    f_equal. apply IH. intros i Hi. apply Hs. now right. }
  apply G. intros i Hi. apply in_seq in Hi. lia.
Qed.

Lemma selectPure_keep_all d vals kind n :
  keep d = Some (kind, n) -> drop d = None ->
  (vals <> [] -> Z.of_nat (length vals) <= n) ->
  Permutation (selectPure d vals) (seq 0 (length vals)).
Proof.
  intros Hk Hd Hn.
  destruct vals as [|v vals]; [now rewrite selectPure_nil|].
  specialize (Hn ltac:(discriminate)).
  assert (1 <= n) by (cbn [length] in Hn; lia).
  assert (Hlen : Z.of_nat (length (rankingOf (v :: vals))) <= n)
    by now rewrite rankingOf_length.
  destruct kind.
  - rewrite (selectPure_kh _ _ _ Hk Hd) by lia.
    rewrite top_all by exact Hlen. apply rankingOf_perm.
  - rewrite (selectPure_kl _ _ _ Hk Hd) by lia.
    rewrite bottom_all by exact Hlen.
    rewrite inDrawOrder_all; [reflexivity|].
    intros i Hi. now apply rankingOf_In.
Qed.

Lemma selectPure_drop_all d vals kind n :
  drop d = Some (kind, n) ->
  (vals <> [] -> Z.of_nat (length vals) <= n) ->
  selectPure d vals = [].
Proof.
  intros Hd Hn.
  destruct vals as [|v vals]; [apply selectPure_nil|].
  specialize (Hn ltac:(discriminate)).
  assert (1 <= n) by (cbn [length] in Hn; lia).
  assert (Hlen : Z.of_nat (length (rankingOf (v :: vals))) <= n)
    by now rewrite rankingOf_length.
  pose proof (selectPure_bound d (v :: vals)) as Hb.
  unfold selectPure in *. rewrite Hd in *.
  apply filter_dropped_all. intros i Hi.
  assert (Hin : In i (rankingOf (v :: vals))).
  { apply rankingOf_In.
    destruct (keep d) as [[[|] m]|].
    - apply slice_incl in Hi. now apply rankingOf_In in Hi.
    - apply (proj1 (sortPure_In _ _ _)), slice_incl in Hi.
      now apply rankingOf_In in Hi.
    - apply in_seq in Hi. lia. }
  destruct kind.
  - rewrite slice_top by lia.
    fold (top n (rankingOf (v :: vals))). now rewrite top_all.
  - rewrite slice_bottom by lia.
    fold (bottom n (rankingOf (v :: vals))). now rewrite bottom_all.
Qed.

(** A selector with n = 0 never comes out of the parser.  Given to
    [rollTerm] all the same, [slice(-0)] is the whole ranking: kl 0 keeps
    every die and dl 0 drops every die. *)
Lemma slice_minus_zero {A} (l : list A) : slice l (- 0) None = l.
Proof.
  unfold slice. rewrite relativeIndex_nonneg by lia.
  change (Z.to_nat (- 0)) with 0%nat. cbn [Nat.min skipn].
  rewrite Nat.sub_0_r. apply firstn_all.
Qed.

Lemma selectPure_kl_zero d vals :
  keep d = Some (kl, 0) -> drop d = None ->
  selectPure d vals = seq 0 (length vals).
Proof.
  intros Hk Hd. unfold selectPure. rewrite Hk, Hd, slice_minus_zero.
  rewrite (sort_ascending_inDrawOrder (length vals));
    [|apply rankingOf_NoDup | intros i; apply rankingOf_In].
  apply inDrawOrder_all. intros i. apply rankingOf_In.
Qed.

Lemma selectPure_dl_zero d vals :
  keep d = None -> drop d = Some (dl, 0) -> selectPure d vals = [].
Proof.
  intros Hk Hd. unfold selectPure. rewrite Hk, Hd, slice_minus_zero.
  apply filter_dropped_all. intros i Hi. apply rankingOf_In.
  apply in_seq in Hi. lia.
Qed.

(** ** The advantage and disadvantage special case *)

(** C3.  A dice term takes the special case exactly when its count is 1,
    its sides are 20, it has neither keep nor drop, and the expression
    carries the advantage or the disadvantage flag.  Then three d20 are
    drawn: the first is recorded as the base and does not enter the
    contribution; the contribution is the larger of the other two under
    advantage and the smaller under disadvantage.  Any other dice term is
    resolved by [rollTerm]; for the notation "1d6 adv" that is one draw
    of a d6, which is the total. *)
Theorem advantage_path_iff_qualifies (random : nat -> Q)
    (parsed : ParsedExpression) (d : DiceTerm) (k : nat) :
  ((exists c base txt final k',
       resolveTerm random parsed (Dice d) k
       = inr ((c, D20Detail base txt final), k'))
   <-> qualifies parsed d)
  /\ (qualifies parsed d ->
      let base := dieValue random 20 k in
      let a := dieValue random 20 (S k) in
      let b := dieValue random 20 (S (S k)) in
      exists final txt,
        resolveTerm random parsed (Dice d) k
        = inr ((final, D20Detail base (Some txt) final), S (S (S k)))
        /\ (advantage parsed = true ->
            final = Z.max a b /\ txt = adv_text a b)
        /\ (disadvantage parsed = true -> advantage parsed = false ->
            final = Z.min a b /\ txt = dis_text a b))
  /\ (~ qualifies parsed d ->
      exists res k',
        rollTerm random d k = inr (res, k')
        /\ resolveTerm random parsed (Dice d) k
           = inr ((subtotal res,
                   DiceDetail (sides d) (count d) (keep d) (drop d)
                     (map value (rolls res)) (used res) (subtotal res)), k'))
  /\ (let t := {| count := 1; sides := 6; keep := None; drop := None |} in
      let v := dieValue random 6 k in
      parseNotation (str "1d6 adv")
      = inr {| terms := [Dice t]; advantage := true; disadvantage := false |}
      /\ roll_dice random (str "1d6 adv") k
         = inr ((v, [DiceDetail 6 1 None None [v] [0%nat] v]), S k)).
Proof.
  assert (Hgen : takesAdvantagePath parsed d = false ->
                 exists res k',
                   rollTerm random d k = inr (res, k')
                   /\ resolveTerm random parsed (Dice d) k
                      = inr ((subtotal res,
                              DiceDetail (sides d) (count d) (keep d) (drop d)
                                (map value (rolls res)) (used res)
                                (subtotal res)), k')).
  { intros H. eexists. eexists. split; [apply rollTerm_eq|].
    now rewrite (resolveTerm_general random _ _ k H). }
  split; [split|split; [|split]].
  - intros (c & base & txt & final & k' & E).
    apply takesAdvantagePath_qualifies.
    destruct (takesAdvantagePath parsed d) eqn:H; [reflexivity|].
    destruct (Hgen eq_refl) as (res & k2 & _ & E'). congruence.
  - intros H. apply takesAdvantagePath_qualifies in H.
    rewrite (resolveTerm_d20 random _ _ k H).
    destruct (advantage parsed); now do 5 eexists.
  - intros H. pose proof H as (_ & _ & _ & _ & Hflag).
    apply takesAdvantagePath_qualifies in H.
    rewrite (resolveTerm_d20 random _ _ k H).
    destruct (advantage parsed) eqn:Ha.
    + do 2 eexists. split; [reflexivity|]. split; [now intros _|].
      intros _ Hf. discriminate.
    + do 2 eexists. split; [reflexivity|]. split; [intros Hf; discriminate|].
      now intros _ _.
  - intros H. apply Hgen.
    destruct (takesAdvantagePath parsed d) eqn:Ht; [|reflexivity].
    exfalso. now apply H, takesAdvantagePath_qualifies.
  - assert (Hp : parseNotation (str "1d6 adv")
                 = inr {| terms := [Dice {| count := 1; sides := 6;
                                            keep := None; drop := None |}];
                          advantage := true; disadvantage := false |})
      by reflexivity.
    split; [exact Hp|].
    unfold roll_dice. rewrite Hp. unfold resolve. cbn [terms resolveTerms].
    set (parsed1 := {| terms := _; advantage := true; disadvantage := false |}).
    set (t := {| count := 1; sides := 6; keep := None; drop := None |}).
    rewrite (bind_inr _ _ _ _ _
               (resolveTerm_general random parsed1 t k eq_refl)).
    change (Z.to_nat (count t)) with 1%nat.
    change (draws random (sides t) k 1)
      with [{| value := dieValue random 6 k |}].
    cbn [map value]. unfold ret.
    change (selectPure t [dieValue random 6 k]) with [0%nat].
    cbn [map sumZ fold_right valueOf nth fst snd app sides count keep drop t].
    rewrite Z.add_0_r, Nat.add_1_r. reflexivity.
Qed.

Lemma advantage_path_iff_qualifies_witness :
  qualifies
    {| terms := [Dice {| count := 1; sides := 20; keep := None;
                         drop := None |}; Modifier 5];
       advantage := true; disadvantage := false |}
    {| count := 1; sides := 20; keep := None; drop := None |}
  /\ resolveTerm sampleRandom
       {| terms := [Dice {| count := 1; sides := 20; keep := None;
                            drop := None |}; Modifier 5];
          advantage := true; disadvantage := false |}
       (Dice {| count := 1; sides := 20; keep := None; drop := None |}) 0%nat
     = inr ((18, D20Detail 3 (Some (adv_text 10 18)) 18), 3%nat).
Proof.
  set (d := {| count := 1; sides := 20; keep := None; drop := None |}).
  set (parsed := {| terms := [Dice d; Modifier 5]; advantage := true;
                    disadvantage := false |}).
  assert (Hq : qualifies parsed d).
  { unfold qualifies. simpl. repeat split; try reflexivity. now left. }
  split; [exact Hq|].
  destruct (advantage_path_iff_qualifies sampleRandom parsed d 0%nat)
    as (_ & Hadv & _).
  destruct (Hadv Hq) as (final & txt & E & Hmax & _).
  destruct (Hmax eq_refl) as [-> ->]. exact E.
Defined.

(** ** What the parser builds *)

(** C6, as the code has it.  Every dice term of a parsed notation has a
    count of at least 1 and at most one of keep and drop; its sides are
    not negative, and can be 0. *)
Theorem parsed_terms_invariant (notation : JsString.t)
    (parsed : ParsedExpression) (d : DiceTerm) :
  parseNotation notation = inr parsed ->
  In (Dice d) (terms parsed) ->
  1 <= count d /\ 0 <= sides d /\ (keep d = None \/ drop d = None).
Proof.
  intros Hp Hin.
  destruct (parsed_dice_ok _ _ _ Hp Hin) as (Hc & Hs & Hex & _).
  now repeat split.
Qed.

Lemma parsed_terms_invariant_witness :
  1 <= 4 /\ 0 <= 6
  /\ (Some (kh, 3) = @None (KeepKind * Z) \/ @None (DropKind * Z) = None).
Proof.
  set (d := {| count := 4; sides := 6; keep := Some (kh, 3); drop := None |}).
  assert (Hp : parseNotation (str "4d6kh3")
               = inr {| terms := [Dice d]; advantage := false;
                        disadvantage := false |}) by reflexivity.
  exact (parsed_terms_invariant _ _ d Hp (or_introl eq_refl)).
Defined.

(** Against C6 as stated: the notation 1d0 parses, to a dice term whose
    sides are 0. *)
Lemma parsed_sides_can_be_zero :
  exists parsed d,
    parseNotation (str "1d0") = inr parsed
    /\ In (Dice d) (terms parsed)
    /\ ~ (1 <= count d /\ 1 <= sides d /\ (keep d = None \/ drop d = None)).
Proof.
  exists {| terms := [Dice {| count := 1; sides := 0; keep := None;
                              drop := None |}];
            advantage := false; disadvantage := false |},
         {| count := 1; sides := 0; keep := None; drop := None |}.
  split; [reflexivity|]. split; [now left|].
  simpl. lia.
Qed.

(** ** Syntax errors *)

Lemma diceRun_diceForm sg cnt sd osel :
  isSign sg = true -> allDigits cnt -> digits1 sd -> selectorOk osel ->
  diceForm (diceRun sg cnt sd osel).
Proof.
  intros Hs Hc Hd Ho. apply diceForm_diceRun.
  exists sg, cnt, sd, osel. now repeat split; try apply Hd.
Qed.

Lemma parsePart_inl part e :
  parsePart part = inl e ->
  (~ diceForm part /\ ~ modForm part /\ e = InvalidDicePart part)
  \/ (diceForm part /\ startsWithMinus part = true
      /\ e = NegativeDicePools part).
Proof.
  destruct (parsePart_cases part)
    as [(Hnd & Hnm & E) | [(sg & ds & _ & _ & _ & E)
       | [(cnt & sd & osel & -> & Hc & Hd & Ho & E)
         | (cnt & sd & osel & _ & _ & _ & _ & E)]]];
    rewrite E; intros H; inversion H; subst.
  - now left.
  - right. split; [now apply diceRun_diceForm|]. now split.
Qed.

Lemma parsePart_invalid part :
  ~ diceForm part -> ~ modForm part ->
  parsePart part = inl (InvalidDicePart part).
Proof.
  intros Hnd Hnm.
  destruct (parsePart_cases part)
    as [(_ & _ & E) | [(sg & ds & -> & Hs & Hd & _)
       | [(cnt & sd & osel & -> & Hc & Hd & Ho & _)
         | (cnt & sd & osel & -> & Hc & Hd & Ho & _)]]].
  - exact E.
  - exfalso. apply Hnm. now exists sg, ds.
  - exfalso. apply Hnd. now apply diceRun_diceForm.
  - exfalso. apply Hnd. now apply diceRun_diceForm.
Qed.

Lemma parsePart_negative part :
  diceForm part -> startsWithMinus part = true ->
  parsePart part = inl (NegativeDicePools part).
Proof.
  intros Hd Hm.
  destruct (parsePart_cases part)
    as [(Hnd & _) | [(sg & ds & -> & Hs & Hds & _)
       | [(cnt & sd & osel & _ & _ & _ & _ & E)
         | (cnt & sd & osel & -> & _)]]].
  - contradiction.
  - exfalso. apply (modForm_not_diceForm (sg :: ds)); [|exact Hd].
    now exists sg, ds.
  - exact E.
  - discriminate.
Qed.

(** In terms of the runs and flags the parser itself computes:
    [parseNotation] throws exactly when some run has neither form, or
    some dice run starts with a minus sign, or both flags were seen, and
    it throws the error of that case. *)
Lemma parseNotation_fails_iff (notation : JsString.t) :
  ((exists e, parseNotation notation = inl e)
   <-> (exists part, In part (partsOf notation)
                     /\ ~ diceForm part /\ ~ modForm part)
       \/ (exists part, In part (partsOf notation)
                        /\ diceForm part /\ startsWithMinus part = true)
       \/ (advSeen notation = true /\ disSeen notation = true))
  /\ (forall e, parseNotation notation = inl e ->
        (exists part, In part (partsOf notation)
                      /\ ~ diceForm part /\ ~ modForm part
                      /\ e = InvalidDicePart part)
        \/ (exists part, In part (partsOf notation)
                         /\ diceForm part /\ startsWithMinus part = true
                         /\ e = NegativeDicePools part)
        \/ (advSeen notation = true /\ disSeen notation = true
            /\ e = BothAdvantageAndDisadvantage)).
Proof.
  assert (Hsound : forall e, parseNotation notation = inl e ->
        (exists part, In part (partsOf notation)
                      /\ ~ diceForm part /\ ~ modForm part
                      /\ e = InvalidDicePart part)
        \/ (exists part, In part (partsOf notation)
                         /\ diceForm part /\ startsWithMinus part = true
                         /\ e = NegativeDicePools part)
        \/ (advSeen notation = true /\ disSeen notation = true
            /\ e = BothAdvantageAndDisadvantage)).
  { intros e. rewrite parseNotation_eq.
    destruct (parseParts (partsOf notation) []) as [e'|ts] eqn:E.
    - intros H. inversion H; subst.
      apply parseParts_err in E as (part & Hin & Ep).
      apply parsePart_inl in Ep as [(Hnd & Hnm & ->) | (Hd & Hm & ->)].
      + left. now exists part.
      + right; left. now exists part.
    - destruct (advSeen notation && disSeen notation) eqn:Hf; [|discriminate].
      intros H. inversion H; subst.
      apply andb_true_iff in Hf. right; right. tauto. }
  split; [split|exact Hsound].
  - intros [e He].
    destruct (Hsound e He)
      as [(part & Hin & Hnd & Hnm & _)
         | [(part & Hin & Hd & Hm & _) | (Ha & Hd & _)]].
    + left. now exists part.
    + right; left. now exists part.
    + right; right. now split.
  - rewrite parseNotation_eq.
    intros [(part & Hin & Hnd & Hnm)
           | [(part & Hin & Hd & Hm) | (Ha & Hd)]].
    + destruct (parseParts_fails _ [] _ _ Hin (parsePart_invalid _ Hnd Hnm))
        as [e' ->].
      now exists e'.
    + destruct (parseParts_fails _ [] _ _ Hin (parsePart_negative _ Hd Hm))
        as [e' ->].
      now exists e'.
    + destruct (parseParts (partsOf notation) []) as [e'|ts];
        [now exists e'|].
      rewrite Ha, Hd. now eexists.
Qed.

(** C9.  A notation that is empty once trimmed, or whose tokens are all
    advantage or disadvantage words, does not parse to an empty list of
    terms: the parser throws the invalid-part error on the lone plus
    sign it is left with. *)
Theorem only_flags_is_rejected (notation : JsString.t) :
  Forall (fun tok => isFlagWord tok = true) (tokensOf notation)
  \/ trim notation = [] ->
  parseNotation notation = inl (InvalidDicePart (str "+")).
Proof.
  intros [Hflags | Hempty].
  - rewrite parseNotation_eq. unfold partsOf, strippedOf.
    rewrite stripFlags_only_flags; [reflexivity|].
    apply Forall_rev. exact Hflags.
  - unfold parseNotation, tokensOf. rewrite Hempty. reflexivity.
Qed.

Lemma only_flags_is_rejected_witness :
  parseNotation (str "adv  Disadvantage ") = inl (InvalidDicePart (str "+")).
Proof.
  apply only_flags_is_rejected. left.
  repeat constructor.
Defined.

(** C8, as the code has it.  For a dice run with a selector and its
    digits n: when n is not zero, kh and kl fill keep with that kind and
    n and leave drop empty, dh and dl fill drop with that kind and n and
    leave keep empty; when n is zero neither is filled. *)
Theorem selector_populates_keep_or_drop (cnt sd sel n : JsString.t) :
  allDigits cnt -> digits1 sd -> isSelector sel = true -> digits1 n ->
  exists d,
    parsePart (diceRun "+" cnt sd (Some (sel, n))) = inr (Dice d)
    /\ (parseInt n <> 0 ->
        (sel = str "kh" -> keep d = Some (kh, parseInt n) /\ drop d = None)
        /\ (sel = str "kl" -> keep d = Some (kl, parseInt n) /\ drop d = None)
        /\ (sel = str "dh" -> drop d = Some (dh, parseInt n) /\ keep d = None)
        /\ (sel = str "dl" -> drop d = Some (dl, parseInt n) /\ keep d = None))
    /\ (parseInt n = 0 -> keep d = None /\ drop d = None).
Proof.
  intros Hc Hd Hsel Hn.
  exists (termOf cnt sd (Some (sel, n))).
  split; [now apply parsePart_dice_plus|].
  unfold termOf, keepOf, dropOf. cbn [keep drop].
  destruct (Z.eqb_spec (parseInt n) 0) as [E|E].
  - split; [intros H; contradiction | now intros _].
  - split; [intros _ | intros H; contradiction].
    split; [|split; [|split]]; intros ->; split; reflexivity.
Qed.

Lemma selector_populates_keep_or_drop_witness :
  exists d,
    parsePart (str "+2d20dl1") = inr (Dice d)
    /\ drop d = Some (dl, 1) /\ keep d = None.
Proof.
  destruct (selector_populates_keep_or_drop (str "2") (str "20") (str "dl")
              (str "1"))
    as (d & E & Hnz & _);
    [reflexivity | split; [reflexivity | discriminate] | reflexivity
    | split; [reflexivity | discriminate] |].
  exists d. split; [exact E|].
  assert (H1 : parseInt (str "1") <> 0) by (vm_compute; discriminate).
  destruct (Hnz H1) as (_ & _ & _ & Hdl).
  exact (Hdl eq_refl).
Defined.

(** Against C8 as stated: the notation 4d6kh0 parses, to a term whose
    keep is not filled. *)
Lemma selector_zero_is_dropped :
  exists d,
    parseNotation (str "4d6kh0")
    = inr {| terms := [Dice d]; advantage := false; disadvantage := false |}
    /\ parsePart (diceRun "+" (str "4") (str "6") (Some (str "kh", str "0")))
       = inr (Dice d)
    /\ keep d <> Some (kh, 0).
Proof.
  exists {| count := 4; sides := 6; keep := None; drop := None |}.
  split; [reflexivity|]. split; [reflexivity|]. discriminate.
Qed.

(** * Further properties of the code *)

Lemma sampleRandom_ok : randomOk sampleRandom.
Proof.
  intros k. unfold sampleRandom, Qle, Qlt. cbn [Qnum Qden].
  pose proof (Nat.mod_upper_bound (k * 37 + 11) 100 ltac:(discriminate)).
  split; lia.
Qed.

(** ** The dice that are drawn *)

(** X1.  A die of at least one side shows one of its sides, and drawing it
    consumes exactly one random value. *)
Theorem rollOnce_in_range (random : nat -> Q) (sides : Z) (k : nat) :
  (0 <= random k)%Q -> (random k < 1)%Q -> 1 <= sides ->
  exists v, rollOnce random sides k = inr (v, S k) /\ 1 <= v <= sides.
Proof.
  intros H0 H1 Hs. exists (dieValue random sides k).
  split; [reflexivity | now apply dieValue_range].
Qed.

Lemma rollOnce_in_range_witness :
  exists v, rollOnce sampleRandom 20 2%nat = inr (v, 3%nat) /\ 1 <= v <= 20.
Proof.
  apply rollOnce_in_range.
  - apply sampleRandom_ok.
  - apply sampleRandom_ok.
  - lia.
Defined.

Lemma draws_Forall random sd k n (P : Z -> Prop) :
  (forall i, P (dieValue random sd i)) ->
  Forall (fun r => P (value r)) (draws random sd k n).
Proof.
  intros H. unfold draws. rewrite Forall_forall. intros r Hr.
  apply in_map_iff in Hr as (i & <- & _). apply H.
Qed.

Lemma valueOf_Forall (P : Z -> Prop) rs i :
  Forall (fun r => P (value r)) rs -> (i < length rs)%nat ->
  P (valueOf (map value rs) i).
Proof.
  intros HF Hi. unfold valueOf.
  rewrite (nth_indep _ 0 (value {| value := 0 |})) by now rewrite length_map.
  rewrite map_nth. rewrite Forall_forall in HF. apply HF. now apply nth_In.
Qed.

Lemma sumZ_bounds lo hi l :
  Forall (fun x => lo <= x <= hi) l ->
  Z.of_nat (length l) * lo <= sumZ l <= Z.of_nat (length l) * hi.
Proof.
  induction 1 as [|x l Hx _ IH]; cbn [sumZ fold_right length]; [lia|].
  fold (sumZ l). lia.
Qed.

Lemma used_values_Forall (P : Z -> Prop) rs us :
  Forall (fun r => P (value r)) rs ->
  (forall i, In i us -> (i < length rs)%nat) ->
  Forall P (map (valueOf (map value rs)) us).
Proof.
  intros HF Hb. rewrite Forall_forall. intros v Hv.
  apply in_map_iff in Hv as (i & <- & Hi).
  apply valueOf_Forall; [exact HF | now apply Hb].
Qed.

Lemma rollTerm_subtotal_range (random : nat -> Q) (d : DiceTerm)
    (k : nat) :
  randomOk random -> 1 <= sides d ->
  exists res k',
    rollTerm random d k = inr (res, k')
    /\ Forall (fun r => 1 <= value r <= sides d) (rolls res)
    /\ Z.of_nat (length (used res)) <= subtotal res
       <= Z.of_nat (length (used res)) * sides d.
Proof.
  intros Hr Hs.
  destruct (rollTerm_ranking random d k) as (res & E & Hrs & _ & Hu & Hsub & _).
  exists res, (k + Z.to_nat (count d))%nat. split; [exact E|].
  assert (HF : Forall (fun r => 1 <= value r <= sides d) (rolls res)).
  { rewrite Hrs.
    apply (draws_Forall _ _ _ _ (fun v => 1 <= v <= sides d)). intros i.
    destruct (Hr i). now apply dieValue_range. }
  split; [exact HF|].
  assert (Hb : forall i, In i (used res) -> (i < length (rolls res))%nat).
  { intros i Hi. rewrite Hu in Hi. apply selectPure_bound in Hi.
    now rewrite length_map in Hi. }
  pose proof (sumZ_bounds 1 (sides d) _
                (used_values_Forall (fun v => 1 <= v <= sides d) _ _ HF Hb))
    as Hsum.
  rewrite length_map in Hsum. rewrite Hsub. lia.
Qed.


(** X3.  A die without sides always shows 1, whatever the random source: a
    term such as 3d0 rolls only ones and its subtotal is the number of
    dice it counts. *)
Theorem zero_sides_roll_one (random : nat -> Q) (d : DiceTerm) (k : nat) :
  sides d = 0 ->
  exists res k',
    rollTerm random d k = inr (res, k')
    /\ Forall (fun r => value r = 1) (rolls res)
    /\ subtotal res = Z.of_nat (length (used res)).
Proof.
  intros Hs.
  destruct (rollTerm_ranking random d k) as (res & E & Hrs & _ & Hu & Hsub & _).
  exists res, (k + Z.to_nat (count d))%nat. split; [exact E|].
  assert (HF : Forall (fun r => 1 <= value r <= 1) (rolls res)).
  { rewrite Hrs, Hs.
    apply (draws_Forall _ _ _ _ (fun v => 1 <= v <= 1)). intros i.
    rewrite dieValue_no_sides. lia. }
  split.
  { rewrite Forall_forall in *. intros r Hr0. specialize (HF r Hr0). lia. }
  assert (Hb : forall i, In i (used res) -> (i < length (rolls res))%nat).
  { intros i Hi. rewrite Hu in Hi. apply selectPure_bound in Hi.
    now rewrite length_map in Hi. }
  pose proof (sumZ_bounds 1 1 _
                (used_values_Forall (fun v => 1 <= v <= 1) _ _ HF Hb))
    as Hsum.
  rewrite length_map in Hsum. rewrite Hsub. lia.
Qed.

Lemma zero_sides_roll_one_witness :
  exists res,
    rollTerm sampleRandom
      {| count := 3; sides := 0; keep := None; drop := None |} 5%nat
    = inr (res, 8%nat)
    /\ Forall (fun r => value r = 1) (rolls res)
    /\ subtotal res = 3.
Proof.
  set (d := {| count := 3; sides := 0; keep := None; drop := None |}).
  destruct (zero_sides_roll_one sampleRandom d 5%nat eq_refl)
    as (res & k' & E & HF & Hsub).
  exists res. vm_compute in E. injection E as <- <-.
  split; [reflexivity|]. split; [exact HF | exact Hsub].
Defined.

(** ** Which dice are counted *)

Lemma In_inDrawOrder c l i :
  In i (inDrawOrder c l) <-> (i < c)%nat /\ In i l.
Proof.
  unfold inDrawOrder. rewrite filter_In, in_seq, member_In.
  split; intros [H1 H2]; split; (lia || assumption).
Qed.

Lemma In_allExcept c l i :
  In i (allExcept c l) <-> (i < c)%nat /\ ~ In i l.
Proof.
  unfold allExcept. rewrite filter_In, in_seq, negb_true_iff.
  rewrite <- member_In.
  split; intros [H1 H2]; split; try lia.
  - now rewrite H2.
  - now destruct (member i l).
Qed.

Lemma selectPure_NoDup d vals : NoDup (selectPure d vals).
Proof.
  unfold selectPure.
  assert (Hk : NoDup match keep d with
                     | Some (kh, n) => slice (rankingOf vals) 0 (Some n)
                     | Some (kl, n) =>
                         sortPure byIndexAsc
                           (slice (rankingOf vals) (- n) None)
                     | None => seq 0 (length vals)
                     end).
  { destruct (keep d) as [[[|] n]|].
    - apply slice_NoDup, rankingOf_NoDup.
    - apply (Permutation_NoDup (Permutation_sym (sortPure_perm _ _))).
      apply slice_NoDup, rankingOf_NoDup.
    - apply seq_NoDup. }
  destruct (drop d) as [[kind n]|]; [now apply NoDup_filter | exact Hk].
Qed.

(** X4.  No die is counted twice: the used indices of a term, whatever its
    selectors, are distinct positions of its rolls. *)
Theorem used_indices_distinct (random : nat -> Q) (d : DiceTerm) (k : nat) :
  exists res k',
    rollTerm random d k = inr (res, k')
    /\ NoDup (used res)
    /\ Forall (fun i => (i < length (rolls res))%nat) (used res)
    /\ (length (used res) <= length (rolls res))%nat.
Proof.
  destruct (rollTerm_ranking random d k) as (res & E & _ & _ & Hu & _).
  exists res, (k + Z.to_nat (count d))%nat. split; [exact E|].
  assert (Hnd : NoDup (used res)) by (rewrite Hu; apply selectPure_NoDup).
  assert (Hb : forall i, In i (used res) -> In i (seq 0 (length (rolls res)))).
  { intros i Hi. rewrite Hu in Hi. apply selectPure_bound in Hi.
    rewrite length_map in Hi. apply in_seq. lia. }
  split; [exact Hnd|]. split.
  - rewrite Forall_forall. intros i Hi. apply Hb, in_seq in Hi. lia.
  - pose proof (NoDup_incl_length Hnd Hb) as Hle.
    now rewrite length_seq in Hle.
Qed.

Lemma length_inDrawOrder c l :
  NoDup l -> (forall i, In i l -> (i < c)%nat) ->
  length (inDrawOrder c l) = length l.
Proof.
  intros Hnd Hb. rewrite <- (sort_ascending_inDrawOrder c l Hnd Hb).
  apply sortPure_length.
Qed.

Lemma length_allExcept c l :
  NoDup l -> (forall i, In i l -> (i < c)%nat) ->
  length (allExcept c l) = (c - length l)%nat.
Proof.
  intros Hnd Hb.
  pose proof (filter_length (fun i => member i l) (seq 0 c)) as H.
  cbv beta in H. fold (inDrawOrder c l) in H. fold (allExcept c l) in H.
  rewrite length_inDrawOrder, length_seq in H by assumption. lia.
Qed.

Lemma top_NoDup vals n : NoDup (top n (rankingOf vals)).
Proof. apply NoDup_firstn', rankingOf_NoDup. Qed.

Lemma top_bound vals n i :
  In i (top n (rankingOf vals)) -> (i < length vals)%nat.
Proof. intros H. apply In_firstn in H. now apply rankingOf_In. Qed.

Lemma length_top vals n :
  length (top n (rankingOf vals)) = Nat.min (Z.to_nat n) (length vals).
Proof. unfold top. now rewrite length_firstn, rankingOf_length. Qed.

Lemma length_bottom vals n :
  length (bottom n (rankingOf vals)) = Nat.min (Z.to_nat n) (length vals).
Proof. unfold bottom. rewrite length_skipn, rankingOf_length. lia. Qed.

Lemma length_selectedIndices d vals :
  length (selectedIndices d (length vals) (rankingOf vals))
  = match keep d, drop d with
    | Some (_, n), _ => Nat.min (Z.to_nat n) (length vals)
    | None, Some (_, n) => (length vals - Nat.min (Z.to_nat n) (length vals))%nat
    | None, None => length vals
    end.
Proof.
  unfold selectedIndices.
  destruct (keep d) as [[[|] n]|].
  - apply length_top.
  - rewrite length_inDrawOrder; [apply length_bottom | apply bottom_NoDup
                                | apply bottom_bound].
  - destruct (drop d) as [[[|] n]|].
    + rewrite length_allExcept; [now rewrite length_top | apply top_NoDup
                                 | apply top_bound].
    + rewrite length_allExcept; [now rewrite length_bottom | apply bottom_NoDup
                                 | apply bottom_bound].
    + apply length_seq.
Qed.

Lemma rollTerm_used_count (random : nat -> Q) (d : DiceTerm) (k : nat) :
  parsedTermOk (Dice d) ->
  exists res k',
    rollTerm random d k = inr (res, k')
    /\ Z.of_nat (length (rolls res)) = count d
    /\ Z.of_nat (length (used res)) = usedCount d.
Proof.
  intros Hok. pose proof Hok as (Hc & _ & _ & Hkp & Hdp).
  destruct (rollTerm_ranking random d k) as (res & E & _ & Hlen & Hu & _).
  exists res, (k + Z.to_nat (count d))%nat. split; [exact E|].
  split; [lia|].
  rewrite Hu, (selectPure_selected _ _ Hok), length_selectedIndices.
  rewrite length_map, Hlen. unfold usedCount.
  destruct (keep d) as [[kind n]|].
  { specialize (Hkp _ _ eq_refl). lia. }
  destruct (drop d) as [[kind n]|]; [|lia].
  specialize (Hdp _ _ eq_refl). lia.
Qed.




(** ** Highest and lowest *)

Lemma NoDup_app_disjoint {A} (l1 l2 : list A) x :
  NoDup (l1 ++ l2) -> In x l1 -> In x l2 -> False.
Proof.
  induction l1 as [|a l1 IH]; intros Hnd H1 H2; [destruct H1|].
  simpl in Hnd. inversion Hnd as [|? ? Hna Hnd']; subst.
  destruct H1 as [->|H1].
  - apply Hna, in_or_app. now right.
  - now apply IH.
Qed.

(** The ranking cut after its first m entries: an index of the draw is
    on exactly one side. *)
Lemma ranking_side vals m i :
  (i < length vals)%nat ->
  (In i (firstn m (rankingOf vals)) /\ ~ In i (skipn m (rankingOf vals)))
  \/ (In i (skipn m (rankingOf vals)) /\ ~ In i (firstn m (rankingOf vals))).
Proof.
  intros Hi. apply rankingOf_In in Hi.
  pose proof (rankingOf_NoDup vals) as Hnd.
  rewrite <- (firstn_skipn m (rankingOf vals)) in Hi, Hnd.
  apply in_app_or in Hi as [Hi|Hi]; [left|right]; (split; [exact Hi|]);
    intros Hj.
  - exact (NoDup_app_disjoint _ _ _ Hnd Hi Hj).
  - exact (NoDup_app_disjoint _ _ _ Hnd Hj Hi).
Qed.

Lemma ranking_cut_values vals m x y :
  In x (firstn m (rankingOf vals)) -> In y (skipn m (rankingOf vals)) ->
  valueOf vals y <= valueOf vals x.
Proof.
  intros Hx Hy. apply outranks_value.
  apply (StronglySorted_app_inv _ (firstn m (rankingOf vals))
           (skipn m (rankingOf vals))); try assumption.
  rewrite firstn_skipn. apply rankingOf_sorted.
Qed.

(** X6.  Keep-highest and drop-lowest leave out only dice that show no more
    than any die they count; keep-lowest and drop-highest leave out only
    dice that show no less. *)
Theorem selection_keeps_the_extremes (random : nat -> Q) (d : DiceTerm)
    (k : nat) :
  parsedTermOk (Dice d) ->
  exists res k',
    rollTerm random d k = inr (res, k')
    /\ forall i j,
         In i (used res) -> (j < length (rolls res))%nat ->
         ~ In j (used res) ->
         (forall n, keep d = Some (kh, n) \/ drop d = Some (dl, n) ->
            valueOf (map value (rolls res)) j
            <= valueOf (map value (rolls res)) i)
         /\ (forall n, keep d = Some (kl, n) \/ drop d = Some (dh, n) ->
               valueOf (map value (rolls res)) i
               <= valueOf (map value (rolls res)) j).
Proof.
  intros Hok.
  destruct (rollTerm_ranking random d k) as (res & E & _ & _ & Hu & _).
  exists res, (k + Z.to_nat (count d))%nat. split; [exact E|].
  set (vals := map value (rolls res)) in *.
  intros i j Hi Hj Hnj.
  assert (Hjv : (j < length vals)%nat) by (unfold vals; now rewrite length_map).
  rewrite Hu, (selectPure_selected _ _ Hok) in Hi, Hnj.
  destruct Hok as (_ & _ & Hex & _ & _).
  unfold selectedIndices in Hi, Hnj.
  split; intros n [Hk|Hd].
  - (* kh *)
    rewrite Hk in Hi, Hnj. unfold top in Hi, Hnj.
    destruct (ranking_side vals (Z.to_nat n) j Hjv) as [[Hin _]|[Hin _]];
      [contradiction|].
    now apply (ranking_cut_values vals (Z.to_nat n)).
  - (* dl *)
    destruct Hex as [Hk|Hk]; [|congruence].
    rewrite Hk, Hd in Hi, Hnj. unfold bottom in Hi, Hnj.
    set (m := (length (rankingOf vals) - Z.to_nat n)%nat) in *.
    apply In_allExcept in Hi as [Hiv Hi].
    rewrite In_allExcept in Hnj.
    destruct (ranking_side vals m i Hiv) as [[Hin _]|[Hin _]];
      [|contradiction].
    destruct (ranking_side vals m j Hjv) as [[_ Hout]|[Hjn _]];
      [exfalso; apply Hnj; now split|].
    now apply (ranking_cut_values vals m).
  - (* kl *)
    rewrite Hk in Hi, Hnj. unfold bottom in Hi, Hnj.
    set (m := (length (rankingOf vals) - Z.to_nat n)%nat) in *.
    apply In_inDrawOrder in Hi as [Hiv Hi].
    rewrite In_inDrawOrder in Hnj.
    destruct (ranking_side vals m j Hjv) as [[Hjn _]|[Hjn _]];
      [|exfalso; apply Hnj; now split].
    now apply (ranking_cut_values vals m).
  - (* dh *)
    destruct Hex as [Hk|Hk]; [|congruence].
    rewrite Hk, Hd in Hi, Hnj. unfold top in Hi, Hnj.
    apply In_allExcept in Hi as [Hiv Hi].
    rewrite In_allExcept in Hnj.
    destruct (ranking_side vals (Z.to_nat n) i Hiv) as [[Hin _]|[Hin _]];
      [contradiction|].
    destruct (ranking_side vals (Z.to_nat n) j Hjv) as [[Hjn _]|[_ Hout]];
      [|exfalso; apply Hnj; now split].
    now apply (ranking_cut_values vals (Z.to_nat n)).
Qed.

Lemma selection_keeps_the_extremes_witness :
  valueOf [1; 3; 6; 2] 0 <= valueOf [1; 3; 6; 2] 3.
Proof.
  set (d := {| count := 4; sides := 6; keep := None; drop := Some (dl, 1) |}).
  assert (Hok : parsedTermOk (Dice d)).
  { cbn. split; [lia|]. split; [lia|]. split; [now left|].
    split; intros kind n E; [discriminate | injection E as _ <-; lia]. }
  destruct (selection_keeps_the_extremes sampleRandom d 0%nat Hok)
    as (res & k' & E & H).
  vm_compute in E. injection E as <- <-.
  assert (Hi : In 3%nat [1; 2; 3]%nat) by (simpl; tauto).
  assert (Hj : (0 < 4)%nat) by lia.
  assert (Hnj : ~ In 0%nat [1; 2; 3]%nat)
    by (simpl; intros [F|[F|[F|F]]]; (discriminate || exact F)).
  exact (proj1 (H 3%nat 0%nat Hi Hj Hnj) 1 (or_intror eq_refl)).
Defined.

(** ** Keep and drop are two ways to say the same thing *)

(** In exact integers, on the same draws, keeping the highest n of
    count dice counts the same dice as dropping the lowest count - n. *)
Lemma exact_keep_highest_is_drop_lowest (random : nat -> Q) (cnt sd n : Z)
    (k : nat) :
  1 <= n -> n < cnt ->
  exists r1 r2 k',
    rollTerm random {| count := cnt; sides := sd; keep := Some (kh, n);
                       drop := None |} k = inr (r1, k')
    /\ rollTerm random {| count := cnt; sides := sd; keep := None;
                          drop := Some (dl, cnt - n) |} k = inr (r2, k')
    /\ rolls r1 = rolls r2
    /\ Permutation (used r1) (used r2)
    /\ subtotal r1 = subtotal r2.
Proof.
  intros Hn Hlt.
  set (d1 := {| count := cnt; sides := sd; keep := Some (kh, n);
                drop := None |}).
  set (d2 := {| count := cnt; sides := sd; keep := None;
                drop := Some (dl, cnt - n) |}).
  destruct (rollTerm_ranking random d1 k)
    as (r1 & E1 & Hr1 & Hl1 & Hu1 & Hs1 & _).
  destruct (rollTerm_ranking random d2 k)
    as (r2 & E2 & Hr2 & Hl2 & Hu2 & Hs2 & _).
  cbn [count sides d1 d2] in *.
  exists r1, r2, (k + Z.to_nat cnt)%nat.
  split; [exact E1|]. split; [exact E2|].
  assert (Hrr : rolls r1 = rolls r2) by congruence.
  split; [exact Hrr|].
  rewrite <- Hrr in Hu2, Hs2.
  set (vals := map value (rolls r1)) in *.
  assert (Hlen : length vals = Z.to_nat cnt)
    by (unfold vals; now rewrite length_map).
  assert (Hperm : Permutation (used r1) (used r2)).
  { rewrite Hu1, Hu2.
    rewrite (selectPure_kh d1 vals n eq_refl eq_refl) by lia.
    rewrite (selectPure_dl d2 vals (cnt - n) eq_refl eq_refl) by lia.
    unfold top, bottom. rewrite rankingOf_length, Hlen.
    replace (Z.to_nat cnt - Z.to_nat (cnt - n))%nat with (Z.to_nat n) by lia.
    apply NoDup_Permutation.
    - apply NoDup_firstn', rankingOf_NoDup.
    - apply NoDup_filter, seq_NoDup.
    - intros x. rewrite In_allExcept. split.
      + intros Hx.
        assert (Hxv : (x < length vals)%nat)
          by (apply In_firstn in Hx; now apply rankingOf_In).
        split; [lia|].
        destruct (ranking_side vals (Z.to_nat n) x Hxv) as [[_ H]|[_ H]];
          [exact H | contradiction].
      + intros [Hxv Hx].
        destruct (ranking_side vals (Z.to_nat n) x ltac:(lia))
          as [[H _]|[H _]]; [exact H | contradiction]. }
  split; [exact Hperm|].
  rewrite Hs1, Hs2. apply sumZ_perm. now apply Permutation_map.
Qed.

(** X8.  On the same draws, keeping the lowest n of count dice records
    exactly the used indices of dropping the highest count - n. *)
Theorem keep_lowest_is_drop_highest (random : nat -> Q) (cnt sd n : Z)
    (k : nat) :
  1 <= n -> n < cnt ->
  exists r1 r2 k',
    rollTerm random {| count := cnt; sides := sd; keep := Some (kl, n);
                       drop := None |} k = inr (r1, k')
    /\ rollTerm random {| count := cnt; sides := sd; keep := None;
                          drop := Some (dh, cnt - n) |} k = inr (r2, k')
    /\ rolls r1 = rolls r2
    /\ used r1 = used r2
    /\ subtotal r1 = subtotal r2.
Proof.
  intros Hn Hlt.
  set (d1 := {| count := cnt; sides := sd; keep := Some (kl, n);
                drop := None |}).
  set (d2 := {| count := cnt; sides := sd; keep := None;
                drop := Some (dh, cnt - n) |}).
  destruct (rollTerm_ranking random d1 k)
    as (r1 & E1 & Hr1 & Hl1 & Hu1 & Hs1 & _).
  destruct (rollTerm_ranking random d2 k)
    as (r2 & E2 & Hr2 & Hl2 & Hu2 & Hs2 & _).
  cbn [count sides d1 d2] in *.
  exists r1, r2, (k + Z.to_nat cnt)%nat.
  split; [exact E1|]. split; [exact E2|].
  assert (Hrr : rolls r1 = rolls r2) by congruence.
  split; [exact Hrr|].
  rewrite <- Hrr in Hu2, Hs2.
  set (vals := map value (rolls r1)) in *.
  assert (Hlen : length vals = Z.to_nat cnt)
    by (unfold vals; now rewrite length_map).
  assert (Heq : used r1 = used r2).
  { rewrite Hu1, Hu2.
    rewrite (selectPure_kl d1 vals n eq_refl eq_refl) by lia.
    rewrite (selectPure_dh d2 vals (cnt - n) eq_refl eq_refl) by lia.
    unfold top, bottom, inDrawOrder, allExcept.
    rewrite rankingOf_length, Hlen.
    replace (Z.to_nat cnt - Z.to_nat n)%nat with (Z.to_nat (cnt - n)) by lia.
    apply filter_ext_in. intros x Hx. apply in_seq in Hx.
    set (m := Z.to_nat (cnt - n)).
    destruct (ranking_side vals m x ltac:(lia)) as [[Hf Hs]|[Hs Hf]].
    - rewrite (proj2 (member_In _ _) Hf).
      destruct (member x (skipn m (rankingOf vals))) eqn:Em; [|reflexivity].
      apply member_In in Em. contradiction.
    - rewrite (proj2 (member_In _ _) Hs).
      destruct (member x (firstn m (rankingOf vals))) eqn:Em; [|reflexivity].
      apply member_In in Em. contradiction. }
  split; [exact Heq|].
  now rewrite Hs1, Hs2, Heq.
Qed.

Lemma keep_lowest_is_drop_highest_witness :
  exists r1 r2,
    rollTerm sampleRandom {| count := 4; sides := 6; keep := Some (kl, 1);
                             drop := None |} 0%nat = inr (r1, 4%nat)
    /\ rollTerm sampleRandom {| count := 4; sides := 6; keep := None;
                                drop := Some (dh, 3) |} 0%nat = inr (r2, 4%nat)
    /\ used r1 = [0%nat] /\ used r1 = used r2.
Proof.
  destruct (keep_lowest_is_drop_highest sampleRandom 4 6 1 0%nat)
    as (r1 & r2 & k' & E1 & E2 & _ & Hu & _); [lia | lia |].
  exists r1, r2. change (4 - 1) with 3 in E2.
  split; [|split; [|split; [|exact Hu]]].
  - vm_compute in E1. injection E1 as <- <-. reflexivity.
  - vm_compute in E2. injection E2 as <- <-. reflexivity.
  - vm_compute in E1. injection E1 as <- <-. reflexivity.
Defined.

(** ** The handler as a whole *)

Lemma takesAdvantagePath_plain parsed d :
  plainD20 d = false -> takesAdvantagePath parsed d = false.
Proof.
  unfold plainD20, takesAdvantagePath. intros H.
  destruct (count d =? 1), (sides d =? 20), (isNone (keep d)),
    (isNone (drop d)), (advantage parsed || disadvantage parsed);
    simpl in *; congruence.
Qed.

Lemma takesAdvantagePath_no_flags ts d :
  takesAdvantagePath
    {| terms := ts; advantage := false; disadvantage := false |} d = false.
Proof.
  unfold takesAdvantagePath. cbn [advantage disadvantage orb].
  now rewrite andb_false_r.
Qed.

Lemma resolveTerms_ext random p1 p2 ts total details k :
  (forall t, In t ts -> forall k', resolveTerm random p1 t k'
                                   = resolveTerm random p2 t k') ->
  resolveTerms random p1 ts total details k
  = resolveTerms random p2 ts total details k.
Proof.
  revert total details k.
  induction ts as [|t ts IH]; intros total details k H; [reflexivity|].
  cbn [resolveTerms]. unfold bind.
  rewrite (H t (or_introl eq_refl) k).
  destruct (resolveTerm random p2 t k) as [e|[r k1]]; [reflexivity|].
  apply IH. intros t' Ht'. apply H. now right.
Qed.

(** X9.  The advantage and disadvantage flags change nothing when the
    expression has no plain 1d20 term: it resolves exactly as it would
    without them. *)
Theorem flags_ignored_without_plain_d20 (random : nat -> Q)
    (parsed : ParsedExpression) (k : nat) :
  (forall d, In (Dice d) (terms parsed) -> plainD20 d = false) ->
  resolve random parsed k
  = resolve random {| terms := terms parsed; advantage := false;
                      disadvantage := false |} k.
Proof.
  intros H. unfold resolve. cbn [terms].
  apply resolveTerms_ext. intros [d|m] Ht k'; [|reflexivity].
  cbn [resolveTerm].
  now rewrite (takesAdvantagePath_plain parsed d (H d Ht)),
    takesAdvantagePath_no_flags.
Qed.

Lemma flags_ignored_without_plain_d20_witness :
  roll_dice sampleRandom (str "2d20kh1+3 adv") 0%nat
  = roll_dice sampleRandom (str "2d20kh1+3") 0%nat.
Proof.
  set (d := {| count := 2; sides := 20; keep := Some (kh, 1); drop := None |}).
  assert (H : forall d', In (Dice d') [Dice d; Modifier 3] ->
                         plainD20 d' = false).
  { intros d' [E|[E|[]]]; [injection E as <-; reflexivity | discriminate]. }
  exact (flags_ignored_without_plain_d20 sampleRandom
           {| terms := [Dice d; Modifier 3]; advantage := true;
              disadvantage := false |} 0%nat H).
Defined.

(** X10.  A d20 record always carries the text of its two fresh draws: the
    handler never takes the early return of [applyAdvantage], and a term
    on this path consumes exactly three random values. *)
Theorem d20_detail_always_has_text (random : nat -> Q)
    (parsed : ParsedExpression) (t : Term) (k k' : nat) (c base final : Z)
    (advOrDis : option AdvText) :
  resolveTerm random parsed t k
  = inr ((c, D20Detail base advOrDis final), k') ->
  advOrDis <> None /\ c = final /\ k' = S (S (S k)).
Proof.
  destruct t as [d|m]; [|discriminate].
  destruct (takesAdvantagePath parsed d) eqn:H.
  - rewrite (resolveTerm_d20 random _ _ k H).
    destruct (advantage parsed); intros E; injection E as <- <- <- <- <-;
      now repeat split.
  - rewrite (resolveTerm_general random _ _ k H). discriminate.
Qed.

Lemma d20_detail_always_has_text_witness :
  Some (adv_text 10 18) <> None /\ 18 = 18 /\ 3%nat = 3%nat.
Proof.
  set (d := {| count := 1; sides := 20; keep := None; drop := None |}).
  exact (d20_detail_always_has_text sampleRandom
           {| terms := [Dice d]; advantage := true; disadvantage := false |}
           (Dice d) 0%nat 3%nat 18 3 18 (Some (adv_text 10 18)) eq_refl).
Defined.

(** ** The range of the total *)

Lemma resolveTerm_in_range random parsed t k :
  randomOk random -> parsedTermOk t -> hasSides t ->
  exists c detail k',
    resolveTerm random parsed t k = inr ((c, detail), k')
    /\ termLow parsed t <= c <= termHigh parsed t.
Proof.
  intros Hr Hok Hs. destruct t as [d|m]; cbn [termLow termHigh].
  - destruct (takesAdvantagePath parsed d) eqn:H.
    + rewrite (resolveTerm_d20 random _ _ k H).
      destruct (Hr (S k)) as [Ha0 Ha1]. destruct (Hr (S (S k))) as [Hb0 Hb1].
      pose proof (dieValue_range random 20 (S k) Ha0 Ha1 ltac:(lia)).
      pose proof (dieValue_range random 20 (S (S k)) Hb0 Hb1 ltac:(lia)).
      destruct (advantage parsed); do 3 eexists; (split; [reflexivity|]); lia.
    + rewrite (resolveTerm_general random _ _ k H).
      do 3 eexists. split; [reflexivity|].
      destruct (rollTerm_subtotal_range random d k Hr Hs)
        as (res & k1 & E & _ & Hsub).
      destruct (rollTerm_used_count random d k Hok)
        as (res' & k2 & E' & _ & Hcnt).
      rewrite E in E'. injection E' as <- <-.
      rewrite (rollTerm_eq random d k) in E. injection E as <-.
      cbn [used subtotal] in Hsub, Hcnt. lia.
  - exists m, (ModifierDetail m), k. split; [reflexivity | lia].
Qed.

Lemma resolveTerms_in_range random parsed ts total details k :
  randomOk random -> Forall parsedTermOk ts -> Forall hasSides ts ->
  exists total' details' k',
    resolveTerms random parsed ts total details k
    = inr ((total', details'), k')
    /\ total + sumZ (map (termLow parsed) ts) <= total'
       <= total + sumZ (map (termHigh parsed) ts).
Proof.
  intros Hr Hok Hs. revert total details k.
  induction ts as [|t ts IH]; intros total details k.
  - exists total, details, k. split; [reflexivity | cbn; lia].
  - inversion Hok as [|? ? Hok1 Hok2]; subst.
    inversion Hs as [|? ? Hs1 Hs2]; subst.
    destruct (resolveTerm_in_range random parsed t k Hr Hok1 Hs1)
      as (c & detail & k1 & E & Hc).
    cbn [resolveTerms]. rewrite (bind_inr _ _ _ _ _ E). cbn [fst snd].
    destruct (IH Hok2 Hs2 (total + c) (details ++ [detail]) k1)
      as (total' & details' & k' & E' & Ht).
    exists total', details', k'. split; [exact E'|].
    cbn [map sumZ fold_right].
    fold (sumZ (map (termLow parsed) ts)).
    fold (sumZ (map (termHigh parsed) ts)). lia.
Qed.

(** ** Letter case and surrounding white space *)

Lemma isSpace_lowerChar c : isSpace (lowerChar c) = isSpace c.
Proof.
  destruct c as [b0 b1 b2 b3 b4 b5 b6 b7].
  destruct b0, b1, b2, b3, b4, b5, b6, b7; reflexivity.
Qed.

Lemma trimStart_toLowerCase s :
  trimStart (toLowerCase s) = toLowerCase (trimStart s).
Proof.
  unfold toLowerCase. induction s as [|c s IH]; [reflexivity|].
  cbn [map trimStart]. rewrite isSpace_lowerChar.
  destruct (isSpace c); [exact IH | reflexivity].
Qed.

Lemma trim_toLowerCase s : trim (toLowerCase s) = toLowerCase (trim s).
Proof.
  unfold trim, trimEnd. rewrite trimStart_toLowerCase.
  unfold toLowerCase at 1. rewrite <- map_rev.
  fold (toLowerCase (rev (trimStart s))).
  rewrite trimStart_toLowerCase. unfold toLowerCase. now rewrite map_rev.
Qed.

Lemma lowerChar_idempotent c : lowerChar (lowerChar c) = lowerChar c.
Proof.
  destruct c as [b0 b1 b2 b3 b4 b5 b6 b7].
  destruct b0, b1, b2, b3, b4, b5, b6, b7; reflexivity.
Qed.

Lemma parseNotation_tokens a b :
  tokensOf a = tokensOf b -> parseNotation a = parseNotation b.
Proof. intros H. unfold parseNotation. now rewrite H. Qed.

(** X15.  Letter case does not matter: two notations with the same lower-case
    form parse to the same result. *)
Theorem parse_ignores_letter_case (a b : JsString.t) :
  toLowerCase a = toLowerCase b -> parseNotation a = parseNotation b.
Proof.
  intros H. apply parseNotation_tokens. unfold tokensOf.
  now rewrite <- !trim_toLowerCase, H.
Qed.

Lemma toLowerCase_idempotent s : toLowerCase (toLowerCase s) = toLowerCase s.
Proof.
  unfold toLowerCase. rewrite map_map. apply map_ext.
  apply lowerChar_idempotent.
Qed.

Lemma parse_lower_case_form s : parseNotation (toLowerCase s) = parseNotation s.
Proof.
  apply parseNotation_tokens. unfold tokensOf.
  now rewrite <- !trim_toLowerCase, toLowerCase_idempotent.
Qed.

Lemma parse_ignores_letter_case_witness :
  parseNotation (str "2D6KH1 Adv") = parseNotation (str "2d6kh1 aDV").
Proof. apply parse_ignores_letter_case. reflexivity. Defined.

Lemma trimStart_spaces_app ws s : allSpaces ws -> trimStart (ws ++ s) = trimStart s.
Proof.
  unfold allSpaces. induction ws as [|c ws IH]; intros H; [reflexivity|].
  cbn in H. apply andb_true_iff in H as [Hc Hws].
  cbn [app trimStart]. rewrite Hc. now apply IH.
Qed.

Lemma trimStart_app_spaces s ws :
  allSpaces ws ->
  trimStart (s ++ ws)
  = trimStart s ++ match trimStart s with [] => [] | _ => ws end.
Proof.
  intros Hws. induction s as [|c s IH].
  - cbn [app trimStart]. rewrite <- (app_nil_r ws) at 1.
    now rewrite trimStart_spaces_app.
  - cbn [app trimStart]. destruct (isSpace c); [exact IH | reflexivity].
Qed.

Lemma allSpaces_rev ws : allSpaces ws -> allSpaces (rev ws).
Proof.
  unfold allSpaces. rewrite !forallb_forall. intros H c Hc.
  apply H. now apply in_rev.
Qed.

Lemma trimEnd_app_spaces s ws : allSpaces ws -> trimEnd (s ++ ws) = trimEnd s.
Proof.
  intros H. unfold trimEnd. rewrite rev_app_distr.
  now rewrite trimStart_spaces_app by now apply allSpaces_rev.
Qed.

Lemma trim_surrounding_spaces ws s ws' :
  allSpaces ws -> allSpaces ws' -> trim (ws ++ s ++ ws') = trim s.
Proof.
  intros H H'. unfold trim.
  rewrite trimStart_spaces_app by exact H.
  rewrite trimStart_app_spaces by exact H'.
  destruct (trimStart s) as [|c r]; [now rewrite app_nil_r|].
  now apply trimEnd_app_spaces.
Qed.

(** X16.  White space in front of and after a notation does not matter. *)
Theorem parse_ignores_surrounding_space (ws s ws' : JsString.t) :
  allSpaces ws -> allSpaces ws' ->
  parseNotation (ws ++ s ++ ws') = parseNotation s.
Proof.
  intros H H'. apply parseNotation_tokens. unfold tokensOf.
  now rewrite trim_surrounding_spaces.
Qed.

Lemma parse_ignores_surrounding_space_witness :
  parseNotation (str "  " ++ str "1d20 + 5" ++ [ascii_of_N 9; ascii_of_N 160])
  = parseNotation (str "1d20 + 5").
Proof. apply parse_ignores_surrounding_space; reflexivity. Defined.

(** ** The signed runs *)

Lemma splitSigns_concat s : concat (splitSigns s) = s.
Proof.
  induction s as [|c r IH]; [reflexivity|].
  cbn [splitSigns]. destruct (startsWith isSign r).
  - cbn [concat app]. now rewrite IH.
  - destruct (splitSigns r) as [|cur rest]; cbn [concat app] in *;
      now rewrite <- IH.
Qed.

Lemma concat_filter_nonempty (l : list JsString.t) :
  concat (filter (fun p => negb (isEmpty p)) l) = concat l.
Proof.
  induction l as [|p l IH]; [reflexivity|].
  cbn [filter]. destruct p as [|c p]; cbn [isEmpty negb concat app];
    [exact IH | now rewrite IH].
Qed.

Lemma splitSigns_shape s :
  exists first rest,
    splitSigns s = first :: rest
    /\ Forall signedRun rest
    /\ forallb notSign (tl first) = true
    /\ startsWith isSign first = startsWith isSign s.
Proof.
  induction s as [|c r (f & rs & E & Hrs & Htl & Hhd)].
  - exists [], []. now repeat split.
  - cbn [splitSigns]. rewrite E. destruct (startsWith isSign r) eqn:Hr.
    + exists [c], (f :: rs). split; [reflexivity|]. split; [|now split].
      constructor; [|exact Hrs].
      destruct f as [|x f]; [discriminate|]. cbn in Hhd, Htl |- *.
      now split.
    + exists (c :: f), rs. split; [reflexivity|]. split; [exact Hrs|].
      split; [|reflexivity]. cbn [tl].
      destruct f as [|x f]; [reflexivity|]. cbn in Hhd, Htl |- *.
      unfold notSign at 1. now rewrite Hhd, Htl.
Qed.

Lemma ensurePlus_starts s : startsWith isSign (ensurePlus s) = true.
Proof.
  unfold ensurePlus. destruct s as [|c r]; [reflexivity|].
  destruct (Ascii.eqb_spec c "+"%char) as [->|_]; reflexivity.
Qed.

Lemma partsOf_concat notation :
  concat (partsOf notation)
  = ensurePlus (join (fst (fst (strippedOf notation)))).
Proof.
  unfold partsOf, partsOfTokens.
  now rewrite concat_filter_nonempty, splitSigns_concat.
Qed.

(** X17.  The parser cuts the text left after the flags into runs that each
    start with a sign and hold no other sign, and together spell that
    text with its plus in front: no character is skipped, so anything
    that is not a term makes its run invalid. *)
Theorem parts_partition_the_text (notation : JsString.t) :
  concat (partsOf notation)
  = ensurePlus (join (fst (fst (strippedOf notation))))
  /\ Forall signedRun (partsOf notation).
Proof.
  unfold partsOf, partsOfTokens.
  set (s := ensurePlus (join (fst (fst (strippedOf notation))))).
  split.
  - now rewrite concat_filter_nonempty, splitSigns_concat.
  - destruct (splitSigns_shape s) as (f & rs & E & Hrs & Htl & Hhd).
    rewrite E. unfold s in Hhd. rewrite ensurePlus_starts in Hhd.
    assert (Hf : signedRun f).
    { destruct f as [|x f]; [discriminate|]. cbn in Hhd, Htl |- *. now split. }
    assert (HF : Forall signedRun (f :: rs)) by now constructor.
    rewrite Forall_forall in *. intros p Hp. apply filter_In in Hp as [Hp _].
    now apply HF.
Qed.

(** ** Which error is thrown *)

Lemma parseParts_first_error pre p post acc e :
  Forall (fun q => exists t, parsePart q = inr t) pre ->
  parsePart p = inl e ->
  parseParts (pre ++ p :: post) acc = inl e.
Proof.
  intros Hpre Hp. revert acc.
  induction Hpre as [|q pre [t Hq] _ IH]; intros acc; cbn [app parseParts].
  - now rewrite Hp.
  - rewrite Hq. apply IH.
Qed.

(** X18.  The error thrown is that of the leftmost run that fails; later runs
    are not looked at, and the conflict of the two flags is only
    reported when every run is fine. *)
Theorem leftmost_bad_run_is_reported (notation : JsString.t)
    (pre post : list JsString.t) (p : JsString.t) (e : Exn) :
  partsOf notation = pre ++ p :: post ->
  Forall (fun q => exists t, parsePart q = inr t) pre ->
  parsePart p = inl e ->
  parseNotation notation = inl e.
Proof.
  intros Hparts Hpre Hp. rewrite parseNotation_eq, Hparts.
  now rewrite (parseParts_first_error pre p post [] e Hpre Hp).
Qed.

Lemma leftmost_bad_run_is_reported_witness :
  parseNotation (str "2d6+1x-1d4+y adv dis")
  = inl (InvalidDicePart (str "+1x")).
Proof.
  apply (leftmost_bad_run_is_reported _ [str "+2d6"] [str "-1d4"; str "+y"]
           (str "+1x")).
  - reflexivity.
  - constructor; [|constructor]. eexists. reflexivity.
  - reflexivity.
Defined.

(** ** A notation that starts with a minus sign *)

Lemma stripFlags_keeps_first rl tok adv dis :
  isFlagWord tok = false ->
  exists toks adv' dis',
    stripFlags (rl ++ [tok]) adv dis = (tok :: toks, adv', dis').
Proof.
  intros Htok. unfold isFlagWord in Htok.
  apply orb_false_iff in Htok as [Ha Hd].
  revert adv dis. induction rl as [|x rl IH]; intros adv dis.
  - cbn [app stripFlags]. rewrite Ha, Hd. now do 3 eexists.
  - cbn [app stripFlags].
    destruct (isAdv x); [apply IH|]. destruct (isDis x); [apply IH|].
    change (x :: rl ++ [tok]) with ((x :: rl) ++ [tok]).
    rewrite rev_app_distr. cbn [rev app]. now do 3 eexists.
Qed.

Lemma splitSpaces_first c r :
  isSpace c = false ->
  exists cur rest, splitSpaces (c :: r) = (c :: cur) :: rest.
Proof.
  intros Hc. cbn [splitSpaces]. rewrite Hc.
  destruct (splitSpaces r) as [|cur rest]; now do 2 eexists.
Qed.

Lemma minus_token_not_flag cur : isFlagWord ("-"%char :: cur) = false.
Proof. reflexivity. Qed.

(** X19.  A notation whose first character, white space aside, is a minus sign
    never parses: a plus is put in front of it all the same, and the
    error names that lone plus.  So "-5" and "-1d6" are both rejected as
    an invalid part "+". *)
Theorem leading_minus_is_rejected (notation : JsString.t) :
  startsWithMinus (trim notation) = true ->
  parseNotation notation = inl (InvalidDicePart (str "+")).
Proof.
  intros Hm.
  destruct (trim notation) as [|c r] eqn:Et; [discriminate|].
  unfold startsWithMinus, startsWith in Hm.
  apply Ascii.eqb_eq in Hm. subst c.
  rewrite parseNotation_eq. unfold partsOf, strippedOf, tokensOf.
  rewrite Et. cbn [toLowerCase map].
  change (lowerChar "-") with "-"%char.
  destruct (splitSpaces_first "-" (map lowerChar r) eq_refl)
    as (cur & rest & ->).
  cbn [rev].
  destruct (stripFlags_keeps_first (rev rest) ("-"%char :: cur) false false
              (minus_token_not_flag cur)) as (toks & adv' & dis' & E).
  unfold JsString.t in *. rewrite E.
  cbn [fst]. unfold partsOfTokens, join. cbn [concat app ensurePlus].
  change (Ascii.eqb "-" "+") with false. cbn iota.
  cbn [splitSigns startsWith]. change (isSign "-") with true. cbn iota.
  cbn [filter isEmpty negb parseParts].
  reflexivity.
Qed.

Lemma leading_minus_is_rejected_witness :
  parseNotation (str " -5 adv") = inl (InvalidDicePart (str "+")).
Proof. apply leading_minus_is_rejected. reflexivity. Defined.

(** ** The alphabet of a notation *)

Lemma allDigits_allowed ds : allDigits ds -> forallb allowedChar ds = true.
Proof.
  unfold allDigits. rewrite !forallb_forall. intros H c Hc.
  unfold allowedChar. rewrite (H c Hc). now rewrite orb_true_r.
Qed.

Lemma isSign_allowed sg : isSign sg = true -> allowedChar sg = true.
Proof. intros H. unfold allowedChar. now rewrite H. Qed.

Lemma isSelector_allowed sel :
  isSelector sel = true -> forallb allowedChar sel = true.
Proof.
  intros H.
  destruct (isSelector_cases _ H) as [-> | [-> | [-> | ->]]]; reflexivity.
Qed.

Lemma parsePart_alphabet part t :
  parsePart part = inr t -> forallb allowedChar part = true.
Proof.
  destruct (parsePart_cases part)
    as [(_ & _ & E) | [(sg & ds & -> & Hs & [Hd _] & _)
       | [(cnt & sd & osel & _ & _ & _ & _ & E)
         | (cnt & sd & osel & -> & Hc & [Hd _] & Ho & _)]]];
    try (rewrite E; discriminate); intros _.
  - cbn [forallb]. now rewrite (isSign_allowed _ Hs), (allDigits_allowed _ Hd).
  - unfold diceRun. cbn [forallb]. change (allowedChar "+") with true.
    rewrite forallb_app. cbn [forallb]. change (allowedChar "d") with true.
    rewrite forallb_app.
    rewrite (allDigits_allowed _ Hc), (allDigits_allowed _ Hd).
    destruct osel as [[sel n]|]; [|reflexivity].
    destruct Ho as [Hsel [Hn _]].
    now rewrite forallb_app, (isSelector_allowed _ Hsel),
      (allDigits_allowed _ Hn).
Qed.

Lemma forallb_concat {A} (f : A -> bool) (l : list (list A)) :
  Forall (fun p => forallb f p = true) l -> forallb f (concat l) = true.
Proof.
  induction 1 as [|p l Hp _ IH]; [reflexivity|].
  cbn [concat]. now rewrite forallb_app, Hp, IH.
Qed.

Lemma forallb_ensurePlus (f : ascii -> bool) s :
  forallb f (ensurePlus s) = true -> forallb f s = true.
Proof.
  unfold ensurePlus. destruct s as [|c r]; [reflexivity|].
  destruct (Ascii.eqb c "+"); [tauto|].
  cbn [forallb]. intros H. now apply andb_true_iff in H as [_ H].
Qed.

(** X20.  A notation that parses is made, once its trailing flag words are
    taken off and its white space removed, of signs, digits and the
    letters d, k, h and l only; in particular a flag word anywhere but
    at the end makes the notation invalid. *)
Theorem parsed_text_alphabet (notation : JsString.t)
    (parsed : ParsedExpression) :
  parseNotation notation = inr parsed ->
  forallb allowedChar (join (fst (fst (strippedOf notation)))) = true.
Proof.
  intros Hp. apply parseNotation_terms in Hp as [HF _].
  apply forallb_ensurePlus.
  rewrite <- (partsOf_concat notation).
  apply forallb_concat.
  induction HF as [|p t ps ts Hp _ IH]; constructor.
  - now apply parsePart_alphabet in Hp.
  - exact IH.
Qed.

Lemma parsed_text_alphabet_witness :
  forallb allowedChar (str "2d20kh1-3") = true.
Proof.
  exact (parsed_text_alphabet (str " 2D20kh1 - 3  dis")
           {| terms := [Dice {| count := 2; sides := 20;
                                keep := Some (kh, 1); drop := None |};
                        Modifier (-3)];
              advantage := false; disadvantage := true |} eq_refl).
Defined.

(** * The resolver on machine numbers *)

(** ** Double addition on integers *)

Lemma roundDouble_exact z : Z.abs z <= safeInteger -> roundDouble z = z.
Proof.
  intros H. unfold roundDouble.
  destruct (Z.ltb_spec (Z.abs z) safeInteger) as [_|Hge]; [reflexivity|].
  assert (Ha : Z.abs z = safeInteger) by lia.
  destruct (Z.abs_eq_or_opp z) as [E|E]; rewrite E in Ha.
  - subst z. reflexivity.
  - assert (z = - safeInteger) as -> by lia. reflexivity.
Qed.

Lemma addDouble_exact a b :
  Z.abs (a + b) <= safeInteger -> addDouble a b = a + b.
Proof. apply roundDouble_exact. Qed.

Lemma sumZ_abs_nonneg l : 0 <= sumZ (map Z.abs l).
Proof.
  induction l as [|x l IH]; cbn [map sumZ fold_right]; [lia|].
  fold (sumZ (map Z.abs l)). lia.
Qed.

Lemma fold_addDouble_exact l acc :
  Z.abs acc + sumZ (map Z.abs l) <= safeInteger ->
  fold_left addDouble l acc = acc + sumZ l.
Proof.
  revert acc. induction l as [|x l IH]; intros acc H;
    cbn [fold_left map sumZ fold_right] in *; [lia|].
  fold (sumZ (map Z.abs l)) in H. fold (sumZ l).
  pose proof (sumZ_abs_nonneg l).
  rewrite addDouble_exact by lia. rewrite IH by lia. lia.
Qed.

Lemma sumDouble_exact l :
  sumZ (map Z.abs l) <= safeInteger -> sumDouble l = sumZ l.
Proof.
  intros H. unfold sumDouble.
  rewrite fold_addDouble_exact; [lia | change (Z.abs 0) with 0; lia].
Qed.

Lemma sumZ_abs_le l : Z.abs (sumZ l) <= sumZ (map Z.abs l).
Proof.
  induction l as [|x l IH]; cbn [map sumZ fold_right]; [lia|].
  fold (sumZ l). fold (sumZ (map Z.abs l)). lia.
Qed.

Lemma sumZ_abs_bound hi l :
  Forall (fun x => 0 <= x <= hi) l ->
  sumZ (map Z.abs l) <= Z.of_nat (length l) * hi.
Proof.
  induction 1 as [|x l Hx _ IH]; cbn [map sumZ fold_right length]; [lia|].
  fold (sumZ (map Z.abs l)). lia.
Qed.

(** ** [Machine.rollTerm] *)

Section MachineRollTerm.

Variable random : nat -> Q.

Lemma reduce_sumDouble rs l acc k :
  (forall i, In i l -> (i < length rs)%nat) ->
  reduce (fun acc i => v <- valueAt rs i ;; ret (addDouble acc v)) l acc k
  = inr (fold_left addDouble (map (valueOf (map value rs)) l) acc, k).
Proof.
  revert acc. induction l as [|i l IH]; intros acc H; [reflexivity|].
  cbn [reduce map fold_left]. unfold bind at 1.
  rewrite (bind_inr _ _ _ _ _ (valueAt_eq rs i k (H i (or_introl eq_refl)))).
  unfold ret at 1. apply IH. intros j Hj. apply H. now right.
Qed.

(** Within the array limit [Machine.rollTerm] draws and selects as
    [rollTerm] does and adds the used values as doubles. *)
Lemma machine_rollTerm_eq term k :
  count term <= maxArrayLength ->
  let rs := draws random (sides term) k (Z.to_nat (count term)) in
  let us := selectPure term (map value rs) in
  Machine.rollTerm random term k
  = inr ({| rolls := rs; used := us;
            subtotal := sumDouble (map (valueOf (map value rs)) us) |},
         (k + Z.to_nat (count term))%nat).
Proof.
  intros Hc rs us. unfold Machine.rollTerm, Machine.arrayFrom.
  destruct (Z.ltb_spec maxArrayLength (count term)) as [?|_]; [lia|].
  rewrite (bind_inr _ _ _ _ _ (arrayFrom_draws random _ _ _)). fold rs.
  rewrite (bind_inr _ _ _ _ _ (sortedIdx_eq _ _)).
  set (k' := (k + Z.to_nat (count term))%nat).
  assert (Hsel : forall i, In i us -> (i < length rs)%nat).
  { intros i Hi. apply selectPure_bound in Hi. now rewrite length_map in Hi. }
  unfold us, selectPure in *. rewrite length_map in *.
  destruct (keep term) as [[[|] n]|].
  - rewrite bind_ret, (bind_inr _ _ _ _ _ (reduce_sumDouble _ _ _ _ Hsel)).
    reflexivity.
  - rewrite (bind_inr _ _ _ _ _
               (sortBy_pure byIndexAsc _ _ k' (fun _ _ _ _ => eq_refl))).
    rewrite (bind_inr _ _ _ _ _ (reduce_sumDouble _ _ _ _ Hsel)).
    reflexivity.
  - rewrite bind_ret, (bind_inr _ _ _ _ _ (reduce_sumDouble _ _ _ _ Hsel)).
    reflexivity.
Qed.

(** Beyond the array limit it throws before any die is drawn. *)
Lemma machine_rollTerm_throws term k :
  maxArrayLength < count term ->
  Machine.rollTerm random term k = inl InvalidArrayLength.
Proof.
  intros Hc. unfold Machine.rollTerm, Machine.arrayFrom, bind.
  destruct (Z.ltb_spec maxArrayLength (count term)) as [_|?]; [|lia].
  reflexivity.
Qed.

Lemma selectPure_length_le term vals :
  (length (selectPure term vals) <= length vals)%nat.
Proof.
  rewrite <- (length_seq (length vals) 0).
  apply NoDup_incl_length; [apply selectPure_NoDup|].
  intros i Hi. apply selectPure_bound in Hi. apply in_seq. lia.
Qed.

Lemma dieValue_range_from_zero sd i :
  randomOk random -> 0 <= sd ->
  1 <= dieValue random sd i <= Z.max 1 sd.
Proof.
  intros Hr Hs. destruct (Z.eq_dec sd 0) as [->|Hne].
  - rewrite dieValue_no_sides. lia.
  - destruct (Hr i) as [H0 H1].
    pose proof (dieValue_range random sd i H0 H1 ltac:(lia)). lia.
Qed.

(** The used values of a term add up to no more than count times the
    sides. *)
Lemma used_values_magnitude term k :
  randomOk random -> 0 <= sides term ->
  let rs := draws random (sides term) k (Z.to_nat (count term)) in
  let us := selectPure term (map value rs) in
  Forall (fun v => 0 <= v <= Z.max 1 (sides term))
    (map (valueOf (map value rs)) us)
  /\ sumZ (map Z.abs (map (valueOf (map value rs)) us))
     <= Z.max 0 (count term) * Z.max 1 (sides term).
Proof.
  intros Hr Hs rs us.
  assert (HF : Forall (fun r => 0 <= value r <= Z.max 1 (sides term)) rs).
  { apply (draws_Forall _ _ _ _ (fun v => 0 <= v <= Z.max 1 (sides term))).
    intros i. pose proof (dieValue_range_from_zero (sides term) i Hr Hs). lia. }
  assert (Hb : forall i, In i us -> (i < length rs)%nat).
  { intros i Hi. apply selectPure_bound in Hi. now rewrite length_map in Hi. }
  pose proof (used_values_Forall
                (fun v => 0 <= v <= Z.max 1 (sides term)) _ _ HF Hb) as Hv.
  split; [exact Hv|].
  pose proof (sumZ_abs_bound _ _ Hv) as Hsum. rewrite length_map in Hsum.
  pose proof (selectPure_length_le term (map value rs)) as Hle.
  fold us in Hle. rewrite length_map in Hle.
  assert (Hrl : length rs = Z.to_nat (count term)) by apply draws_length.
  assert (Z.of_nat (length us) <= Z.max 0 (count term)) by lia.
  nia.
Qed.

(** While count times sides is a safe integer the two resolvers return
    the same for the term. *)
Lemma machine_rollTerm_exact term k :
  randomOk random -> 0 <= sides term ->
  count term <= maxArrayLength ->
  Z.max 0 (count term) * Z.max 1 (sides term) <= safeInteger ->
  Machine.rollTerm random term k = rollTerm random term k.
Proof.
  intros Hr Hs Hc Hm.
  rewrite (machine_rollTerm_eq term k Hc), (rollTerm_eq random term k).
  destruct (used_values_magnitude term k Hr Hs) as [_ Hsum].
  rewrite sumDouble_exact by lia. reflexivity.
Qed.

End MachineRollTerm.

(** ** [Machine.resolveTerm] and the handler loop *)

Section MachineHandler.

Variable random : nat -> Q.

Lemma machine_resolveTerm_d20 parsed d k :
  takesAdvantagePath parsed d = true ->
  Machine.resolveTerm random parsed (Dice d) k
  = resolveTerm random parsed (Dice d) k.
Proof. intros H. cbn [Machine.resolveTerm resolveTerm]. now rewrite H. Qed.

Lemma takesAdvantagePath_count parsed d :
  takesAdvantagePath parsed d = true -> count d = 1.
Proof. intros H. now apply takesAdvantagePath_qualifies in H as [H _]. Qed.

Lemma machine_resolveTerm_general parsed d k :
  takesAdvantagePath parsed d = false ->
  count d <= maxArrayLength ->
  let rs := draws random (sides d) k (Z.to_nat (count d)) in
  let us := selectPure d (map value rs) in
  let sub := sumDouble (map (valueOf (map value rs)) us) in
  Machine.resolveTerm random parsed (Dice d) k
  = inr ((sub, DiceDetail (sides d) (count d) (keep d) (drop d)
                 (map value rs) us sub),
         (k + Z.to_nat (count d))%nat).
Proof.
  intros H Hc rs us sub. cbn [Machine.resolveTerm]. rewrite H.
  rewrite (bind_inr _ _ _ _ _ (machine_rollTerm_eq random d k Hc)).
  reflexivity.
Qed.

Lemma machine_resolveTerm_throws parsed d k :
  maxArrayLength < count d ->
  Machine.resolveTerm random parsed (Dice d) k = inl InvalidArrayLength.
Proof.
  intros Hc. cbn [Machine.resolveTerm].
  destruct (takesAdvantagePath parsed d) eqn:H.
  - apply takesAdvantagePath_count in H. unfold maxArrayLength in Hc. lia.
  - unfold bind. now rewrite (machine_rollTerm_throws random d k Hc).
Qed.

(** A term whose count fits is resolved, with the record of its kind
    and the draws its kind asks for. *)
Lemma machine_resolveTerm_total parsed t k :
  countFits t ->
  exists c detail,
    Machine.resolveTerm random parsed t k
    = inr ((c, detail), (k + drawsOf parsed t)%nat)
    /\ c = contribution detail
    /\ detailFor parsed t detail.
Proof.
  intros Hfit. destruct t as [d|m]; cbn [drawsOf].
  - destruct (takesAdvantagePath parsed d) eqn:H.
    + rewrite (machine_resolveTerm_d20 _ _ k H),
        (resolveTerm_d20 random _ _ k H).
      replace (k + 3)%nat with (S (S (S k))) by lia.
      destruct (advantage parsed); do 2 eexists;
        (split; [reflexivity|]); simpl; auto.
    + rewrite (machine_resolveTerm_general _ _ k H Hfit).
      do 2 eexists. split; [reflexivity|]. simpl. repeat split; assumption.
  - exists m, (ModifierDetail m). cbn. unfold ret.
    rewrite Nat.add_0_r. auto.
Qed.

Lemma machine_resolveTerms_total parsed ts total details k :
  Forall countFits ts ->
  exists total' ds,
    Machine.resolveTerms random parsed ts total details k
    = inr ((total', details ++ ds),
           (k + fold_right Nat.add 0%nat (map (drawsOf parsed) ts))%nat)
    /\ Forall2 (detailFor parsed) ts ds.
Proof.
  intros Hfit. revert total details k.
  induction Hfit as [|t ts Ht _ IH]; intros total details k.
  - exists total, []. cbn. unfold ret. rewrite app_nil_r, Nat.add_0_r.
    split; [reflexivity | constructor].
  - destruct (machine_resolveTerm_total parsed t k Ht)
      as (c & detail & E & _ & Hfor).
    cbn [Machine.resolveTerms map fold_right].
    rewrite (bind_inr _ _ _ _ _ E). cbn [fst snd].
    destruct (IH (addDouble total c) (details ++ [detail])
                 (k + drawsOf parsed t)%nat) as (total' & ds & E' & Hfors).
    exists total', (detail :: ds). rewrite E'.
    rewrite <- app_assoc. cbn [app].
    split; [do 2 f_equal; lia | now constructor].
Qed.

Lemma countFits_dec t : {countFits t} + {~ countFits t}.
Proof.
  destruct t as [d|m]; cbn [countFits]; [|now left].
  destruct (Z_le_dec (count d) maxArrayLength); [now left | now right].
Qed.

(** The loop throws only the array error, and only on a term whose
    count does not fit. *)
Lemma machine_resolveTerms_error parsed ts total details k e :
  Machine.resolveTerms random parsed ts total details k = inl e ->
  e = InvalidArrayLength /\ ~ Forall countFits ts.
Proof.
  revert total details k. induction ts as [|t ts IH]; intros total details k;
    [discriminate|].
  cbn [Machine.resolveTerms]. unfold bind at 1.
  destruct (countFits_dec t) as [Hfit|Hnfit].
  - destruct (machine_resolveTerm_total parsed t k Hfit) as (c & detail & E & _).
    rewrite E. intros H. apply IH in H as [-> Hn].
    split; [reflexivity|]. intros HF. apply Hn. now inversion HF.
  - destruct t as [d|m]; [|now contradiction Hnfit].
    cbn [countFits] in Hnfit.
    rewrite (machine_resolveTerm_throws parsed d k ltac:(lia)).
    intros H. injection H as <-.
    split; [reflexivity|]. intros HF. inversion HF. contradiction.
Qed.

Lemma machine_resolveTerms_throws parsed ts total details k :
  ~ Forall countFits ts ->
  Machine.resolveTerms random parsed ts total details k
  = inl InvalidArrayLength.
Proof.
  intros Hn.
  destruct (Machine.resolveTerms random parsed ts total details k)
    as [e|[[total' ds] k']] eqn:E.
  - now apply machine_resolveTerms_error in E as [-> _].
  - exfalso. apply Hn. clear Hn.
    revert total details k E.
    induction ts as [|t ts IH]; intros total details k; [constructor|].
    cbn [Machine.resolveTerms]. unfold bind at 1.
    destruct (Machine.resolveTerm random parsed t k) as [e|[r k1]] eqn:Et;
      [discriminate|].
    intros E. constructor; [|now apply IH in E].
    destruct (countFits_dec t) as [Hfit|Hnfit]; [exact Hfit|].
    destruct t as [d|m]; [|exact I]. cbn [countFits] in Hnfit.
    rewrite (machine_resolveTerm_throws parsed d k ltac:(lia)) in Et.
    discriminate.
Qed.

(** *** Agreement with the exact resolver *)

Lemma resolveTerm_magnitude parsed t k :
  randomOk random -> parsedTermOk t ->
  exists c detail k',
    resolveTerm random parsed t k = inr ((c, detail), k')
    /\ Z.abs c <= termMagnitude parsed t.
Proof.
  intros Hr Hok. destruct t as [d|m]; cbn [termMagnitude].
  - destruct (takesAdvantagePath parsed d) eqn:H.
    + rewrite (resolveTerm_d20 random _ _ k H).
      destruct (Hr (S k)) as [Ha0 Ha1]. destruct (Hr (S (S k))) as [Hb0 Hb1].
      pose proof (dieValue_range random 20 (S k) Ha0 Ha1 ltac:(lia)).
      pose proof (dieValue_range random 20 (S (S k)) Hb0 Hb1 ltac:(lia)).
      destruct (advantage parsed); do 3 eexists; (split; [reflexivity|]); lia.
    + rewrite (resolveTerm_general random _ _ k H).
      do 3 eexists. split; [reflexivity|].
      destruct Hok as (_ & Hs & _).
      destruct (used_values_magnitude random d k Hr Hs) as [_ Hsum].
      pose proof (sumZ_abs_le
                    (map (valueOf (map value
                            (draws random (sides d) k (Z.to_nat (count d)))))
                       (selectPure d
                          (map value
                             (draws random (sides d) k
                                (Z.to_nat (count d))))))).
      lia.
  - exists m, (ModifierDetail m), k. split; [reflexivity | lia].
Qed.

Lemma termMagnitude_nonneg parsed t : 0 <= termMagnitude parsed t.
Proof.
  destruct t as [d|m]; cbn [termMagnitude]; [|lia].
  destruct (takesAdvantagePath parsed d); nia.
Qed.

Lemma machine_resolveTerm_exact parsed t k :
  randomOk random -> parsedTermOk t -> countFits t ->
  termMagnitude parsed t <= safeInteger ->
  Machine.resolveTerm random parsed t k = resolveTerm random parsed t k.
Proof.
  intros Hr Hok Hfit Hm. destruct t as [d|m]; [|reflexivity].
  cbn [termMagnitude countFits] in *.
  destruct (takesAdvantagePath parsed d) eqn:H.
  - now apply machine_resolveTerm_d20.
  - cbn [Machine.resolveTerm resolveTerm]. rewrite H. unfold bind.
    destruct Hok as (_ & Hs & _).
    now rewrite (machine_rollTerm_exact random d k Hr Hs Hfit Hm).
Qed.

Lemma machine_resolveTerms_exact parsed ts total details k :
  randomOk random -> Forall parsedTermOk ts -> Forall countFits ts ->
  Z.abs total + sumZ (map (termMagnitude parsed) ts) <= safeInteger ->
  Machine.resolveTerms random parsed ts total details k
  = resolveTerms random parsed ts total details k.
Proof.
  intros Hr Hok Hfit. revert total details k.
  induction ts as [|t ts IH]; intros total details k Hm; [reflexivity|].
  inversion Hok as [|? ? Hok1 Hok2]; subst.
  inversion Hfit as [|? ? Hfit1 Hfit2]; subst.
  cbn [map sumZ fold_right] in Hm.
  fold (sumZ (map (termMagnitude parsed) ts)) in Hm.
  assert (Hrest : 0 <= sumZ (map (termMagnitude parsed) ts)).
  { clear. induction ts as [|t ts IH]; cbn [map sumZ fold_right]; [lia|].
    fold (sumZ (map (termMagnitude parsed) ts)).
    pose proof (termMagnitude_nonneg parsed t). lia. }
  cbn [Machine.resolveTerms resolveTerms].
  destruct (resolveTerm_magnitude parsed t k Hr Hok1)
    as (c & detail & k1 & E & Hc).
  rewrite (bind_inr _ _ _ _ _ E).
  rewrite <- (machine_resolveTerm_exact parsed t k Hr Hok1 Hfit1) in E by lia.
  rewrite (bind_inr _ _ _ _ _ E). cbn [fst snd].
  rewrite addDouble_exact by lia.
  apply (IH Hok2 Hfit2). lia.
Qed.

(** While the expression is in the safe range, the handler on machine
    numbers returns what the exact one returns. *)
Lemma machine_resolve_exact parsed k :
  randomOk random -> Forall parsedTermOk (terms parsed) ->
  inSafeRange parsed ->
  Machine.resolve random parsed k = resolve random parsed k.
Proof.
  intros Hr Hok [Hfit Hm]. unfold Machine.resolve, resolve.
  apply machine_resolveTerms_exact; assumption.
Qed.

End MachineHandler.

(** ** Totals *)

(** C4, as the code has it.  When the notation parses and the expression
    stays in the safe range (every count within the array limit, and the
    magnitudes of the terms, 20 for a special-case d20, count times sides
    for any other dice term, the absolute value of a modifier, adding up
    to at most 2^53), the handler returns a total and a detail list such
    that the total is the exact sum of what the records contribute, the
    subtotal of every dice record is the sum of its rolls at its used
    indices, and the records stand in the order of the terms, which
    stand in the order of the signed runs of the notation. *)
Theorem total_is_sum_within_safe_range (random : nat -> Q)
    (notation : JsString.t) (parsed : ParsedExpression) (k : nat) :
  randomOk random ->
  parseNotation notation = inr parsed ->
  inSafeRange parsed ->
  exists total details k',
    Machine.roll_dice random notation k = inr ((total, details), k')
    /\ total = sumZ (map contribution details)
    /\ Forall subtotalIsSumOfUsed details
    /\ Forall2 (detailFor parsed) (terms parsed) details
    /\ Forall2 (fun part t => parsePart part = inr t)
         (partsOf notation) (terms parsed).
Proof.
  intros Hr Hp Hsafe. unfold Machine.roll_dice. rewrite Hp.
  rewrite (machine_resolve_exact random parsed k Hr
             (parseNotation_ok _ _ Hp) Hsafe).
  unfold resolve.
  destruct (resolveTerms_total random parsed (terms parsed) 0 [] k)
    as (ds & k' & E & Hsub & Hfor).
  exists (sumZ (map contribution ds)), ds, k'.
  split; [exact E|]. split; [reflexivity|].
  split; [exact Hsub|]. split; [exact Hfor|].
  now apply parseNotation_terms in Hp.
Qed.

Lemma total_is_sum_within_safe_range_witness :
  exists details,
    Machine.roll_dice sampleRandom (str "2d6+1d4+3") 0%nat
    = inr ((11, details), 3%nat)
    /\ map contribution details = [4; 4; 3].
Proof.
  destruct (total_is_sum_within_safe_range sampleRandom (str "2d6+1d4+3")
              {| terms := [Dice {| count := 2; sides := 6; keep := None;
                                   drop := None |};
                           Dice {| count := 1; sides := 4; keep := None;
                                   drop := None |};
                           Modifier 3];
                 advantage := false; disadvantage := false |}
              0%nat sampleRandom_ok eq_refl)
    as (total & details & k' & E & Ht & _).
  { split; [|vm_compute; discriminate].
    repeat constructor; vm_compute; discriminate. }
  exists details. vm_compute in E. injection E as <- <- <-.
  split; reflexivity.
Defined.

(** Above the safe range the total is not the sum of the records: the
    three modifiers of this notation add up to 9007199254740994, and the
    handler, adding them one by one, returns 9007199254740992. *)
Lemma total_rounds_above_safe_range :
  exists parsed,
    parseNotation (str "9007199254740992+1+1") = inr parsed
    /\ Machine.roll_dice sampleRandom (str "9007199254740992+1+1") 0%nat
       = inr ((9007199254740992,
               [ModifierDetail 9007199254740992; ModifierDetail 1;
                ModifierDetail 1]), 0%nat)
    /\ 9007199254740992
       <> sumZ (map contribution
                  [ModifierDetail 9007199254740992; ModifierDetail 1;
                   ModifierDetail 1]).
Proof.
  eexists. split; [vm_compute; reflexivity|].
  split; [vm_compute; reflexivity | vm_compute; discriminate].
Qed.

(** ** Resolution returns *)

(** C5, as the code has it.  Resolution returns for every expression
    whose counts are within the array limit of 2^32 - 1, and [rollTerm]
    returns for every such dice term: there are count rolls and the used
    indices point into them.  A keep whose n is at least the count uses
    every die, and a drop whose n is at least the count uses none and
    has subtotal 0.  A count above the limit makes [rollTerm] throw. *)
Theorem resolution_returns_within_array_limit (random : nat -> Q) :
  (forall parsed k,
      Forall countFits (terms parsed) ->
      exists total details k',
        Machine.resolve random parsed k = inr ((total, details), k')
        /\ Forall2 (detailFor parsed) (terms parsed) details)
  /\ (forall d k,
        count d <= maxArrayLength ->
        exists res k',
          Machine.rollTerm random d k = inr (res, k')
          /\ length (rolls res) = Z.to_nat (count d)
          /\ Forall (fun i => (i < length (rolls res))%nat) (used res)
          /\ (forall kind n,
                keep d = Some (kind, n) -> drop d = None -> count d <= n ->
                Permutation (used res) (seq 0 (length (rolls res))))
          /\ (forall kind n,
                drop d = Some (kind, n) -> count d <= n ->
                used res = [] /\ subtotal res = 0))
  /\ (forall d k,
        maxArrayLength < count d ->
        Machine.rollTerm random d k = inl InvalidArrayLength).
Proof.
  split; [|split].
  - intros parsed k Hfit. unfold Machine.resolve.
    destruct (machine_resolveTerms_total random parsed (terms parsed) 0 [] k
                Hfit) as (total & ds & E & Hfor).
    now exists total, ds,
      (k + fold_right Nat.add 0%nat (map (drawsOf parsed) (terms parsed)))%nat.
  - intros d k Hc.
    pose proof (machine_rollTerm_eq random d k Hc) as E. cbv zeta in E.
    eexists. eexists. split; [exact E|]. cbn [rolls used subtotal].
    set (rs := draws random (sides d) k (Z.to_nat (count d))).
    assert (Hlen : length rs = Z.to_nat (count d)) by apply draws_length.
    split; [exact Hlen|].
    split.
    { rewrite Forall_forall. intros i Hi.
      apply selectPure_bound in Hi. now rewrite length_map in Hi. }
    assert (Hvl : length (map value rs) = Z.to_nat (count d))
      by now rewrite length_map.
    split.
    + intros kind n Hk Hd Hn.
      rewrite <- (length_map value rs).
      apply (selectPure_keep_all _ _ _ _ Hk Hd).
      intros Hne. destruct (map value rs); [congruence|].
      cbn [length] in *. lia.
    + intros kind n Hd Hn.
      assert (Hnil : selectPure d (map value rs) = []).
      { apply (selectPure_drop_all _ _ _ _ Hd).
        intros Hne. destruct (map value rs); [congruence|].
        cbn [length] in *. lia. }
      rewrite Hnil. split; reflexivity.
  - intros d k Hc. now apply machine_rollTerm_throws.
Qed.

Lemma resolution_returns_within_array_limit_witness :
  exists res,
    Machine.rollTerm sampleRandom
      {| count := 2; sides := 6; keep := None; drop := Some (dl, 5) |} 0%nat
    = inr (res, 2%nat)
    /\ map value (rolls res) = [1; 3] /\ used res = [] /\ subtotal res = 0.
Proof.
  destruct (proj1 (proj2 (resolution_returns_within_array_limit sampleRandom))
              {| count := 2; sides := 6; keep := None; drop := Some (dl, 5) |}
              0%nat)
    as (res & k' & Hr & _ & _ & _ & Hdrop).
  { vm_compute. discriminate. }
  destruct (Hdrop dl 5 eq_refl) as [Hu Hs].
  { vm_compute. discriminate. }
  exists res. vm_compute in Hr. injection Hr as <- <-.
  repeat split; reflexivity.
Defined.

(** A count of 2^32 parses to a well-formed term, and resolving it
    throws: [Array.from] cannot build an array of that length. *)
Lemma huge_count_throws :
  parseNotation (str "4294967296d6")
  = inr {| terms := [Dice {| count := 4294967296; sides := 6; keep := None;
                             drop := None |}];
           advantage := false; disadvantage := false |}
  /\ Machine.rollTerm sampleRandom
       {| count := 4294967296; sides := 6; keep := None; drop := None |} 0%nat
     = inl InvalidArrayLength
  /\ Machine.roll_dice sampleRandom (str "4294967296d6") 0%nat
     = inl InvalidArrayLength.
Proof. repeat split; vm_compute; reflexivity. Qed.

(** ** A count written as zero *)




(** * Further properties on machine numbers *)

(** X2.  Within the array limit and the safe range (count times sides at
    most 2^53), every die a term rolls shows a value from 1 to the number
    of sides, and the subtotal lies between the number of dice counted
    and that number times the sides. *)
Theorem rolls_and_subtotal_in_safe_range (random : nat -> Q) (d : DiceTerm)
    (k : nat) :
  randomOk random -> 1 <= sides d ->
  count d <= maxArrayLength ->
  Z.max 0 (count d) * sides d <= safeInteger ->
  exists res k',
    Machine.rollTerm random d k = inr (res, k')
    /\ Forall (fun r => 1 <= value r <= sides d) (rolls res)
    /\ Z.of_nat (length (used res)) <= subtotal res
       <= Z.of_nat (length (used res)) * sides d.
Proof.
  intros Hr Hs Hc Hm.
  assert (Hs0 : 0 <= sides d) by lia.
  rewrite (machine_rollTerm_exact random d k Hr Hs0 Hc)
    by (now rewrite (Z.max_r 1 (sides d)) by lia).
  now apply rollTerm_subtotal_range.
Qed.

Lemma rolls_and_subtotal_in_safe_range_witness :
  exists res,
    Machine.rollTerm sampleRandom
      {| count := 4; sides := 6; keep := Some (kh, 3); drop := None |} 0%nat
    = inr (res, 4%nat)
    /\ Forall (fun r => 1 <= value r <= 6) (rolls res)
    /\ 3 <= subtotal res <= 18.
Proof.
  destruct (rolls_and_subtotal_in_safe_range sampleRandom
              {| count := 4; sides := 6; keep := Some (kh, 3); drop := None |}
              0%nat sampleRandom_ok)
    as (res & k' & E & HF & Hsub);
    [vm_compute; discriminate ..|].
  exists res. vm_compute in E. injection E as <- <-.
  split; [reflexivity|]. split; [exact HF|]. exact Hsub.
Defined.

(** X7.  Within the array limit and the safe range, keeping the highest n
    of count dice counts the same dice as dropping the lowest count - n
    on the same draws: the used indices are rearrangements of each other
    and the subtotals are equal. *)
Theorem keep_highest_is_drop_lowest_in_safe_range (random : nat -> Q)
    (cnt sd n : Z) (k : nat) :
  randomOk random -> 0 <= sd ->
  1 <= n -> n < cnt ->
  cnt <= maxArrayLength ->
  cnt * Z.max 1 sd <= safeInteger ->
  exists r1 r2 k',
    Machine.rollTerm random
      {| count := cnt; sides := sd; keep := Some (kh, n); drop := None |} k
    = inr (r1, k')
    /\ Machine.rollTerm random
         {| count := cnt; sides := sd; keep := None;
            drop := Some (dl, cnt - n) |} k
       = inr (r2, k')
    /\ rolls r1 = rolls r2
    /\ Permutation (used r1) (used r2)
    /\ subtotal r1 = subtotal r2.
Proof.
  intros Hr Hs Hn Hlt Hc Hm.
  assert (Hm' : Z.max 0 cnt * Z.max 1 sd <= safeInteger)
    by now rewrite (Z.max_r 0 cnt) by lia.
  rewrite (machine_rollTerm_exact random
             {| count := cnt; sides := sd; keep := Some (kh, n);
                drop := None |} k Hr Hs Hc Hm').
  rewrite (machine_rollTerm_exact random
             {| count := cnt; sides := sd; keep := None;
                drop := Some (dl, cnt - n) |} k Hr Hs Hc Hm').
  now apply exact_keep_highest_is_drop_lowest.
Qed.

Lemma keep_highest_is_drop_lowest_in_safe_range_witness :
  exists r1 r2,
    Machine.rollTerm sampleRandom
      {| count := 4; sides := 6; keep := Some (kh, 3); drop := None |} 0%nat
    = inr (r1, 4%nat)
    /\ Machine.rollTerm sampleRandom
         {| count := 4; sides := 6; keep := None; drop := Some (dl, 1) |}
         0%nat
       = inr (r2, 4%nat)
    /\ used r1 = [2; 1; 3]%nat /\ used r2 = [1; 2; 3]%nat
    /\ subtotal r1 = subtotal r2.
Proof.
  destruct (keep_highest_is_drop_lowest_in_safe_range sampleRandom 4 6 3
              0%nat sampleRandom_ok)
    as (r1 & r2 & k' & E1 & E2 & _ & _ & Hs);
    [first [lia | vm_compute; discriminate] ..|].
  exists r1, r2. change (4 - 3) with 1 in E2.
  vm_compute in E1. injection E1 as <- <-.
  vm_compute in E2. injection E2 as <-.
  repeat split.
Defined.

(** X11.  An expression of flat modifiers only, whose absolute values add
    up to at most 2^53, is resolved without the random source: the total
    is the sum of the modifiers, each gets its record in order, and no
    random value is consumed. *)
Theorem modifiers_only_in_safe_range (random : nat -> Q) (ms : list Z)
    (adv dis : bool) (k : nat) :
  sumZ (map Z.abs ms) <= safeInteger ->
  Machine.resolve random {| terms := map Modifier ms; advantage := adv;
                            disadvantage := dis |} k
  = inr ((sumZ ms, map ModifierDetail ms), k).
Proof.
  intros Hm. unfold Machine.resolve. cbn [terms].
  assert (G : forall total details,
            Z.abs total + sumZ (map Z.abs ms) <= safeInteger ->
            Machine.resolveTerms random
              {| terms := map Modifier ms; advantage := adv;
                 disadvantage := dis |} (map Modifier ms) total details k
            = inr ((total + sumZ ms, details ++ map ModifierDetail ms), k)).
  { generalize {| terms := map Modifier ms; advantage := adv;
                  disadvantage := dis |} as parsed.
    intros parsed. clear Hm.
    induction ms as [|m ms IH]; intros total details Hb.
    - cbn. unfold ret. now rewrite Z.add_0_r, app_nil_r.
    - cbn [map sumZ fold_right] in Hb. fold (sumZ (map Z.abs ms)) in Hb.
      pose proof (sumZ_abs_nonneg ms).
      cbn [map Machine.resolveTerms]. unfold bind.
      cbn [Machine.resolveTerm ret fst snd].
      rewrite addDouble_exact by lia.
      rewrite IH by lia. cbn [sumZ fold_right map]. fold (sumZ ms).
      now rewrite <- app_assoc, Z.add_assoc. }
  rewrite G; [reflexivity|]. change (Z.abs 0) with 0. lia.
Qed.

Lemma modifiers_only_in_safe_range_witness :
  Machine.resolve sampleRandom
    {| terms := map Modifier [5; -2; 9007199254740000];
       advantage := true; disadvantage := false |} 4%nat
  = inr ((9007199254740003,
          map ModifierDetail [5; -2; 9007199254740000]), 4%nat).
Proof.
  apply (modifiers_only_in_safe_range sampleRandom
           [5; -2; 9007199254740000] true false 4%nat).
  vm_compute. discriminate.
Defined.

(** X12.  Within the array limit the handler consumes exactly as many
    random values as the expression asks for: three for every term on
    the advantage path, count for every other dice term, none for a
    modifier. *)
Theorem random_values_consumed_within_array_limit (random : nat -> Q)
    (parsed : ParsedExpression) (k : nat) :
  Forall countFits (terms parsed) ->
  exists total details,
    Machine.resolve random parsed k
    = inr ((total, details), (k + drawsNeeded parsed)%nat).
Proof.
  intros Hfit. unfold Machine.resolve.
  destruct (machine_resolveTerms_total random parsed (terms parsed) 0 [] k
              Hfit) as (total & ds & E & _).
  now exists total, ([] ++ ds).
Qed.

Lemma random_values_consumed_within_array_limit_witness :
  exists total details,
    Machine.resolve sampleRandom
      {| terms := [Dice {| count := 4; sides := 6; keep := Some (kh, 3);
                           drop := None |};
                   Dice {| count := 1; sides := 20; keep := None;
                           drop := None |};
                   Modifier 2];
         advantage := true; disadvantage := false |} 0%nat
    = inr ((total, details), 7%nat).
Proof.
  apply (random_values_consumed_within_array_limit sampleRandom
           {| terms := [Dice {| count := 4; sides := 6; keep := Some (kh, 3);
                                drop := None |};
                        Dice {| count := 1; sides := 20; keep := None;
                                drop := None |};
                        Modifier 2];
              advantage := true; disadvantage := false |} 0%nat).
  repeat constructor; vm_compute; discriminate.
Defined.

(** X13.  The handler throws what the parser throws and, once the notation
    has parsed, only the array error, and that exactly when some dice
    term has a count above the array limit. *)
Theorem handler_errors_are_parse_or_array_errors (random : nat -> Q)
    (notation : JsString.t) (k : nat) (e : Exn) :
  Machine.roll_dice random notation k = inl e
  <-> parseNotation notation = inl e
      \/ exists parsed,
           parseNotation notation = inr parsed
           /\ ~ Forall countFits (terms parsed)
           /\ e = InvalidArrayLength.
Proof.
  unfold Machine.roll_dice.
  destruct (parseNotation notation) as [e'|parsed] eqn:Hp.
  - unfold throw. split.
    + intros H. left. congruence.
    + intros [H|(parsed & H & _)]; congruence.
  - unfold Machine.resolve. split.
    + intros H. right. exists parsed.
      apply machine_resolveTerms_error in H as [-> Hn]. now repeat split.
    + intros [H|(parsed' & H & Hn & ->)]; [discriminate|].
      injection H as <-. now apply machine_resolveTerms_throws.
Qed.

Lemma handler_errors_are_parse_or_array_errors_witness :
  Machine.roll_dice sampleRandom (str "1d20+4294967296d6") 7%nat
  = inl InvalidArrayLength.
Proof.
  apply (proj2 (handler_errors_are_parse_or_array_errors sampleRandom
                  (str "1d20+4294967296d6") 7%nat InvalidArrayLength)).
  right. eexists. split; [reflexivity|]. split; [|reflexivity].
  intros HF. inversion HF as [|? ? _ HF2]. inversion HF2 as [|? ? Hfit _].
  vm_compute in Hfit. now apply Hfit.
Defined.

(** X14.  When the notation parses, every die has at least one side and
    the expression stays in the safe range, the total lies between the
    sum of the least and the sum of the greatest each term can give: a
    modifier gives its value, a term on the advantage path 1 to 20, any
    other dice term from the number of dice it counts to that number
    times the sides. *)
Theorem total_in_safe_range (random : nat -> Q) (notation : JsString.t)
    (parsed : ParsedExpression) (k : nat) :
  randomOk random ->
  parseNotation notation = inr parsed ->
  Forall hasSides (terms parsed) ->
  inSafeRange parsed ->
  exists total details k',
    Machine.roll_dice random notation k = inr ((total, details), k')
    /\ sumZ (map (termLow parsed) (terms parsed)) <= total
       <= sumZ (map (termHigh parsed) (terms parsed)).
Proof.
  intros Hr Hp Hs Hsafe. unfold Machine.roll_dice. rewrite Hp.
  rewrite (machine_resolve_exact random parsed k Hr
             (parseNotation_ok _ _ Hp) Hsafe).
  unfold resolve.
  destruct (resolveTerms_in_range random parsed (terms parsed) 0 [] k Hr
              (parseNotation_ok _ _ Hp) Hs)
    as (total & details & k' & E & Ht).
  exists total, details, k'. split; [exact E | lia].
Qed.

Lemma total_in_safe_range_witness :
  exists total details,
    Machine.roll_dice sampleRandom (str "4d6kh3+1d20+2 adv") 0%nat
    = inr ((total, details), 7%nat)
    /\ 6 <= total <= 40.
Proof.
  destruct (total_in_safe_range sampleRandom (str "4d6kh3+1d20+2 adv")
              {| terms := [Dice {| count := 4; sides := 6;
                                   keep := Some (kh, 3); drop := None |};
                           Dice {| count := 1; sides := 20; keep := None;
                                   drop := None |};
                           Modifier 2];
                 advantage := true; disadvantage := false |}
              0%nat sampleRandom_ok eq_refl)
    as (total & details & k' & E & Ht).
  { repeat constructor; simpl; lia. }
  { split; [|vm_compute; discriminate].
    repeat constructor; vm_compute; discriminate. }
  exists total, details.
  assert (Hk : k' = 7%nat).
  { vm_compute in E. now injection E as _ _ <-. }
  subst k'. split; [exact E | exact Ht].
Defined.

(** * The parser against the notation

    The tokens, the flags and the signed runs of the specification are
    defined on the notation itself.  What the parser computes with
    [trim], [split], its loop and [replace] is compared with them. *)

(** ** Tokens *)

Lemma trimStart_decompose z :
  exists sp, allSpaces sp /\ z = sp ++ trimStart z
             /\ startsWith isSpace (trimStart z) = false.
Proof.
  induction z as [|c z (sp & Hsp & E & Hst)].
  - exists []. now repeat split.
  - cbn [trimStart]. destruct (isSpace c) eqn:Hc.
    + exists (c :: sp). split; [|split; [|exact Hst]].
      * unfold allSpaces in *. cbn [forallb]. now rewrite Hc.
      * cbn [app]. now rewrite <- E.
    + exists []. split; [reflexivity|]. split; [reflexivity|].
      cbn [startsWith]. exact Hc.
Qed.

Lemma words_spaces_app sp s : allSpaces sp -> words (sp ++ s) = words s.
Proof.
  unfold allSpaces. induction sp as [|c sp IH]; [reflexivity|].
  cbn [forallb app words]. intros H. apply andb_true_iff in H as [Hc Hsp].
  rewrite Hc. now apply IH.
Qed.

Lemma words_spaces sp : allSpaces sp -> words sp = [].
Proof.
  intros H. rewrite <- (app_nil_r sp). now rewrite words_spaces_app.
Qed.

Lemma startsWith_app {p} (a b : JsString.t) :
  a <> [] -> startsWith p (a ++ b) = startsWith p a.
Proof. destruct a; [congruence | reflexivity]. Qed.

Lemma words_app_spaces s sp : allSpaces sp -> words (s ++ sp) = words s.
Proof.
  intros Hsp. induction s as [|c s IH].
  - cbn [app]. now rewrite words_spaces.
  - cbn [app words]. rewrite IH. destruct (isSpace c); [reflexivity|].
    destruct s as [|c' s].
    + cbn [app startsWith words]. destruct sp as [|x sp]; [reflexivity|].
      unfold allSpaces in Hsp. cbn [forallb] in Hsp.
      apply andb_true_iff in Hsp as [Hx _]. cbn [startsWith]. now rewrite Hx.
    + reflexivity.
Qed.

(** On a text that ends with a character that is no white space,
    [split] leaves an empty piece in front when the text starts with
    white space, and otherwise gives the words. *)
Lemma splitSpaces_words u c :
  isSpace c = false ->
  splitSpaces (u ++ [c])
  = (if startsWith isSpace (u ++ [c]) then [[]] else []) ++ words (u ++ [c]).
Proof.
  intros Hc. induction u as [|a u IH].
  - cbn. now rewrite Hc.
  - cbn [app splitSpaces words startsWith]. rewrite IH.
    destruct (isSpace a), (startsWith isSpace (u ++ [c])); reflexivity.
Qed.

(** Once trimmed, a text is empty or runs from a character that is no
    white space to one that is none, and has the words of the whole. *)
Lemma trim_shape s :
  words (trim s) = words s
  /\ (trim s = []
      \/ exists u c, trim s = u ++ [c] /\ isSpace c = false
                     /\ startsWith isSpace (trim s) = false).
Proof.
  unfold trim, trimEnd.
  destruct (trimStart_decompose s) as (sp1 & Hsp1 & E1 & Hst1).
  set (x := trimStart s) in *. clearbody x.
  destruct (trimStart_decompose (rev x)) as (sp2 & Hsp2 & E2 & Hst2).
  set (y := trimStart (rev x)) in *. clearbody y.
  assert (Ex : x = rev y ++ rev sp2).
  { rewrite <- (rev_involutive x), E2. apply rev_app_distr. }
  split.
  - rewrite E1, words_spaces_app by exact Hsp1.
    rewrite Ex. now rewrite words_app_spaces by now apply allSpaces_rev.
  - destruct y as [|c y']; [now left|]. right.
    exists (rev y'), c. cbn [rev]. split; [reflexivity|].
    cbn [startsWith] in Hst2. split; [exact Hst2|].
    rewrite Ex in Hst1. cbn [rev] in Hst1.
    rewrite startsWith_app in Hst1; [exact Hst1|].
    now destruct (rev y').
Qed.

(** The tokens [parseNotation] starts from are the words of the
    notation in lower case; the empty notation has the one empty token
    [split] gives. *)
Lemma tokensOf_words notation :
  tokensOf notation = notationTokens notation
  \/ (tokensOf notation = [[]] /\ notationTokens notation = []).
Proof.
  unfold tokensOf, notationTokens. rewrite <- trim_toLowerCase.
  set (s := toLowerCase notation).
  destruct (trim_shape s) as [Hw [E | (u & c & E & Hc & Hst)]].
  - right. rewrite <- Hw, E. now split.
  - left. rewrite <- Hw. rewrite E in Hst |- *.
    rewrite (splitSpaces_words u c Hc), Hst. reflexivity.
Qed.

(** ** Flags *)

Lemma isAdvWord_isAdv tok : isAdvWord tok = isAdv tok.
Proof. unfold isAdvWord, isAdv. cbn [existsb]. now rewrite orb_false_r. Qed.

Lemma isDisWord_isDis tok : isDisWord tok = isDis tok.
Proof. unfold isDisWord, isDis. cbn [existsb]. now rewrite orb_false_r. Qed.

Lemma isAdv_not_isDis tok : isAdv tok = true -> isDis tok = false.
Proof.
  unfold isAdv, isDis. rewrite orb_true_iff, !jsstring_eqb_eq.
  intros [-> | ->]; reflexivity.
Qed.

(** The loop over the last tokens takes the flag words off the end and
    sets a flag for each kind it meets. *)
Lemma stripFlags_spec rtokens adv dis :
  stripFlags rtokens adv dis
  = (rev (dropWhile isFlagToken rtokens),
     adv || existsb isAdvWord (takeWhile isFlagToken rtokens),
     dis || existsb isDisWord (takeWhile isFlagToken rtokens)).
Proof.
  revert adv dis. induction rtokens as [|tok rest IH]; intros adv dis.
  - cbn. now rewrite !orb_false_r.
  - cbn [stripFlags dropWhile takeWhile]. unfold isFlagToken at 1 3 5.
    rewrite isAdvWord_isAdv, isDisWord_isDis.
    destruct (isAdv tok) eqn:Ha.
    + rewrite (isAdv_not_isDis tok Ha). cbn [orb existsb].
      rewrite isAdvWord_isAdv, isDisWord_isDis, Ha,
        (isAdv_not_isDis tok Ha), IH.
      cbn [orb]. now rewrite !orb_true_r.
    + destruct (isDis tok) eqn:Hd; cbn [orb existsb].
      * rewrite isAdvWord_isAdv, isDisWord_isDis, Ha, Hd, IH.
        cbn [orb]. now rewrite !orb_true_r.
      * now rewrite !orb_false_r.
Qed.

Lemma advSeen_written notation : advSeen notation = advantageWritten notation.
Proof.
  unfold advSeen, strippedOf, advantageWritten, trailingFlags.
  rewrite stripFlags_spec. cbn [fst snd orb].
  destruct (tokensOf_words notation) as [-> | [-> ->]]; reflexivity.
Qed.

Lemma disSeen_written notation :
  disSeen notation = disadvantageWritten notation.
Proof.
  unfold disSeen, strippedOf, disadvantageWritten, trailingFlags.
  rewrite stripFlags_spec. cbn [fst snd orb].
  destruct (tokensOf_words notation) as [-> | [-> ->]]; reflexivity.
Qed.

Lemma joined_termsText notation :
  join (fst (fst (strippedOf notation))) = termsText notation.
Proof.
  unfold strippedOf, termsText, join.
  rewrite stripFlags_spec. cbn [fst snd].
  destruct (tokensOf_words notation) as [-> | [-> ->]]; reflexivity.
Qed.

(** ** Signed runs *)

Lemma partsOf_signedRuns notation : Forall signedRun (partsOf notation).
Proof.
  unfold partsOf, partsOfTokens.
  set (s := ensurePlus (join (fst (fst (strippedOf notation))))).
  destruct (splitSigns_shape s) as (f & rs & E & Hrs & Htl & Hhd).
  rewrite E. unfold s in Hhd. rewrite ensurePlus_starts in Hhd.
  assert (Hf : signedRun f).
  { destruct f as [|x f]; [discriminate|]. cbn in Hhd, Htl |- *. now split. }
  assert (HF : Forall signedRun (f :: rs)) by now constructor.
  rewrite Forall_forall in *. intros p Hp. apply filter_In in Hp as [Hp _].
  now apply HF.
Qed.

(** A text is cut in one way only into a part without signs and a rest
    that is empty or starts with a sign. *)
Lemma nosign_prefix_unique (l l' t t' : JsString.t) :
  forallb notSign l = true -> forallb notSign l' = true ->
  startsWith notSign t = false -> startsWith notSign t' = false ->
  l ++ t = l' ++ t' -> l = l' /\ t = t'.
Proof.
  revert l'. induction l as [|c l IH]; intros [|c' l'] Hl Hl' Ht Ht' E;
    cbn [app forallb] in *.
  - now split.
  - subst t. cbn [startsWith] in Ht.
    apply andb_true_iff in Hl' as [Hc _]. congruence.
  - subst t'. cbn [startsWith] in Ht'.
    apply andb_true_iff in Hl as [Hc _]. congruence.
  - injection E as -> E.
    apply andb_true_iff in Hl as [_ Hl]. apply andb_true_iff in Hl' as [_ Hl'].
    destruct (IH l' Hl Hl' Ht Ht' E) as [-> ->]. now split.
Qed.

Lemma concat_signedRuns_starts (runs : list JsString.t) :
  Forall signedRun runs -> startsWith notSign (concat runs) = false.
Proof.
  intros [|[|c r] rest Hp _]; [reflexivity | contradiction |].
  destruct Hp as [Hc _]. cbn. unfold notSign. now rewrite Hc.
Qed.

(** So a text has at most one list of signed runs that spell it. *)
Lemma signedRuns_unique (runs runs' : list JsString.t) :
  Forall signedRun runs -> Forall signedRun runs' ->
  concat runs = concat runs' -> runs = runs'.
Proof.
  intros H. revert runs'.
  induction H as [|p rest Hp Hrest IH]; intros runs' H' E.
  - destruct H' as [|[|c' r'] rest' Hp' _];
      [reflexivity | contradiction | discriminate].
  - destruct p as [|c r]; [contradiction|].
    destruct H' as [|[|c' r'] rest' Hp' Hrest'];
      [discriminate | contradiction |].
    cbn [concat app] in E. injection E as -> E.
    destruct Hp as [_ Hr]. destruct Hp' as [_ Hr'].
    destruct (nosign_prefix_unique r r' (concat rest) (concat rest') Hr Hr'
                (concat_signedRuns_starts _ Hrest)
                (concat_signedRuns_starts _ Hrest') E) as [-> E'].
    now rewrite (IH rest' Hrest' E').
Qed.

(** Unless the text starts with a minus sign, [replace] puts in front
    the sign the specification asks for. *)
Lemma withSign_ensurePlus text :
  startsWithMinus text = false -> withSign text = ensurePlus text.
Proof.
  unfold startsWithMinus, withSign, ensurePlus.
  destruct text as [|c r]; [reflexivity|]. cbn [startsWith]. unfold isSign.
  rewrite (Ascii.eqb_sym "-"%char c). intros ->. now rewrite orb_false_r.
Qed.

(** The runs the parser cuts are the signed runs of the notation,
    unless the text of the terms starts with a minus sign. *)
Lemma partsOf_signedRunsOf notation runs :
  signedRunsOf notation runs ->
  startsWithMinus (termsText notation) = false ->
  runs = partsOf notation.
Proof.
  intros [Hruns Hcat] Hminus.
  apply signedRuns_unique; [exact Hruns | apply partsOf_signedRuns |].
  now rewrite Hcat, partsOf_concat, joined_termsText, withSign_ensurePlus.
Qed.

(** ** When parsing fails *)

(** C7, as the code has it.  For a notation whose terms, the text of the
    tokens before the trailing flag words, do not start with a minus
    sign, parsing fails exactly in these cases: a signed run has neither
    the form of a dice term nor the form of a flat modifier; a dice term
    starts with a minus sign; both an advantage and a disadvantage word
    are written at the end.  The error is the invalid-part error with the
    run, the negative-pool error with the run, or the conflicting-flags
    error.  Beyond these the handler throws one more kind of error: the
    array error of resolution, for a dice term whose count is above
    2^32 - 1. *)
Theorem parse_fails_exactly_on_notation (notation : JsString.t)
    (runs : list JsString.t) :
  signedRunsOf notation runs ->
  startsWithMinus (termsText notation) = false ->
  ((exists e, parseNotation notation = inl e)
   <-> (exists part, In part runs /\ ~ diceForm part /\ ~ modForm part)
       \/ (exists part, In part runs
                        /\ diceForm part /\ startsWithMinus part = true)
       \/ (advantageWritten notation = true
           /\ disadvantageWritten notation = true))
  /\ (forall e, parseNotation notation = inl e ->
        (exists part, In part runs
                      /\ ~ diceForm part /\ ~ modForm part
                      /\ e = InvalidDicePart part)
        \/ (exists part, In part runs
                         /\ diceForm part /\ startsWithMinus part = true
                         /\ e = NegativeDicePools part)
        \/ (advantageWritten notation = true
            /\ disadvantageWritten notation = true
            /\ e = BothAdvantageAndDisadvantage))
  /\ (forall random k e,
        Machine.roll_dice random notation k = inl e ->
        parseNotation notation = inl e
        \/ (e = InvalidArrayLength
            /\ exists parsed d,
                 parseNotation notation = inr parsed
                 /\ In (Dice d) (terms parsed)
                 /\ maxArrayLength < count d)).
Proof.
  intros Hruns Hminus.
  rewrite (partsOf_signedRunsOf notation runs Hruns Hminus).
  rewrite <- advSeen_written, <- disSeen_written.
  split; [apply parseNotation_fails_iff|].
  split; [apply parseNotation_fails_iff|].
  intros random k e. unfold Machine.roll_dice.
  destruct (parseNotation notation) as [e'|parsed] eqn:Hp.
  - unfold throw. intros H. left. congruence.
  - unfold Machine.resolve. intros H. right.
    apply machine_resolveTerms_error in H as [-> Hn].
    split; [reflexivity|].
    apply (neg_Forall_Exists_neg countFits_dec) in Hn.
    apply Exists_exists in Hn as (t & Hin & Ht).
    destruct t as [d|m]; [|now contradiction Ht].
    cbn [countFits] in Ht. exists parsed, d.
    split; [reflexivity|]. split; [exact Hin | lia].
Qed.

Lemma parse_fails_exactly_on_notation_witness :
  parseNotation (str "  2D6 + x  ADV   dis ") = inl (InvalidDicePart (str "+x"))
  /\ ~ diceForm (str "+x") /\ ~ modForm (str "+x").
Proof.
  assert (E : parseNotation (str "  2D6 + x  ADV   dis ")
              = inl (InvalidDicePart (str "+x"))) by reflexivity.
  split; [exact E|].
  destruct (parse_fails_exactly_on_notation (str "  2D6 + x  ADV   dis ")
              [str "+2d6"; str "+x"])
    as (_ & Hkind & _).
  - split; [|reflexivity].
    repeat constructor.
  - reflexivity.
  - destruct (Hkind _ E)
      as [(part & _ & Hnd & Hnm & Hbad)
         | [(part & _ & _ & _ & Hneg) | (_ & _ & Hboth)]].
    + injection Hbad as <-. now split.
    + discriminate Hneg.
    + discriminate Hboth.
Defined.

(** The three cases do not cover a notation that starts with a minus
    sign: the signed run of "-5" is "-5", a flat modifier and no dice
    term, no flag is written, and parsing fails on the plus sign put in
    front.  Nor are the errors of parsing the only ones of the core: for
    a count of 2^32 the notation parses and the handler throws the array
    error. *)
Lemma parse_failure_cases_are_incomplete :
  signedRunsOf (str "-5") [str "-5"]
  /\ (forall part, In part [str "-5"] -> modForm part /\ ~ diceForm part)
  /\ advantageWritten (str "-5") = false
  /\ disadvantageWritten (str "-5") = false
  /\ parseNotation (str "-5") = inl (InvalidDicePart (str "+"))
  /\ (exists parsed, parseNotation (str "4294967296d6") = inr parsed)
  /\ Machine.roll_dice sampleRandom (str "4294967296d6") 0%nat
     = inl InvalidArrayLength.
Proof.
  split; [split; [repeat constructor | reflexivity]|].
  split.
  { intros part [<- | []]. split.
    - exists "-"%char, (str "5"). repeat split; discriminate.
    - intros (sg & cnt & sd & tl & E & _).
      destruct cnt as [|? [|? ?]]; discriminate. }
  repeat split; try reflexivity.
  now eexists.
Qed.
